(** * Guess-the-place: the room game engine of [server.js]

    A shallow embedding of the matching engine ([checkAnswer],
    [levenshtein]), of the scoring done by the [submit-guess] handler and of
    the room state machine (socket handlers, REST settings endpoint, timers),
    followed by the properties of the specification that were checked
    against it.

    Conventions of the embedding.
    - A JavaScript string is the list of its code units.  Code units are
      taken in the Latin-1 range (Rocq's [ascii]); on that range
      [toLowerCase], [trim] and the character classes of the regular
      expressions are the ones written below.
    - A JavaScript Number that may hold a fraction (ratios, match quality,
      points, scores) is a binary64 float, Rocq's primitive [float], with
      the IEEE operations the language uses.  Counters, lengths, indices and
      millisecond time stamps are integers ([nat] or [Z]); they are
      converted with [num_of_nat] / [num_of_Z] where the code mixes them
      with fractions.
    - A handler is a function from the server state to the new state and
      the list of events it emits; a handler that ends in an uncaught
      [TypeError] is [None]. *)

From Stdlib Require Import ZArith List Ascii String Floats Uint63 Lia Bool.
From stdpp Require Import gmap strings list.

#[global] Set Warnings "-inexact-float".
#[local] Open Scope Z_scope.

(* ================================================================== *)
(** * Part I. Definitions *)
(* ================================================================== *)

(** ** JavaScript numbers *)

(** The Number that an integer denotes: the double nearest to [z], ties
    to even (exact up to [2^53] in absolute value, an infinity from
    [2^1024] on). *)
Definition num_of_Z (z : Z) : float :=
  SF2Prim (binary_normalize prec emax z 0 false).

Definition num_of_nat (n : nat) : float := num_of_Z (Z.of_nat n).

(** [a >= b] and [a > b] on Numbers. *)
Definition num_ge (a b : float) : bool := (b <=? a)%float.
Definition num_gt (a b : float) : bool := (b <? a)%float.

Definition is_neg_zero (x : float) : bool :=
  match Prim2SF x with S754_zero true => true | _ => false end.

(** [Math.min] and [Math.max] of two Numbers: NaN if either is NaN, and
    [-0] below [+0]. *)
Definition Math_min (a b : float) : float :=
  if PrimFloat.is_nan a || PrimFloat.is_nan b then PrimFloat.nan
  else if (a <? b)%float then a
  else if (b <? a)%float then b
  else if is_neg_zero b then b else a.

Definition Math_max (a b : float) : float :=
  if PrimFloat.is_nan a || PrimFloat.is_nan b then PrimFloat.nan
  else if (b <? a)%float then a
  else if (a <? b)%float then b
  else if is_neg_zero a then b else a.

(** [Math.round]: the integral Number closest to [x], ties towards
    [+Infinity]; NaN, the infinities and the zeros are returned as they
    are, and a result of zero keeps the sign of [x]. *)
Definition Math_round (x : float) : float :=
  match Prim2SF x with
  | S754_finite s m e =>
      if 0 <=? e then x
      else
        let k := - e in
        let sm := if s then Z.neg m else Z.pos m in
        let n := (2 * sm + 2 ^ k) / 2 ^ (k + 1) in
        if n =? 0 then (if s then PrimFloat.neg_zero else PrimFloat.zero)
        else num_of_Z n
  | _ => x
  end.

(** ** JavaScript strings *)

Abbreviation jsstring := (list ascii).

Definition code (c : ascii) : nat := nat_of_ascii c.

Definition between (lo hi : nat) (c : ascii) : bool :=
  (lo <=? code c)%nat && (code c <=? hi)%nat.

(** [\s] and the characters removed by [trim]: TAB, LF, VT, FF, CR, SPACE
    and NBSP. *)
Definition is_space (c : ascii) : bool :=
  between 9 13 c || (code c =? 32)%nat || (code c =? 160)%nat.

Definition is_lower (c : ascii) : bool := between 97 122 c.  (* a-z *)
Definition is_digit (c : ascii) : bool := between 48 57 c.   (* 0-9 *)

(** [toLowerCase] of one code unit: A-Z, and the Latin-1 capitals
    (U+00C0-U+00DE but the multiplication sign U+00D7). *)
Definition lower_char (c : ascii) : ascii :=
  if between 65 90 c
     || (between 192 222 c && negb (code c =? 215)%nat)
  then ascii_of_nat (code c + 32) else c.

Definition toLowerCase (s : jsstring) : jsstring := map lower_char s.

Fixpoint trimStart (s : jsstring) : jsstring :=
  match s with
  | c :: s' => if is_space c then trimStart s' else s
  | [] => []
  end.

Definition trim (s : jsstring) : jsstring :=
  rev (trimStart (rev (trimStart s))).

(** [str.replace(/[^a-z0-9\s]/g, '')] *)
Definition strip_other (s : jsstring) : jsstring :=
  List.filter (fun c => is_lower c || is_digit c || is_space c) s.

(** [str.replace(/\s+/g, ' ')]: [in_run] tells that the previous code unit
    was white space, whose run has already been replaced. *)
Fixpoint collapse_from (in_run : bool) (s : jsstring) : jsstring :=
  match s with
  | [] => []
  | c :: s' =>
      if is_space c
      then (if in_run then collapse_from true s'
            else " "%char :: collapse_from true s')
      else c :: collapse_from false s'
  end.

Definition collapse_spaces (s : jsstring) : jsstring := collapse_from false s.

Definition str_eqb (a b : jsstring) : bool := bool_decide (a = b).

Fixpoint startsWith (s p : jsstring) : bool :=
  match p, s with
  | [], _ => true
  | x :: p', y :: s' => Ascii.eqb x y && startsWith s' p'
  | _ :: _, [] => false
  end.

(** [s.includes(sub)] *)
Fixpoint includes (s sub : jsstring) : bool :=
  startsWith s sub
  || match s with
     | [] => false
     | _ :: s' => includes s' sub
     end.

(** [str.split(' ')] *)
Fixpoint split_space (s : jsstring) : list jsstring :=
  match s with
  | [] => [[]]
  | c :: s' =>
      if Ascii.eqb c " "%char then [] :: split_space s'
      else match split_space s' with
           | w :: ws => (c :: w) :: ws
           | [] => [[c]]
           end
  end.

(** [words.join(' ')] *)
Fixpoint join_space (ws : list jsstring) : jsstring :=
  match ws with
  | [] => []
  | [w] => w
  | w :: ws' => w ++ " "%char :: join_space ws'
  end.

(** [list.includes(w)] for a list of strings *)
Definition includes_word (l : list jsstring) (w : jsstring) : bool :=
  existsb (str_eqb w) l.

(** ** The matching engine *)

(** [levenshtein]: the table [dp] is a list of rows. *)
Definition dp_get (dp : list (list nat)) (i j : nat) : nat :=
  nth j (nth i dp []) 0%nat.

Definition dp_set (dp : list (list nat)) (i j v : nat) : list (list nat) :=
  <[i := <[j := v]> (nth i dp [])]> dp.

Definition dp_init (la lb : nat) : list (list nat) :=
  map (fun i =>
         map (fun j => if (i =? 0)%nat then j
                       else if (j =? 0)%nat then i else 0%nat)
             (seq 0 (S lb)))
      (seq 0 (S la)).

Definition char_at (s : jsstring) (i : nat) : option ascii := s !! i.

Definition min3 (x y z : nat) : nat := Nat.min (Nat.min x y) z.

Definition dp_cell (a b : jsstring) (dp : list (list nat)) (i j : nat) : nat :=
  if bool_decide (char_at a (i - 1) = char_at b (j - 1))
  then dp_get dp (i - 1) (j - 1)
  else (1 + min3 (dp_get dp (i - 1) j) (dp_get dp i (j - 1))
                 (dp_get dp (i - 1) (j - 1)))%nat.

Definition dp_row (a b : jsstring) (dp : list (list nat)) (i : nat)
  : list (list nat) :=
  fold_left (fun dp j => dp_set dp i j (dp_cell a b dp i j))
            (seq 1 (length b)) dp.

Definition dp_fill (a b : jsstring) : list (list nat) :=
  fold_left (dp_row a b) (seq 1 (length a)) (dp_init (length a) (length b)).

Definition levenshtein (a b : jsstring) : nat :=
  dp_get (dp_fill a b) (length a) (length b).

Definition normalize (str : jsstring) : jsstring :=
  collapse_spaces (strip_other (trim (toLowerCase str))).

Definition js (s : string) : jsstring := list_ascii_of_string s.

Definition stopWords : list jsstring :=
  map js ["the"; "of"; "a"; "an"; "at"; "in"; "on"; "le"; "la"; "el";
          "de"; "di"; "du"]%string.

Definition stripStop (str : jsstring) : jsstring :=
  join_space (List.filter (fun w => negb (includes_word stopWords w))
                     (split_space str)).

Definition is_vowel (c : ascii) : bool :=
  existsb (Ascii.eqb c) (js "aeiou").

Definition stripVowels (str : jsstring) : jsstring :=
  List.filter (fun c => negb (is_vowel c)) str.

Definition nonempty {A} (l : list A) : bool :=
  match l with [] => false | _ => true end.

(** [maxLen > 0 ? distance / maxLen : 1] *)
Definition ratio_of (distance maxLen : nat) : float :=
  if (0 <? maxLen)%nat
  then (num_of_nat distance / num_of_nat maxLen)%float
  else 1%float.

(** The condition of the inner loop of the word-by-word matching. *)
Definition word_close (gw cw : jsstring) : bool :=
  let wordDist := levenshtein gw cw in
  let wordMax := Nat.max (length gw) (length cw) in
  (0 <? wordMax)%nat
  && (num_of_nat wordDist / num_of_nat wordMax <=? 0.3)%float.

(** The two nested loops: a key word of the answer counts once, at the
    first guess word that is close to it. *)
Definition count_matched (cWords gWords : list jsstring) : nat :=
  fold_left (fun matchedWords cw =>
               if existsb (fun gw => word_close gw cw) gWords
               then S matchedWords else matchedWords)
            cWords 0%nat.

Definition gWords_of (g : jsstring) : list jsstring :=
  List.filter (fun w => (2 <? length w)%nat) (split_space g).

Definition cWords_of (c : jsstring) : list jsstring :=
  List.filter (fun w => (2 <? length w)%nat && negb (includes_word stopWords w))
         (split_space c).

(** The body of [checkAnswer] after normalisation and the emptiness tests. *)
Definition checkNormalized (g c : jsstring) : float :=
  if str_eqb g c then 1
  else if includes g c then 1
  else if includes c g
          && num_ge (num_of_nat (length g)) (num_of_nat (length c) * 0.7)
  then 0.9
  else
    let distance := levenshtein g c in
    let maxLen := Nat.max (length g) (length c) in
    let ratio := ratio_of distance maxLen in
    if (ratio <=? 0.15)%float then 0.9
    else if (ratio <=? 0.25)%float then 0.8
    else if (ratio <=? 0.35)%float then 0.7
    else
      let gStripped := stripStop g in
      let cStripped := stripStop c in
      let stripped : option float :=
        if nonempty gStripped && nonempty cStripped then
          if str_eqb gStripped cStripped then Some 0.95%float
          else
            let dStripped := levenshtein gStripped cStripped in
            let maxStripped := Nat.max (length gStripped) (length cStripped) in
            let sRatio := ratio_of dStripped maxStripped in
            if (sRatio <=? 0.2)%float then Some 0.85%float
            else if (sRatio <=? 0.35)%float then Some 0.7%float
            else None
        else None in
      match stripped with
      | Some q => q
      | None =>
          let gWords := gWords_of g in
          let cWords := cWords_of c in
          let words : option float :=
            if (0 <? length cWords)%nat && (0 <? length gWords)%nat then
              let matchedWords := count_matched cWords gWords in
              let wordRatio :=
                (num_of_nat matchedWords / num_of_nat (length cWords))%float in
              if num_ge wordRatio 1.0 then Some 0.85%float
              else if num_ge wordRatio 0.6 then Some 0.6%float
              else if num_ge wordRatio 0.4 then Some 0.4%float
              else None
            else None in
          match words with
          | Some q => q
          | None =>
              if includes c g
                 && num_ge (num_of_nat (length g))
                           (num_of_nat (length c) * 0.4)
              then 0.4
              else
                let gNoVowels := stripVowels g in
                let cNoVowels := stripVowels c in
                if (3 <=? length gNoVowels)%nat
                   && (3 <=? length cNoVowels)%nat
                   && (let vDist := levenshtein gNoVowels cNoVowels in
                       let vMax :=
                         Nat.max (length gNoVowels) (length cNoVowels) in
                       (0 <? vMax)%nat
                       && (num_of_nat vDist / num_of_nat vMax <=? 0.2)%float)
                then 0.65
                else 0
          end
      end.

Definition checkAnswer (guess correctAnswer : string) : float :=
  if negb (nonempty (js guess)) || negb (nonempty (js correctAnswer)) then 0
  else
    let g := normalize (js guess) in
    let c := normalize (js correctAnswer) in
    if negb (nonempty g) || negb (nonempty c) then 0
    else checkNormalized g c.

(** ** The room model *)

Inductive room_state := setup | lobby | playing | roundResult | finished.

#[global] Instance room_state_eq_dec : EqDecision room_state.
Proof. solve_decision. Defined.

Record image := { data : string; img_name : string; answer : string }.

(** One entry of [player.answers].  [endRound] pushes entries without a
    [matchQuality] field and with [time: null]. *)
Record answer_entry := {
  round : Z;
  correct : bool;
  points : float;
  time : option Z;
  matchQuality : option float
}.

Record player := {
  player_id : string;
  player_name : string;
  score : float;
  answers : list answer_entry;
  streak : nat
}.

Record room_settings := { roundTime : Z; totalRounds : Z }.

(** A JavaScript [Map] keeps its keys in insertion order: an association
    list in which [set] overwrites in place and appends a new key. *)
Definition Map_get {V} (k : string) (m : list (string * V)) : option V :=
  snd <$> List.find (fun kv => String.eqb k (fst kv)) m.

Fixpoint Map_set {V} (k : string) (v : V) (m : list (string * V))
  : list (string * V) :=
  match m with
  | [] => [(k, v)]
  | kv :: m' => if String.eqb k (fst kv) then (k, v) :: m'
                else kv :: Map_set k v m'
  end.

Definition Map_delete {V} (k : string) (m : list (string * V))
  : list (string * V) :=
  List.filter (fun kv => negb (String.eqb k (fst kv))) m.

Definition Map_keys {V} (m : list (string * V)) : list string := map fst m.
Definition Map_values {V} (m : list (string * V)) : list V := map snd m.

Record room := {
  room_id : string;
  hostId : string;
  hostSocketId : option string;
  images : list image;
  players : list (string * player);
  settings : room_settings;
  state : room_state;
  currentRound : Z;
  roundStartTime : option Z;
  roundTimer : option nat;          (* the handle of a timer, or null *)
  roundAnswered : gset string;
  createdAt : Z
}.

Definition with_hostSocketId (v : option string) (r : room) : room :=
  {| room_id := room_id r; hostId := hostId r; hostSocketId := v;
     images := images r; players := players r; settings := settings r;
     state := state r; currentRound := currentRound r;
     roundStartTime := roundStartTime r; roundTimer := roundTimer r;
     roundAnswered := roundAnswered r; createdAt := createdAt r |}.

Definition with_images (v : list image) (r : room) : room :=
  {| room_id := room_id r; hostId := hostId r; hostSocketId := hostSocketId r;
     images := v; players := players r; settings := settings r;
     state := state r; currentRound := currentRound r;
     roundStartTime := roundStartTime r; roundTimer := roundTimer r;
     roundAnswered := roundAnswered r; createdAt := createdAt r |}.

Definition with_players (v : list (string * player)) (r : room) : room :=
  {| room_id := room_id r; hostId := hostId r; hostSocketId := hostSocketId r;
     images := images r; players := v; settings := settings r;
     state := state r; currentRound := currentRound r;
     roundStartTime := roundStartTime r; roundTimer := roundTimer r;
     roundAnswered := roundAnswered r; createdAt := createdAt r |}.

Definition with_settings (v : room_settings) (r : room) : room :=
  {| room_id := room_id r; hostId := hostId r; hostSocketId := hostSocketId r;
     images := images r; players := players r; settings := v;
     state := state r; currentRound := currentRound r;
     roundStartTime := roundStartTime r; roundTimer := roundTimer r;
     roundAnswered := roundAnswered r; createdAt := createdAt r |}.

Definition with_state (v : room_state) (r : room) : room :=
  {| room_id := room_id r; hostId := hostId r; hostSocketId := hostSocketId r;
     images := images r; players := players r; settings := settings r;
     state := v; currentRound := currentRound r;
     roundStartTime := roundStartTime r; roundTimer := roundTimer r;
     roundAnswered := roundAnswered r; createdAt := createdAt r |}.

Definition with_currentRound (v : Z) (r : room) : room :=
  {| room_id := room_id r; hostId := hostId r; hostSocketId := hostSocketId r;
     images := images r; players := players r; settings := settings r;
     state := state r; currentRound := v;
     roundStartTime := roundStartTime r; roundTimer := roundTimer r;
     roundAnswered := roundAnswered r; createdAt := createdAt r |}.

Definition with_roundStartTime (v : option Z) (r : room) : room :=
  {| room_id := room_id r; hostId := hostId r; hostSocketId := hostSocketId r;
     images := images r; players := players r; settings := settings r;
     state := state r; currentRound := currentRound r;
     roundStartTime := v; roundTimer := roundTimer r;
     roundAnswered := roundAnswered r; createdAt := createdAt r |}.

Definition with_roundTimer (v : option nat) (r : room) : room :=
  {| room_id := room_id r; hostId := hostId r; hostSocketId := hostSocketId r;
     images := images r; players := players r; settings := settings r;
     state := state r; currentRound := currentRound r;
     roundStartTime := roundStartTime r; roundTimer := v;
     roundAnswered := roundAnswered r; createdAt := createdAt r |}.

Definition with_roundAnswered (v : gset string) (r : room) : room :=
  {| room_id := room_id r; hostId := hostId r; hostSocketId := hostSocketId r;
     images := images r; players := players r; settings := settings r;
     state := state r; currentRound := currentRound r;
     roundStartTime := roundStartTime r; roundTimer := roundTimer r;
     roundAnswered := v; createdAt := createdAt r |}.

(** [room.images[i]], [undefined] out of range. *)
Definition image_at (imgs : list image) (i : Z) : option image :=
  if i <? 0 then None else imgs !! Z.to_nat i.

(** ** Events emitted by the engine *)

Record player_info := {
  info_id : string;
  info_name : string;
  info_score : float;
  info_streak : nat;
  correctAnswers : nat
}.

Inductive matchType := exact | close | partial.

Inductive hint_type := first_letter | word_count.

(** The payloads keep the fields that carry game state; image data and
    message texts are left out. *)
Inductive event :=
| error_msg (message : string)
| room_joined (isHost : bool) (st : option room_state) (s : room_settings)
              (ps : list player_info)
| player_update (ps : list player_info)
| game_started (total : Z) (rt : Z) (playerCount : nat)
| round_start (rnd total : Z) (timeRemaining totalTime : Z)
| hint (ty : hint_type)
| guess_result_alreadyAnswered
| guess_result_correct (pts totalScore : float) (position : nat)
                       (stk : nat) (timeTaken : Z) (mt : matchType)
                       (quality : float)
| guess_result_wrong (guess : string)
| leaderboard_update (ps : list player_info) (answeredCount totalPlayers : nat)
| round_end (rnd total : Z) (correctAnswer : string) (ps : list player_info)
            (answeredCount totalPlayers : nat)
| game_over (ps : list player_info) (winner : option player_info) (total : Z)
| host_disconnected.

Inductive emit :=
| to_socket (sid : string) (e : event)     (* socket.emit *)
| to_room (rid : string) (e : event).      (* io.to(rid).emit *)

(** [Array.prototype.sort((a, b) => b.score - a.score)]: a stable sort, by
    insertion; a comparator result of NaN counts as zero. *)
Fixpoint insert_by_score (x : player_info) (l : list player_info)
  : list player_info :=
  match l with
  | [] => [x]
  | y :: l' =>
      if (0 <? info_score y - info_score x)%float
      then y :: insert_by_score x l'
      else x :: l
  end.

Definition sort_by_score (l : list player_info) : list player_info :=
  foldr insert_by_score [] l.

Definition info_of (p : player) : player_info :=
  {| info_id := player_id p; info_name := player_name p;
     info_score := score p; info_streak := streak p;
     correctAnswers := length (List.filter (fun a => correct a) (answers p)) |}.

Definition getPlayerList (room : room) : list player_info :=
  sort_by_score (map info_of (Map_values (players room))).

(** ** The server: registry, sockets and timers *)

(** The fields the handlers keep on a socket; [connected] is cleared when
    the connection closes, and an identifier is never used again. *)
Record socket := {
  sock_roomId : option string;
  isHost : bool;
  connected : bool
}.

(** The closures given to [setTimeout] and [setInterval]. *)
Inductive callback :=
| cb_startRound (rid : string)
    (* () => startRound(room) *)
| cb_endRound (rid : string) (hintInterval : nat)
    (* () => { clearInterval(hintInterval); endRound(room); } *)
| cb_hint (rid : string) (firstLetter wordCount : bool).
    (* the interval callback of [startRound], with its [hintSent] flags *)

Record timer := { handle : nat; due : Z; action : callback }.

(** [store] holds the room objects and [rooms] the keys of the [Map]
    [rooms]: a room deleted from the registry stays reachable from the
    closures of its timers. *)
Record server := {
  store : gmap string room;
  rooms : gset string;
  sockets : gmap string socket;
  timers : list timer;
  next_handle : nat;
  clock : Z
}.

Definition with_store (v : gmap string room) (s : server) : server :=
  {| store := v; rooms := rooms s; sockets := sockets s;
     timers := timers s; next_handle := next_handle s; clock := clock s |}.

Definition with_rooms (v : gset string) (s : server) : server :=
  {| store := store s; rooms := v; sockets := sockets s;
     timers := timers s; next_handle := next_handle s; clock := clock s |}.

Definition with_sockets (v : gmap string socket) (s : server) : server :=
  {| store := store s; rooms := rooms s; sockets := v;
     timers := timers s; next_handle := next_handle s; clock := clock s |}.

Definition with_timers (v : list timer) (s : server) : server :=
  {| store := store s; rooms := rooms s; sockets := sockets s;
     timers := v; next_handle := next_handle s; clock := clock s |}.

Definition with_clock (v : Z) (s : server) : server :=
  {| store := store s; rooms := rooms s; sockets := sockets s;
     timers := timers s; next_handle := next_handle s; clock := v |}.

Definition init_server : server :=
  {| store := ∅; rooms := ∅; sockets := ∅; timers := [];
     next_handle := 0%nat; clock := 0 |}.

(** [rooms.get(rid)] *)
Definition rooms_get (srv : server) (rid : string) : option room :=
  if decide (rid ∈ rooms srv) then store srv !! rid else None.

Definition put_room (rid : string) (r : room) (srv : server) : server :=
  with_store (<[rid := r]> (store srv)) srv.

(** The delay a timer is given: one below 1 ms or above [2^31 - 1] ms is
    set to 1 ms. *)
Definition timer_delay (delay : Z) : Z :=
  if (delay <? 1) || (2147483647 <? delay) then 1 else delay.

#[global] Arguments timer_delay : simpl never.

(** [setTimeout(cb, delay)] / [setInterval(cb, delay)]: the new handle. *)
Definition set_timer (cb : callback) (delay now : Z) (srv : server)
  : server * nat :=
  let h := next_handle srv in
  ({| store := store srv; rooms := rooms srv; sockets := sockets srv;
      timers := timers srv ++ [{| handle := h; due := now + timer_delay delay;
                                  action := cb |}];
      next_handle := S h; clock := clock srv |}, h).

(** [clearTimeout(h)] / [clearInterval(h)] *)
Definition clear_timer (h : nat) (srv : server) : server :=
  with_timers (List.filter (fun t => negb (handle t =? h)%nat) (timers srv)) srv.

Definition set_socket (sid : string) (rid : string) (host : bool)
    (srv : server) : server :=
  with_sockets (<[sid := {| sock_roomId := Some rid; isHost := host;
                            connected := true |}]> (sockets srv)) srv.

(** ** REST endpoints *)

(** [createRoom(hostId)], with the identifier [uuidv4] returned. *)
Definition createRoom (roomId hostId : string) (now : Z) (srv : server)
  : server :=
  with_rooms ({[roomId]} ∪ rooms srv)
    (put_room roomId
       {| room_id := roomId; hostId := hostId; hostSocketId := None;
          images := []; players := [];
          settings := {| roundTime := 30; totalRounds := 5 |};
          state := setup; currentRound := 0; roundStartTime := None;
          roundTimer := None; roundAnswered := ∅; createdAt := now |}
       srv).

(** [POST /api/upload/:roomId]: a file is its data URL and name, with the
    answer sent for it (empty when there is none). *)
Definition api_upload (rid : string) (files : list (string * string * string))
    (srv : server) : server :=
  match rooms_get srv rid with
  | None => srv
  | Some room =>
      let new := map (fun f => {| data := f.1.1; img_name := f.1.2;
                                  answer := if String.eqb f.2 ""
                                            then "Unknown"%string else f.2 |})
                     files in
      put_room rid (with_images (images room ++ new) room) srv
  end.

(** [POST /api/settings/:roomId]: a field of the body is [None] when it is
    absent or falsy, and otherwise the integer [parseInt] makes of it.
    The fields that are sent are numerals: a field of which [parseInt]
    makes NaN is not modelled. *)
Definition api_settings (rid : string) (rt tr : option Z) (srv : server)
  : server :=
  match rooms_get srv rid with
  | None => srv
  | Some room =>
      let s := settings room in
      let s1 := match rt with
                | Some v => {| roundTime := v; totalRounds := totalRounds s |}
                | None => s end in
      let s2 := match tr with
                | Some v => {| roundTime := roundTime s1; totalRounds := v |}
                | None => s1 end in
      put_room rid (with_settings s2 room) srv
  end.

(** [DELETE /api/image/:roomId/:index] *)
Definition api_delete_image (rid : string) (index : Z) (srv : server)
  : server :=
  match rooms_get srv rid with
  | None => srv
  | Some room =>
      if (0 <=? index) && (index <? Z.of_nat (length (images room)))
      then put_room rid (with_images (delete (Z.to_nat index) (images room))
                                     room) srv
      else srv
  end.

(** The periodic clean-up: rooms older than three hours. *)
Definition expired (now : Z) (srv : server) (rid : string) : bool :=
  match store srv !! rid with
  | Some room => 3 * 60 * 60 * 1000 <? now - createdAt room
  | None => false
  end.

Definition sweep (now : Z) (srv : server) : server :=
  let old := List.filter (fun rid => expired now srv rid) (elements (rooms srv)) in
  let cleared :=
    foldr (fun rid s =>
             match store srv !! rid with
             | Some room =>
                 match roundTimer room with
                 | Some h => clear_timer h s
                 | None => s
                 end
             | None => s
             end) srv old in
  with_rooms (rooms srv ∖ list_to_set old) cleared.

(** ** Game logic *)

Definition totalTime_of (room : room) : Z := roundTime (settings room) * 1000.

(** [Date.now() - room.roundStartTime]; [null] counts as 0. *)
Definition elapsed_of (room : room) (now : Z) : Z :=
  now - default 0 (roundStartTime room).

(** [getHint]: the hints whose threshold has elapsed. *)
Definition getHint (elapsed totalTime : Z) : list hint_type :=
  (if num_ge (num_of_Z elapsed) (num_of_Z totalTime * 0.5)
   then [first_letter] else [])
  ++ (if num_ge (num_of_Z elapsed) (num_of_Z totalTime * 0.75)
      then [word_count] else []).

(** [endGame(room)] *)
Definition endGame (rid : string) (srv : server)
  : option (server * list emit) :=
  match store srv !! rid with
  | None => None
  | Some room =>
      let room1 := with_state finished room in
      let srv1 := put_room rid room1 srv in
      let srv2 := match roundTimer room1 with
                  | Some h => clear_timer h srv1
                  | None => srv1
                  end in
      let ps := sort_by_score (getPlayerList room1) in
      Some (srv2, [to_room (room_id room1)
                     (game_over ps (head ps) (totalRounds (settings room1)))])
  end.

(** [startRound(room)] *)
Definition startRound (rid : string) (now : Z) (srv : server)
  : option (server * list emit) :=
  match store srv !! rid with
  | None => None
  | Some room =>
      let room1 := with_currentRound (currentRound room + 1) room in
      if totalRounds (settings room1) <? currentRound room1
      then endGame rid (put_room rid room1 srv)
      else
        let room2 :=
          with_roundAnswered ∅
            (with_roundStartTime (Some now) (with_state playing room1)) in
        match image_at (images room2) (currentRound room2 - 1) with
        | None => None        (* currentImage.data of undefined *)
        | Some currentImage =>
            let out := [to_room (room_id room2)
                          (round_start (currentRound room2)
                             (totalRounds (settings room2))
                             (totalTime_of room2) (totalTime_of room2))] in
            let '(srv1, hintInterval) :=
              set_timer (cb_hint rid false false) 1000 now
                        (put_room rid room2 srv) in
            let '(srv2, h) :=
              set_timer (cb_endRound rid hintInterval) (totalTime_of room2)
                        now srv1 in
            Some (put_room rid (with_roundTimer (Some h) room2) srv2, out)
        end
  end.

(** The loop of [endRound] over [room.players]. *)
Definition mark_unanswered (room : room) (kv : string * player)
  : string * player :=
  let '(socketId, player) := kv in
  if decide (socketId ∈ roundAnswered room) then kv
  else (socketId,
        {| player_id := player_id player; player_name := player_name player;
           score := score player;
           answers := answers player
                      ++ [{| round := currentRound room; correct := false;
                             points := 0; time := None;
                             matchQuality := None |}];
           streak := 0 |}).

(** [endRound(room)] *)
Definition endRound (rid : string) (now : Z) (srv : server)
  : option (server * list emit) :=
  match store srv !! rid with
  | None => None
  | Some room =>
      let room1 := with_state roundResult room in
      let room2 := with_players (map (mark_unanswered room1) (players room1))
                                room1 in
      match image_at (images room2) (currentRound room2 - 1) with
      | None => None          (* currentImage.answer of undefined *)
      | Some currentImage =>
          let out := [to_room (room_id room2)
                        (round_end (currentRound room2)
                           (totalRounds (settings room2))
                           (answer currentImage) (getPlayerList room2)
                           (size (roundAnswered room2))
                           (length (players room2)))] in
          let '(srv1, h) :=
            set_timer (cb_startRound rid) 5000 now (put_room rid room2 srv) in
          Some (put_room rid (with_roundTimer (Some h) room2) srv1, out)
      end
  end.

(** One run of the interval callback of [startRound], whose handle is
    [self]; the image it shows is the one of the round it was started in,
    and only the type of a hint is kept. *)
Definition hint_tick (self : nat) (rid : string) (firstLetter wordCount : bool)
    (now : Z) (srv : server) : option (server * list emit) :=
  match store srv !! rid with
  | None => None
  | Some room =>
      if negb (bool_decide (state room = playing))
      then Some (clear_timer self srv, [])
      else
        let elapsed := num_of_Z (elapsed_of room now) in
        let totalTime :=
          (num_of_Z (roundTime (settings room)) * 1000)%float in
        let fire1 := num_ge elapsed (totalTime * 0.5) && negb firstLetter in
        let fire2 := num_ge elapsed (totalTime * 0.75) && negb wordCount in
        let out := (if fire1 then [to_room (room_id room) (hint first_letter)]
                    else [])
                   ++ (if fire2
                       then [to_room (room_id room) (hint word_count)]
                       else []) in
        if fire2 then Some (clear_timer self srv, out)
        else
          Some (with_timers
                  (map (fun t =>
                          if (handle t =? self)%nat
                          then {| handle := self; due := due t + 1000;
                                  action := cb_hint rid
                                              (firstLetter || fire1)
                                              wordCount |}
                          else t) (timers srv)) srv, out)
  end.

(** The timer [h] fires: a time-out leaves the table before its callback
    runs, an interval stays armed. *)
Definition fire (h : nat) (now : Z) (srv : server)
  : option (server * list emit) :=
  match List.find (fun t => (handle t =? h)%nat) (timers srv) with
  | None => Some (srv, [])
  | Some t =>
      match action t with
      | cb_startRound rid => startRound rid now (clear_timer h srv)
      | cb_endRound rid hintInterval =>
          endRound rid now (clear_timer hintInterval (clear_timer h srv))
      | cb_hint rid firstLetter wordCount =>
          hint_tick h rid firstLetter wordCount now srv
      end
  end.

(** ** Socket handlers *)

Definition on_connection (sid : string) (srv : server) : server :=
  with_sockets (<[sid := {| sock_roomId := None; isHost := false;
                            connected := true |}]> (sockets srv)) srv.

(** [socket.on('host-join', ...)] *)
Definition on_host_join (sid roomId hostId' : string) (srv : server)
  : server * list emit :=
  match rooms_get srv roomId with
  | Some room =>
      if String.eqb (hostId room) hostId' then
        let room1 := with_state lobby (with_hostSocketId (Some sid) room) in
        (set_socket sid roomId true (put_room roomId room1 srv),
         [to_socket sid (room_joined true None (settings room1)
                                     (getPlayerList room1))])
      else (srv, [to_socket sid (error_msg "Invalid room or host ID")])
  | None => (srv, [to_socket sid (error_msg "Invalid room or host ID")])
  end.

Definition new_player (sid playerName : string) : player :=
  {| player_id := sid;
     player_name := string_of_list_ascii (take 20 (trim (js playerName)));
     score := 0; answers := []; streak := 0 |}.

(** [socket.on('player-join', ...)] *)
Definition on_player_join (sid roomId playerName : string) (now : Z)
    (srv : server) : option (server * list emit) :=
  match rooms_get srv roomId with
  | None => Some (srv, [to_socket sid (error_msg "Room not found")])
  | Some room =>
      if bool_decide (state room = finished)
      then Some (srv, [to_socket sid
                         (error_msg "This game has already ended")])
      else if bool_decide (state room = setup)
      then Some (srv, [to_socket sid
                         (error_msg "Room is still being set up. Wait for the host to share the link.")])
      else
        let player := new_player sid playerName in
        let room1 := with_players (Map_set sid player (players room)) room in
        let srv1 := set_socket sid roomId false (put_room roomId room1 srv) in
        let out := [to_socket sid (room_joined false (Some (state room1))
                                               (settings room1)
                                               (getPlayerList room1));
                    to_room roomId (player_update (getPlayerList room1))] in
        if bool_decide (state room1 = playing) then
          let elapsed := elapsed_of room1 now in
          let remaining := Z.max 0 (totalTime_of room1 - elapsed) in
          match image_at (images room1) (currentRound room1 - 1) with
          | None => None      (* room.images[...].data of undefined *)
          | Some _ =>
              Some (srv1,
                    out ++ [to_socket sid
                              (round_start (currentRound room1)
                                 (totalRounds (settings room1))
                                 remaining (totalTime_of room1))])
          end
        else Some (srv1, out)
  end.

Definition reset_player (p : player) : player :=
  {| player_id := player_id p; player_name := player_name p;
     score := 0; answers := []; streak := 0 |}.

Definition socket_isHost (srv : server) (sid : string) : bool :=
  match sockets srv !! sid with
  | Some s => isHost s
  | None => false
  end.

(** [socket.on('start-game', ...)] *)
Definition on_start_game (sid roomId : string) (now : Z) (srv : server)
  : server * list emit :=
  match rooms_get srv roomId with
  | None => (srv, [])
  | Some room =>
      if negb (socket_isHost srv sid) then (srv, [])
      else if (length (images room) =? 0)%nat
      then (srv, [to_socket sid
                    (error_msg "No images uploaded! Add some images first.")])
      else
        let s := settings room in
        let s1 := {| roundTime := roundTime s;
                     totalRounds := Z.min (totalRounds s)
                                          (Z.of_nat (length (images room))) |} in
        let room1 :=
          with_players (map (fun kv => (kv.1, reset_player kv.2))
                            (players room))
            (with_state playing (with_currentRound 0
               (with_settings s1 room))) in
        let out := [to_room roomId
                      (game_started (totalRounds (settings room1))
                                    (roundTime (settings room1))
                                    (length (players room1)))] in
        (fst (set_timer (cb_startRound roomId) 2000 now
                        (put_room roomId room1 srv)), out)
  end.

(** The scoring of [submit-guess], for a guess of quality [q > 0]. *)
Definition basePoints_of (elapsed : Z) (totalTime : float) : float :=
  let timeRatio := (num_of_Z elapsed / totalTime)%float in
  let basePoints := Math_round (1000 - timeRatio * 900) in
  Math_max 100 (Math_min 1000 basePoints).

Definition matchType_of (q : float) : matchType :=
  if (q <? 1.0)%float && num_ge q 0.7 then close
  else if (q <? 0.7)%float then partial
  else exact.

Definition streak_after (q : float) (stk : nat) : nat :=
  if num_ge q 0.7 then S stk else stk.

Definition points_of (q : float) (elapsed : Z) (totalTime : float)
    (stk : nat) (answered : nat) : float :=
  let basePoints := basePoints_of elapsed totalTime in
  let points := Math_round (basePoints * q) in
  let stk1 := streak_after q stk in
  let points :=
    if num_ge q 0.7 then
      if (3 <=? stk1)%nat then (points + 200)%float
      else if (2 <=? stk1)%nat then (points + 100)%float
      else points
    else points in
  let position := (answered + 1)%nat in
  if num_ge q 0.7 then
    if (position =? 1)%nat then (points + 300)%float
    else if (position =? 2)%nat then (points + 150)%float
    else if (position =? 3)%nat then (points + 50)%float
    else points
  else points.

(** [socket.on('submit-guess', ...)] *)
Definition on_submit_guess (sid roomId guess : string) (now : Z)
    (srv : server) : option (server * list emit) :=
  match rooms_get srv roomId with
  | None => Some (srv, [])
  | Some room =>
      if negb (bool_decide (state room = playing)) then Some (srv, [])
      else
        match Map_get sid (players room) with
        | None => Some (srv, [])
        | Some player =>
            if bool_decide (sid ∈ roundAnswered room)
            then Some (srv, [to_socket sid guess_result_alreadyAnswered])
            else
              match image_at (images room) (currentRound room - 1) with
              | None => None    (* currentImage.answer of undefined *)
              | Some currentImage =>
                  let q := checkAnswer guess (answer currentImage) in
                  let elapsed := elapsed_of room now in
                  let totalTime :=
                    (num_of_Z (roundTime (settings room)) * 1000)%float in
                  if num_gt q 0 then
                    let pts := points_of q elapsed totalTime (streak player)
                                 (size (roundAnswered room)) in
                    let position := (size (roundAnswered room) + 1)%nat in
                    let player1 :=
                      {| player_id := player_id player;
                         player_name := player_name player;
                         score := (score player + pts)%float;
                         answers := answers player
                                    ++ [{| round := currentRound room;
                                           correct := true; points := pts;
                                           time := Some elapsed;
                                           matchQuality := Some q |}];
                         streak := streak_after q (streak player) |} in
                    let room1 :=
                      with_roundAnswered ({[sid]} ∪ roundAnswered room)
                        (with_players (Map_set sid player1 (players room))
                                      room) in
                    Some (put_room roomId room1 srv,
                          [to_socket sid
                             (guess_result_correct pts (score player1)
                                position (streak player1) elapsed
                                (matchType_of q) (Math_round (q * 100)));
                           to_room roomId
                             (leaderboard_update (getPlayerList room1)
                                (size (roundAnswered room1))
                                (length (players room1)))])
                  else Some (srv, [to_socket sid (guess_result_wrong guess)])
              end
        end
  end.

(** [socket.on('disconnect', ...)] *)
Definition on_disconnect (sid : string) (srv : server)
  : server * list emit :=
  match sockets srv !! sid with
  | None => (srv, [])
  | Some s =>
      let srv0 :=
        with_sockets (<[sid := {| sock_roomId := sock_roomId s;
                                  isHost := isHost s;
                                  connected := false |}]> (sockets srv)) srv in
      match sock_roomId s with
      | None => (srv0, [])
      | Some rid =>
          match rooms_get srv rid with
          | None => (srv0, [])
          | Some room =>
              if isHost s then (srv0, [to_room rid host_disconnected])
              else
                let room1 :=
                  with_players (Map_delete sid (players room)) room in
                (put_room rid room1 srv0,
                 match Map_get sid (players room) with
                 | Some _ => [to_room rid (player_update (getPlayerList room1))]
                 | None => []
                 end)
          end
      end
  end.

(** ** Runs of the server *)

Inductive input :=
| Connect (sid : string)
| CreateRoom (roomId hostId : string)
| Upload (rid : string) (files : list (string * string * string))
| Settings (rid : string) (rt tr : option Z)
| DeleteImage (rid : string) (index : Z)
| HostJoin (sid roomId hostId : string)
| PlayerJoin (sid roomId playerName : string)
| StartGame (sid roomId : string)
| SubmitGuess (sid roomId guess : string)
| Disconnect (sid : string)
| Fire (h : nat)
| Sweep.

(** The server handles [i] at time [now]. *)
Definition step (now : Z) (i : input) (srv : server)
  : option (server * list emit) :=
  let srv := with_clock now srv in
  match i with
  | Connect sid => Some (on_connection sid srv, [])
  | CreateRoom roomId hostId => Some (createRoom roomId hostId now srv, [])
  | Upload rid files => Some (api_upload rid files srv, [])
  | Settings rid rt tr => Some (api_settings rid rt tr srv, [])
  | DeleteImage rid index => Some (api_delete_image rid index srv, [])
  | HostJoin sid roomId hostId => Some (on_host_join sid roomId hostId srv)
  | PlayerJoin sid roomId playerName =>
      on_player_join sid roomId playerName now srv
  | StartGame sid roomId => Some (on_start_game sid roomId now srv)
  | SubmitGuess sid roomId guess => on_submit_guess sid roomId guess now srv
  | Disconnect sid => Some (on_disconnect sid srv)
  | Fire h => fire h now srv
  | Sweep => Some (sweep now srv, [])
  end.

Definition socket_connected (srv : server) (sid : string) : bool :=
  match sockets srv !! sid with
  | Some s => connected s
  | None => false
  end.

(** What the environment can do: time does not go back, identifiers of
    rooms and of connections are fresh, only an open connection sends
    events, and only a pending timer that is due fires. *)
Definition admissible (now : Z) (i : input) (srv : server) : bool :=
  (clock srv <=? now)
  && match i with
     | Connect sid => bool_decide (sockets srv !! sid = None)
     | CreateRoom roomId _ => bool_decide (store srv !! roomId = None)
     | HostJoin sid _ _ | PlayerJoin sid _ _ | StartGame sid _
     | SubmitGuess sid _ _ | Disconnect sid => socket_connected srv sid
     | Fire h =>
         existsb (fun t => (handle t =? h)%nat && (due t <=? now)) (timers srv)
     | Upload _ _ | Settings _ _ _ | DeleteImage _ _ | Sweep => true
     end.

Fixpoint run (trace : list (Z * input)) (srv : server)
  : option (server * list emit) :=
  match trace with
  | [] => Some (srv, [])
  | (now, i) :: rest =>
      if admissible now i srv then
        match step now i srv with
        | Some (srv1, out1) =>
            match run rest srv1 with
            | Some (srv2, out2) => Some (srv2, out1 ++ out2)
            | None => None
            end
        | None => None
        end
      else None
  end.

Inductive reachable : server → Prop :=
| reachable_init : reachable init_server
| reachable_step srv now i srv' out :
    reachable srv →
    admissible now i srv = true →
    step now i srv = Some (srv', out) →
    reachable srv'.

(** ** Reference definitions, from the specification *)

(** Edit scripts with unit costs: [edit a b n] when [a] becomes [b] by [n]
    insertions, deletions and substitutions of one character. *)
Inductive edit : jsstring → jsstring → nat → Prop :=
| edit_nil : edit [] [] 0
| edit_keep x a b n : edit a b n → edit (x :: a) (x :: b) n
| edit_subst x y a b n : edit a b n → edit (x :: a) (y :: b) (S n)
| edit_delete x a b n : edit a b n → edit (x :: a) b (S n)
| edit_insert y a b n : edit a b n → edit a (y :: b) (S n).

(** The recurrence of the Levenshtein distance. *)
Fixpoint lev (a : jsstring) : jsstring → nat :=
  fix lev_a (b : jsstring) : nat :=
    match a, b with
    | [], _ => length b
    | _, [] => length a
    | x :: a', y :: b' =>
        if bool_decide (x = y) then lev a' b'
        else S (min3 (lev a' b) (lev_a b') (lev a' b'))
    end.

(** Section 4.1: edit-distance ratio, distance over the longer length. *)
Definition ratio_spec (s t : jsstring) : float :=
  (num_of_nat (lev s t) / num_of_nat (Nat.max (length s) (length t)))%float.

(** Section 4.1, rule 6: the key words of the answer, the tokens of the
    guess, and the share of key words that some token matches. *)
Definition keyWords_spec (c : jsstring) : list jsstring :=
  List.filter (fun w => negb (includes_word stopWords w)
                        && negb (length w <=? 2)%nat) (split_space c).

Definition tokens_spec (g : jsstring) : list jsstring :=
  List.filter (fun w => negb (length w <=? 2)%nat) (split_space g).

Definition wordRatio_spec (g c : jsstring) : float :=
  let keys := keyWords_spec c in
  match keys with
  | [] => 0%float
  | _ =>
      let matched :=
        List.filter (fun k => existsb (fun t => (ratio_spec t k <=? 0.3)%float)
                                      (tokens_spec g)) keys in
      (num_of_nat (length matched) / num_of_nat (length keys))%float
  end.

(** Section 4.1: the ranked ladder over normalised texts, first matching
    rule wins.  With [guarded] the stop-word rule 5 applies only when both
    stripped texts are non-empty; the specification's rule is
    [guarded = false]. *)
Definition ladder (guarded : bool) (g c : jsstring) : float :=
  let len s := num_of_nat (length s) in
  (* 1 *) if bool_decide (g = c) then 1.0
  (* 2 *) else if includes g c then 1.0
  (* 3 *) else if includes c g && (len c * 0.7 <=? len g)%float then 0.9
  (* 4 *) else if (ratio_spec g c <=? 0.15)%float then 0.9
          else if (ratio_spec g c <=? 0.25)%float then 0.8
          else if (ratio_spec g c <=? 0.35)%float then 0.7
  else
    let gs := stripStop g in
    let cs := stripStop c in
    let rule5 := negb guarded || (nonempty gs && nonempty cs) in
  (* 5 *) if rule5 && bool_decide (gs = cs) then 0.95
          else if rule5 && (ratio_spec gs cs <=? 0.2)%float then 0.85
          else if rule5 && (ratio_spec gs cs <=? 0.35)%float then 0.7
  (* 6 *) else if (1.0 <=? wordRatio_spec g c)%float then 0.85
          else if (0.6 <=? wordRatio_spec g c)%float then 0.6
          else if (0.4 <=? wordRatio_spec g c)%float then 0.4
  (* 7 *) else if includes c g && (len c * 0.4 <=? len g)%float then 0.4
  else
    let gv := stripVowels g in
    let cv := stripVowels c in
  (* 8 *) if (3 <=? length gv)%nat && (3 <=? length cv)%nat
             && (ratio_spec gv cv <=? 0.2)%float then 0.65
  (* 9 *) else 0.

(** Section 4.1: [matchQuality], the ladder over the normalised inputs,
    and 0 for an empty guess or answer. *)
Definition matchQuality_spec (guarded : bool) (guess answer : string)
  : float :=
  let g := normalize (js guess) in
  let c := normalize (js answer) in
  match g, c with
  | [], _ | _, [] => 0%float
  | _, _ => ladder guarded g c
  end.




(** ** Notions used in the proofs *)

(** The distance between the first [i] and the first [j] characters. *)
Definition prefix_lev (a b : jsstring) (i j : nat) : nat :=
  lev (take i a) (take j b).

(** The table has [la + 1] rows of [lb + 1] cells. *)
Definition table_dims (dp : list (list nat)) (la lb : nat) : Prop :=
  length dp = S la ∧ ∀ i, (i ≤ la)%nat → length (nth i dp []) = S lb.

(** The values a match quality can take. *)
Definition qualities : list float :=
  [0; 0.4; 0.6; 0.65; 0.7; 0.8; 0.85; 0.9; 0.95; 1]%float.

(** The characters of a normalised text, and texts without two spaces in
    a row. *)
Definition in_alphabet (c : ascii) : bool :=
  is_lower c || is_digit c || Ascii.eqb c " ".

Fixpoint single_spaced (s : jsstring) : bool :=
  match s with
  | c :: (d :: _) as s' =>
      negb (Ascii.eqb c " " && Ascii.eqb d " ") && single_spaced s'
  | _ => true
  end.

(** ** Scenarios *)

(** The server after a run from the initial state, and what was emitted. *)
Definition after (trace : list (Z * input)) : server :=
  match run trace init_server with
  | Some (srv, _) => srv
  | None => init_server
  end.

Definition emitted (trace : list (Z * input)) : list emit :=
  match run trace init_server with
  | Some (_, out) => out
  | None => []
  end.

Definition blank_room : room :=
  {| room_id := ""; hostId := ""; hostSocketId := None; images := [];
     players := []; settings := {| roundTime := 30; totalRounds := 5 |};
     state := setup; currentRound := 0; roundStartTime := None;
     roundTimer := None; roundAnswered := ∅; createdAt := 0 |}.

(** The room [rid] of a server and the player [sid] of a room, for the
    scenarios below. *)
Definition room_at (srv : server) (rid : string) : room :=
  default blank_room (store srv !! rid).

Definition player_at (r : room) (sid : string) : player :=
  default (new_player sid "") (Map_get sid (players r)).

Definition lobby_trace : list (Z * input) :=
  [ (0, CreateRoom "r1" "h1");
    (1, Upload "r1" [("data:1", "eiffel.jpg", "Eiffel Tower");
                     ("data:2", "taj.jpg", "Taj Mahal")]);
    (2, Connect "H"); (3, HostJoin "H" "r1" "h1");
    (4, Connect "P"); (5, PlayerJoin "P" "r1" "Alice");
    (6, Connect "Q"); (7, PlayerJoin "Q" "r1" "Bob") ]%string.

(** Round 1 has started at time 2010. *)
Definition round1_trace : list (Z * input) :=
  lobby_trace ++ [ (10, StartGame "H" "r1"); (2010, Fire 0%nat) ]%string.

(** P has answered at once. *)
Definition answered_trace : list (Z * input) :=
  round1_trace ++ [ (2010, SubmitGuess "P" "r1" "eiffel tower") ]%string.

(** The runs of the hint interval [h] of a round started at [t0]: one a
    second, until the second hint clears the interval. *)
Definition ticks (h : nat) (t0 : Z) (n : nat) : list (Z * input) :=
  map (λ k, (t0 + 1000 * Z.of_nat k, Fire h)) (seq 1 n).

(** Round 1 is over, P and Q have answered it, round 2 is running and P
    has made a partial guess ("taj" for "Taj Mahal"). *)
Definition partial_trace : list (Z * input) :=
  answered_trace
  ++ [ (3000, SubmitGuess "Q" "r1" "Eiffel Tower") ]%string
  ++ ticks 1 2010 23
  ++ [ (32010, Fire 2%nat);
       (37010, Fire 3%nat);
       (38000, SubmitGuess "P" "r1" "taj") ]%string.

(** Round 2 has ended. *)
Definition round2_ended_trace : list (Z * input) :=
  partial_trace ++ ticks 4 37010 23 ++ [ (67010, Fire 5%nat) ].

(** What [endRound] does to a player who is not in [roundAnswered]. *)
Definition unanswered (r : room) (p : player) : player :=
  {| player_id := player_id p; player_name := player_name p;
     score := score p;
     answers := answers p
                ++ [{| round := currentRound r; correct := false;
                       points := 0; time := None; matchQuality := None |}];
     streak := 0 |}.

(** Every room of [srv] is still stored in [srv'], with the same
    settings. *)
Definition settings_kept (srv srv' : server) : Prop :=
  ∀ rid room,
    store srv !! rid = Some room →
    ∃ room', store srv' !! rid = Some room' ∧ settings room' = settings room.

(** The settings endpoint is called while round 1 is running. *)
Definition settings_trace : list (Z * input) :=
  round1_trace ++ [ (3000, Settings "r1" (Some 10) (Some 1)) ]%string.

(** The game of two rounds is over. *)
Definition finished_trace : list (Z * input) :=
  round2_ended_trace ++ [ (72010, Fire 6%nat) ].

(** The handles of the pending timers are below the next one to be
    given out. *)
Definition timers_fresh (srv : server) : Prop :=
  Forall (λ t, (handle t < next_handle srv)%nat) (timers srv).

Definition is_game_over (e : emit) : bool :=
  match e with
  | to_room _ (game_over _ _ _) => true
  | _ => false
  end.

(** A room with a single image and the default settings (5 rounds of 30
    seconds), its host and one player. *)
Definition single_lobby_trace : list (Z * input) :=
  [ (0, CreateRoom "r1" "h1");
    (1, Upload "r1" [("data:1", "eiffel.jpg", "Eiffel Tower")]);
    (2, Connect "H"); (3, HostJoin "H" "r1" "h1");
    (4, Connect "P"); (5, PlayerJoin "P" "r1" "Alice") ]%string.

(** The game is started, its single round runs and is closed by its
    timer after 30 seconds. *)
Definition single_round_closed_trace : list (Z * input) :=
  single_lobby_trace
  ++ [ (10, StartGame "H" "r1"); (2010, Fire 0%nat) ]%string
  ++ ticks 1 2010 23
  ++ [ (32010, Fire 2%nat) ].

(** Five seconds later the timer set by [endRound] fires. *)
Definition single_game_trace : list (Z * input) :=
  single_round_closed_trace ++ [ (37010, Fire 3%nat) ].

(** ** Invariants of the rooms *)

(** The connection [sid] was opened and has closed. *)
Definition socket_closed (srv : server) (sid : string) : Prop :=
  ∃ s, sockets srv !! sid = Some s ∧ connected s = false.

(** The rounds for which a player has a scored ([correct: true]) entry. *)
Definition scored_rounds (p : player) : list Z :=
  map round (List.filter correct (answers p)).

(** The invariant of a room, over [roundAnswered], [players] and
    [currentRound]: an answered identifier is a registered player or a
    closed connection; the entries of a history are of rounds up to the
    current one; who has a scored entry for the current round is in
    [roundAnswered]; and no round is scored twice for a player. *)
Definition game_ok (closed : string → Prop) (answered : gset string)
    (ps : list (string * player)) (cr : Z) : Prop :=
  (∀ sid, sid ∈ answered → sid ∈ Map_keys ps ∨ closed sid)
  ∧ ∀ sid p, (sid, p) ∈ ps →
      (∀ e, e ∈ answers p → round e ≤ cr)
      ∧ (∀ e, e ∈ answers p → correct e = true → round e = cr →
              sid ∈ answered)
      ∧ NoDup (scored_rounds p).

Definition room_ok (srv : server) (r : room) : Prop :=
  game_ok (socket_closed srv) (roundAnswered r) (players r) (currentRound r).

Definition server_ok (srv : server) : Prop :=
  ∀ rid r, store srv !! rid = Some r → room_ok srv r.

(** The keys of [players] are distinct: the length of the association
    list is the size of the [Map]. *)
Definition keys_ok (srv : server) : Prop :=
  ∀ rid r, store srv !! rid = Some r → NoDup (Map_keys (players r)).

(** Two runs that the invariants have to allow for. *)

(** P answers round 1 and leaves the game. *)
Definition left_trace : list (Z * input) :=
  single_lobby_trace
  ++ [ (10, StartGame "H" "r1"); (2010, Fire 0%nat);
       (2500, SubmitGuess "P" "r1" "eiffel tower");
       (2600, Disconnect "P") ]%string.

(** The host sends [start-game] twice, 10 ms apart.  Both [startRound]
    timers fire: the first opens round 1, the second opens round 2 at
    once, and each leaves a hint interval (handles 2 and 4) and an
    [endRound] timer (handles 3 and 5).  Nobody answers, and both
    [endRound] timers fire while round 2 is the current one. *)
Definition double_start_trace : list (Z * input) :=
  lobby_trace
  ++ [ (10, StartGame "H" "r1"); (20, StartGame "H" "r1");
       (2010, Fire 0%nat); (2020, Fire 1%nat) ]%string
  ++ flat_map (λ k, [ (2010 + 1000 * Z.of_nat k, Fire 2%nat);
                      (2020 + 1000 * Z.of_nat k, Fire 4%nat) ]) (seq 1 23)
  ++ [ (32010, Fire 3%nat); (32020, Fire 5%nat) ].

(** A room is evicted, three hours and one millisecond after it was
    created. *)
Definition evicted_trace : list (Z * input) :=
  lobby_trace ++ [ (10800001, Sweep) ].

(** A third connection is open, that has joined no room yet. *)
Definition newcomer_trace : list (Z * input) :=
  lobby_trace ++ [ (8, Connect "R") ]%string.

(** A game on one image; while round 1 runs, the settings endpoint sets
    [totalRounds] to 3; the round is closed by its timer. *)
Definition raised_rounds_trace : list (Z * input) :=
  single_lobby_trace
  ++ [ (10, StartGame "H" "r1"); (2010, Fire 0%nat);
       (3000, Settings "r1" None (Some 3)) ]%string
  ++ ticks 1 2010 23
  ++ [ (32010, Fire 2%nat) ].

(** Every record of every room satisfies [P], which may look at the key
    the record is stored under. *)
Definition all_players (P : string → player → Prop) (srv : server) : Prop :=
  ∀ rid room sid p,
    store srv !! rid = Some room → (sid, p) ∈ players room → P sid p.

(** The points of the scored entries of a history, added up in the order
    of the entries. *)
Definition scored_total (p : player) : float :=
  fold_left (λ acc e, if correct e then (acc + points e)%float else acc)
            (answers p) 0%float.

(** What holds of every record: it is stored under its own identifier,
    its entries are of rounds from 1 on, and its streak is at most the
    number of its scored entries. *)
Definition record_ok (sid : string) (p : player) : Prop :=
  player_id p = sid
  ∧ (∀ e, e ∈ answers p → 1 ≤ round e)
  ∧ (streak p ≤ length (List.filter correct (answers p)))%nat.

(** The room a callback of a timer closes over. *)
Definition callback_room (cb : callback) : string :=
  match cb with
  | cb_startRound rid | cb_endRound rid _ | cb_hint rid _ _ => rid
  end.

(** The registry holds room objects only; a room is stored under its own
    identifier and its round is not negative; the room of every pending
    timer exists. *)
Definition server_wf (srv : server) : Prop :=
  (∀ rid, rid ∈ rooms srv → is_Some (store srv !! rid))
  ∧ (∀ rid room, store srv !! rid = Some room →
                 room_id room = rid ∧ 0 ≤ currentRound room)
  ∧ (∀ t, t ∈ timers srv → is_Some (store srv !! callback_room (action t))).

(** The host has started the game; the first round has not begun. *)
Definition started_trace : list (Z * input) :=
  lobby_trace ++ [ (10, StartGame "H" "r1") ]%string.

(** The timer [t] after a run of the interval [h] that leaves it armed
    with the callback [cb]: due a second later. *)
Definition rearmed (h : nat) (cb : callback) (t : timer) : timer :=
  if (handle t =? h)%nat
  then {| handle := h; due := due t + 1000; action := cb |}
  else t.

(** The first hint of round 1 is due: the interval has run every second
    since the round started at 2010. *)
Definition first_hint_trace : list (Z * input) :=
  round1_trace ++ ticks 1 2010 14.

(** A second room is being set up, with one image, while the host of the
    first room is connected. *)
Definition second_room_trace : list (Z * input) :=
  lobby_trace
  ++ [ (8, CreateRoom "r2" "h2");
       (9, Upload "r2" [("data:9", "bigben.jpg", "Big Ben")]) ]%string.

(* ================================================================== *)
(** * Part II. Properties *)
(* ================================================================== *)

(** ** The Levenshtein distance *)

Section Levenshtein.

Implicit Types a b : jsstring.
Implicit Types x y : ascii.

Lemma lev_nil_l b : lev [] b = length b.
Proof. by destruct b. Qed.

Lemma lev_nil_r a : lev a [] = length a.
Proof. by destruct a. Qed.

Lemma lev_cons x y a b :
  lev (x :: a) (y :: b) =
    if bool_decide (x = y) then lev a b
    else S (min3 (lev a (y :: b)) (lev (x :: a) b) (lev a b)).
Proof. reflexivity. Qed.

Lemma min3_le (p q r : nat) :
  (min3 p q r ≤ p ∧ min3 p q r ≤ q ∧ min3 p q r ≤ r)%nat.
Proof. unfold min3; lia. Qed.

Lemma min3_cases (p q r : nat) :
  min3 p q r = p ∨ min3 p q r = q ∨ min3 p q r = r.
Proof. unfold min3; lia. Qed.

(** The distance found by the recurrence is the cost of an edit script. *)
Lemma lev_edit a : ∀ b, edit a b (lev a b).
Proof.
  induction a as [|x a IHa]; intros b.
  - rewrite lev_nil_l.
    induction b as [|y b IHb]; simpl; [constructor|].
    by apply edit_insert.
  - induction b as [|y b IHb].
    + rewrite lev_nil_r. simpl. apply edit_delete.
      specialize (IHa []). by rewrite lev_nil_r in IHa.
    + rewrite lev_cons. case_bool_decide as Hxy.
      * subst y. apply edit_keep, IHa.
      * destruct (min3_cases (lev a (y :: b)) (lev (x :: a) b) (lev a b))
          as [-> | [-> | ->]].
        -- apply edit_delete, IHa.
        -- apply edit_insert, IHb.
        -- apply edit_subst, IHa.
Qed.

(** Adding a character to the second text moves the distance by at most
    one, in both directions. *)
Lemma lev_step_r_aux n :
  ∀ a b, (length a + length b < n)%nat →
    (∀ y, lev a (y :: b) ≤ S (lev a b))%nat
    ∧ (∀ x, lev a b ≤ S (lev (x :: a) b))%nat.
Proof.
  induction n as [|n IH]; intros a b Hn; [lia|].
  assert (H2 : ∀ y, (lev a (y :: b) ≤ S (lev a b))%nat).
  { intros y. destruct a as [|x a]; [rewrite !lev_nil_l; simpl; lia|].
    rewrite lev_cons. case_bool_decide.
    - simpl in Hn. apply (IH a b); lia.
    - pose proof (min3_le (lev a (y :: b)) (lev (x :: a) b) (lev a b)). lia. }
  split; [exact H2|].
  intros x. destruct b as [|y b].
  - rewrite !lev_nil_r. simpl. lia.
  - simpl in Hn. rewrite lev_cons. case_bool_decide.
    + subst y. apply (IH a b). lia.
    + destruct (IH a b ltac:(lia)) as [Ha Hb].
      specialize (Ha y). specialize (Hb x).
      destruct (min3_cases (lev a (y :: b)) (lev (x :: a) b) (lev a b))
        as [-> | [-> | ->]]; lia.
Qed.

(** The same for the first text. *)
Lemma lev_step_l_aux n :
  ∀ a b, (length a + length b < n)%nat →
    (∀ x, lev (x :: a) b ≤ S (lev a b))%nat
    ∧ (∀ y, lev a b ≤ S (lev a (y :: b)))%nat.
Proof.
  induction n as [|n IH]; intros a b Hn; [lia|].
  assert (H1 : ∀ x, (lev (x :: a) b ≤ S (lev a b))%nat).
  { intros x. destruct b as [|y b]; [rewrite !lev_nil_r; simpl; lia|].
    rewrite lev_cons. case_bool_decide.
    - simpl in Hn. apply (IH a b); lia.
    - pose proof (min3_le (lev a (y :: b)) (lev (x :: a) b) (lev a b)). lia. }
  split; [exact H1|].
  intros y. destruct a as [|x a].
  - rewrite !lev_nil_l. simpl. lia.
  - simpl in Hn. rewrite lev_cons. case_bool_decide.
    + subst y. apply (IH a b). lia.
    + destruct (IH a b ltac:(lia)) as [Ha Hb].
      specialize (Ha x). specialize (Hb y). specialize (H1 x).
      destruct (min3_cases (lev a (y :: b)) (lev (x :: a) b) (lev a b))
        as [-> | [-> | ->]]; lia.
Qed.

Lemma lev_insert_le a b y : (lev a (y :: b) ≤ S (lev a b))%nat.
Proof.
  destruct (lev_step_r_aux (S (length a + length b)) a b) as [H _]; [lia|].
  apply H.
Qed.

Lemma lev_delete_le a b x : (lev (x :: a) b ≤ S (lev a b))%nat.
Proof.
  destruct (lev_step_l_aux (S (length a + length b)) a b) as [H _]; [lia|].
  apply H.
Qed.

(** No edit script is cheaper than the distance of the recurrence. *)
Lemma lev_least a b n : edit a b n → (lev a b ≤ n)%nat.
Proof.
  induction 1 as [|x a b n _ IH|x y a b n _ IH|x a b n _ IH|y a b n _ IH].
  - simpl. lia.
  - rewrite lev_cons, bool_decide_eq_true_2 by done. exact IH.
  - rewrite lev_cons. case_bool_decide; [lia|].
    pose proof (min3_le (lev a (y :: b)) (lev (x :: a) b) (lev a b)). lia.
  - pose proof (lev_delete_le a b x). lia.
  - pose proof (lev_insert_le a b y). lia.
Qed.

(** Edit scripts may as well be read from the end of the texts. *)
Lemma edit_keep_end a b n x : edit a b n → edit (a ++ [x]) (b ++ [x]) n.
Proof.
  induction 1; simpl; try (by constructor).
  apply edit_keep, edit_nil.
Qed.

Lemma edit_subst_end a b n x y :
  edit a b n → edit (a ++ [x]) (b ++ [y]) (S n).
Proof.
  induction 1; simpl; try (by constructor).
  apply edit_subst, edit_nil.
Qed.

Lemma edit_delete_end a b n x : edit a b n → edit (a ++ [x]) b (S n).
Proof.
  induction 1; simpl; try (by constructor).
  apply edit_delete, edit_nil.
Qed.

Lemma edit_insert_end a b n y : edit a b n → edit a (b ++ [y]) (S n).
Proof.
  induction 1; simpl; try (by constructor).
  apply edit_insert, edit_nil.
Qed.

Lemma edit_rev a b n : edit a b n → edit (rev a) (rev b) n.
Proof.
  induction 1; simpl.
  - constructor.
  - by apply edit_keep_end.
  - by apply edit_subst_end.
  - by apply edit_delete_end.
  - by apply edit_insert_end.
Qed.

Lemma lev_rev a b : lev (rev a) (rev b) = lev a b.
Proof.
  apply Nat.le_antisymm.
  - apply lev_least, edit_rev, lev_edit.
  - apply lev_least.
    pose proof (edit_rev _ _ _ (lev_edit (rev a) (rev b))) as H.
    by rewrite !rev_involutive in H.
Qed.

End Levenshtein.

(** ** The table of [levenshtein] holds the distances of the prefixes *)

Section Table.

Implicit Types a b : jsstring.
Implicit Types dp : list (list nat).

Lemma lev_snoc a b x y :
  lev (a ++ [x]) (b ++ [y]) =
    if bool_decide (x = y) then lev a b
    else S (min3 (lev a (b ++ [y])) (lev (a ++ [x]) b) (lev a b)).
Proof.
  rewrite <- (lev_rev (a ++ [x]) (b ++ [y])), !rev_unit, lev_cons.
  rewrite <- (rev_unit b y), <- (rev_unit a x).
  by rewrite !lev_rev.
Qed.

Lemma prefix_lev_0_l a b j : (j ≤ length b)%nat → prefix_lev a b 0 j = j.
Proof.
  intros. unfold prefix_lev. rewrite take_0, lev_nil_l, length_take. lia.
Qed.

Lemma prefix_lev_0_r a b i : (i ≤ length a)%nat → prefix_lev a b i 0 = i.
Proof.
  intros. unfold prefix_lev. rewrite take_0, lev_nil_r, length_take. lia.
Qed.

Lemma prefix_lev_S a b i j :
  (i < length a)%nat → (j < length b)%nat →
  prefix_lev a b (S i) (S j) =
    if bool_decide (char_at a i = char_at b j) then prefix_lev a b i j
    else S (min3 (prefix_lev a b i (S j)) (prefix_lev a b (S i) j)
                 (prefix_lev a b i j)).
Proof.
  intros Hi Hj. unfold prefix_lev, char_at.
  destruct (lookup_lt_is_Some_2 a i Hi) as [x Hx].
  destruct (lookup_lt_is_Some_2 b j Hj) as [y Hy].
  rewrite (take_S_r a i x Hx), (take_S_r b j y Hy), lev_snoc, Hx, Hy.
  destruct (decide (x = y)) as [->|Hne].
  - by rewrite !bool_decide_eq_true_2.
  - rewrite !bool_decide_eq_false_2; [done|congruence|done].
Qed.

Lemma dp_get_set dp i j v i' j' :
  (i < length dp)%nat → (j < length (nth i dp []))%nat →
  dp_get (dp_set dp i j v) i' j' =
    if bool_decide (i' = i ∧ j' = j) then v else dp_get dp i' j'.
Proof.
  intros Hi Hj. unfold dp_get, dp_set.
  destruct (decide (i' = i)) as [->|Hne].
  - rewrite (nth_lookup _ i), list_lookup_insert_eq by done. simpl.
    destruct (decide (j' = j)) as [->|Hne'].
    + rewrite bool_decide_eq_true_2 by done.
      by rewrite nth_lookup, list_lookup_insert_eq.
    + rewrite bool_decide_eq_false_2 by tauto.
      by rewrite !(nth_lookup _ j'), list_lookup_insert_ne.
  - rewrite bool_decide_eq_false_2 by tauto.
    by rewrite !(nth_lookup _ i'), list_lookup_insert_ne.
Qed.

Lemma dp_set_dims dp la lb i j v :
  table_dims dp la lb → table_dims (dp_set dp i j v) la lb.
Proof.
  intros [Hlen Hrow]. unfold dp_set. split.
  - by rewrite length_insert.
  - intros r Hr. destruct (decide (r = i)) as [->|Hne].
    + rewrite nth_lookup, list_lookup_insert_eq by lia. simpl.
      rewrite length_insert. by apply Hrow.
    + rewrite nth_lookup, list_lookup_insert_ne by done.
      rewrite <- nth_lookup. by apply Hrow.
Qed.

Lemma dp_init_dims la lb : table_dims (dp_init la lb) la lb.
Proof.
  unfold dp_init. split.
  - by rewrite length_map, length_seq.
  - intros i Hi.
    rewrite nth_lookup, list_lookup_fmap, lookup_seq_lt by lia. simpl.
    by rewrite length_map, length_seq.
Qed.

Lemma dp_get_init la lb i j :
  (i ≤ la)%nat → (j ≤ lb)%nat →
  dp_get (dp_init la lb) i j =
    if (i =? 0)%nat then j else if (j =? 0)%nat then i else 0%nat.
Proof.
  intros Hi Hj. unfold dp_get, dp_init.
  rewrite (nth_lookup _ j), (nth_lookup _ i).
  rewrite list_lookup_fmap, lookup_seq_lt by lia.
  cbn [fmap option_fmap option_map default]. unfold id.
  rewrite list_lookup_fmap, lookup_seq_lt by lia. done.
Qed.

Lemma dp_row_steps a b i :
  (1 ≤ i ≤ length a)%nat →
  ∀ n s dp,
    (s + n = S (length b))%nat → (1 ≤ s)%nat →
    table_dims dp (length a) (length b) →
    (∀ r c, (r ≤ length a)%nat → (c ≤ length b)%nat →
            (r < i ∨ c = 0 ∨ (r = i ∧ c < s))%nat →
            dp_get dp r c = prefix_lev a b r c) →
    let dp' := fold_left (λ dp j, dp_set dp i j (dp_cell a b dp i j))
                         (seq s n) dp in
    table_dims dp' (length a) (length b)
    ∧ ∀ r c, (r ≤ length a)%nat → (c ≤ length b)%nat →
             (r < i ∨ c = 0 ∨ (r = i ∧ c < s + n))%nat →
             dp_get dp' r c = prefix_lev a b r c.
Proof.
  intros Hi. induction n as [|n IH]; intros s dp Hs Hs1 Hdims Hinv; simpl.
  - split; [done|]. intros r c Hr Hc Hrc. apply Hinv; [done..|lia].
  - destruct (IH (S s) (dp_set dp i s (dp_cell a b dp i s))) as [Hd Hv];
      [lia|lia|by apply dp_set_dims| |].
    + intros r c Hr Hc Hrc. destruct Hdims as [Hlen Hrow].
      rewrite dp_get_set by (rewrite ?Hrow; lia).
      case_bool_decide as Heq.
      * destruct Heq as [-> ->]. unfold dp_cell.
        rewrite !Hinv by lia. clear IH.
        destruct i as [|i']; [lia|]. destruct s as [|s']; [lia|].
        replace (S i' - 1)%nat with i' by lia.
        replace (S s' - 1)%nat with s' by lia.
        by rewrite prefix_lev_S by lia.
      * apply Hinv; [done..|lia].
    + split; [done|]. intros r c Hr Hc Hrc. apply Hv; [done..|lia].
Qed.

Lemma dp_fill_steps a b :
  ∀ n s dp,
    (s + n = S (length a))%nat → (1 ≤ s)%nat →
    table_dims dp (length a) (length b) →
    (∀ r c, (r ≤ length a)%nat → (c ≤ length b)%nat →
            (r < s ∨ c = 0)%nat → dp_get dp r c = prefix_lev a b r c) →
    let dp' := fold_left (dp_row a b) (seq s n) dp in
    ∀ r c, (r ≤ length a)%nat → (c ≤ length b)%nat →
           (r < s + n ∨ c = 0)%nat → dp_get dp' r c = prefix_lev a b r c.
Proof.
  induction n as [|n IH]; intros s dp Hs Hs1 Hdims Hinv; simpl.
  - intros r c Hr Hc Hrc. apply Hinv; [done..|lia].
  - destruct (dp_row_steps a b s ltac:(lia) (length b) 1%nat dp) as [Hd Hv];
      [lia|lia|done| |].
    + intros r c Hr Hc Hrc. apply Hinv; [done..|lia].
    + intros r c Hr Hc Hrc. apply (IH (S s)); [lia|lia|exact Hd| |done..|lia].
      intros r' c' Hr' Hc' Hrc'. apply Hv; [done..|lia].
Qed.

Lemma levenshtein_lev a b : levenshtein a b = lev a b.
Proof.
  unfold levenshtein, dp_fill.
  rewrite (dp_fill_steps a b (length a) 1%nat); try lia.
  - unfold prefix_lev. by rewrite !firstn_all.
  - apply dp_init_dims.
  - intros r c Hr Hc Hrc. rewrite dp_get_init by done.
    destruct r as [|r]; simpl.
    + by rewrite prefix_lev_0_l.
    + assert (c = 0%nat) as -> by lia. by rewrite prefix_lev_0_r.
Qed.

End Table.

(** ** [checkAnswer] and the ladder of section 4.1 *)

Section Ladder.

Implicit Types g c s t : jsstring.

Lemma zero_div_lt (q y : float) :
  (0 <? q)%float = true → (q <=? num_of_nat 0 / y)%float = false.
Proof.
  rewrite FloatAxioms.ltb_spec, FloatAxioms.leb_spec, FloatAxioms.div_spec.
  change (Prim2SF (num_of_nat 0)) with (S754_zero false).
  change (Prim2SF 0) with (S754_zero false).
  destruct (Prim2SF y) as [[]|[]| |[] m e];
    destruct (Prim2SF q) as [[]|[]| |[] m' e'];
    unfold SF64div, SFdiv, SFltb, SFleb, SFcompare; simpl; congruence.
Qed.

Lemma nonempty_length {A} (l : list A) : nonempty l = (0 <? length l)%nat.
Proof. by destruct l. Qed.

Lemma ratio_of_spec s t :
  (0 < Nat.max (length s) (length t))%nat →
  ratio_of (levenshtein s t) (Nat.max (length s) (length t)) = ratio_spec s t.
Proof.
  intros H. unfold ratio_of, ratio_spec.
  rewrite levenshtein_lev. by rewrite (proj2 (Nat.ltb_lt _ _) H).
Qed.

Lemma word_close_spec gw cw :
  (0 < length gw)%nat →
  word_close gw cw = (ratio_spec gw cw <=? 0.3)%float.
Proof.
  intros H. unfold word_close, ratio_spec. rewrite levenshtein_lev.
  rewrite (proj2 (Nat.ltb_lt 0 (Nat.max (length gw) (length cw)))) by lia.
  done.
Qed.

Lemma count_matched_filter cWords gWords :
  count_matched cWords gWords =
    length (List.filter (λ cw, existsb (λ gw, word_close gw cw) gWords) cWords).
Proof.
  unfold count_matched.
  enough (∀ n, fold_left
                 (λ matchedWords cw,
                    if existsb (λ gw, word_close gw cw) gWords
                    then S matchedWords else matchedWords) cWords n
               = (n + length (List.filter
                      (λ cw, existsb (λ gw, word_close gw cw) gWords)
                      cWords))%nat) as H by apply (H 0%nat).
  induction cWords as [|cw l IH]; intros n; simpl; [lia|].
  rewrite IH. destruct (existsb _ gWords); simpl; lia.
Qed.

Lemma existsb_ext_in {A} (f h : A → bool) (l : list A) :
  (∀ x, In x l → f x = h x) → existsb f l = existsb h l.
Proof.
  induction l as [|x l IH]; intros H; simpl; [done|].
  rewrite (H x) by (by left). rewrite IH; [done|].
  intros y Hy. apply H. by right.
Qed.

Lemma keyWords_spec_eq c : keyWords_spec c = cWords_of c.
Proof.
  unfold keyWords_spec, cWords_of. apply filter_ext. intros w.
  rewrite andb_comm. f_equal.
  destruct (Nat.ltb_spec 2 (length w)), (Nat.leb_spec (length w) 2);
    simpl; (done || lia).
Qed.

Lemma tokens_spec_eq g : tokens_spec g = gWords_of g.
Proof.
  unfold tokens_spec, gWords_of. apply filter_ext. intros w.
  destruct (Nat.ltb_spec 2 (length w)), (Nat.leb_spec (length w) 2);
    simpl; (done || lia).
Qed.

Lemma gWords_long g w : In w (gWords_of g) → (0 < length w)%nat.
Proof.
  unfold gWords_of. rewrite filter_In. intros [_ H].
  apply Nat.ltb_lt in H. lia.
Qed.

(** The word-by-word step of the code is rule 6 of the ladder. *)
Lemma wordRatio_code g c (q : float) :
  (0 <? q)%float = true →
  (0 <? length (cWords_of c))%nat && (0 <? length (gWords_of g))%nat
  && num_ge (num_of_nat (count_matched (cWords_of c) (gWords_of g))
             / num_of_nat (length (cWords_of c))) q
  = (q <=? wordRatio_spec g c)%float.
Proof.
  intros Hq. unfold wordRatio_spec, num_ge.
  rewrite keyWords_spec_eq, tokens_spec_eq.
  destruct (cWords_of c) as [|cw cWords'] eqn:Hc.
  { simpl. rewrite FloatAxioms.ltb_spec in Hq. rewrite FloatAxioms.leb_spec.
    change (Prim2SF 0) with (S754_zero false) in *.
    destruct (Prim2SF q) as [[]|[]| |[] m e];
      unfold SFltb, SFleb, SFcompare in *; simpl in *; congruence. }
  rewrite <- Hc. assert ((0 <? length (cWords_of c))%nat = true) as ->
    by (rewrite Hc; done).
  clear Hc cw cWords'. rewrite andb_true_l.
  destruct (gWords_of g) as [|gw gWords'] eqn:Hg.
  { rewrite andb_false_l. simpl existsb.
    replace (List.filter (λ _, false) (cWords_of c)) with (@nil (list ascii))
      by (induction (cWords_of c); simpl; auto).
    symmetry. by apply zero_div_lt. }
  rewrite <- Hg. assert ((0 <? length (gWords_of g))%nat = true) as ->
    by (rewrite Hg; done).
  rewrite andb_true_l, count_matched_filter.
  do 4 f_equal. apply filter_ext. intros cw.
  apply existsb_ext_in. intros gw' Hin.
  apply word_close_spec. by apply gWords_long with g.
Qed.

Lemma max_pos_l s t : s ≠ [] → (0 < Nat.max (length s) (length t))%nat.
Proof. destruct s; [done|]. simpl. lia. Qed.

Lemma nonempty_true s : nonempty s = true → s ≠ [].
Proof. by destruct s. Qed.

(** Rules 6 to 9. *)
Ltac ladder_tail g c :=
  rewrite <- (wordRatio_code g c 1.0), <- (wordRatio_code g c 0.6),
    <- (wordRatio_code g c 0.4) by reflexivity;
  unfold num_ge;
  destruct ((0 <? length (cWords_of c))%nat
            && (0 <? length (gWords_of g))%nat); cbn [andb];
  repeat match goal with
         | |- context [if (?q <=? ?w)%float then _ else _] =>
             destruct (q <=? w)%float; try reflexivity
         end;
  (destruct (includes c g && _); [reflexivity|]);
  (destruct (Nat.leb_spec 3 (length (stripVowels g))); [|reflexivity]);
  (destruct (Nat.leb_spec 3 (length (stripVowels c))); [|reflexivity]);
  unfold ratio_spec;
  rewrite (proj2 (Nat.ltb_lt 0 (Nat.max (length (stripVowels g))
                                        (length (stripVowels c))))) by lia;
  reflexivity.

Lemma checkNormalized_ladder g c :
  g ≠ [] → c ≠ [] → checkNormalized g c = ladder true g c.
Proof.
  intros Hg Hc. unfold checkNormalized, ladder, str_eqb. cbv zeta.
  destruct (bool_decide (g = c)); [done|].
  destruct (includes g c); [done|].
  unfold num_ge at 1.
  destruct (includes c g && _); [done|].
  rewrite ratio_of_spec by (by apply max_pos_l).
  destruct (ratio_spec g c <=? 0.15)%float; [done|].
  destruct (ratio_spec g c <=? 0.25)%float; [done|].
  destruct (ratio_spec g c <=? 0.35)%float; [done|].
  cbn [negb orb].
  destruct (nonempty (stripStop g) && nonempty (stripStop c)) eqn:Hne;
    cbn [andb].
  - apply andb_true_iff in Hne as [Hgs Hcs].
    rewrite ratio_of_spec by (by apply max_pos_l, nonempty_true).
    destruct (bool_decide (stripStop g = stripStop c)); [done|].
    destruct (ratio_spec (stripStop g) (stripStop c) <=? 0.2)%float; [done|].
    destruct (ratio_spec (stripStop g) (stripStop c) <=? 0.35)%float; [done|].
    rewrite !levenshtein_lev. ladder_tail g c.
  - rewrite !levenshtein_lev. ladder_tail g c.
Qed.

Lemma normalize_nil : normalize [] = [].
Proof. reflexivity. Qed.

Lemma checkAnswer_ladder guess answer :
  checkAnswer guess answer = matchQuality_spec true guess answer.
Proof.
  unfold checkAnswer, matchQuality_spec.
  destruct (js guess) as [|x g] eqn:Hg; [done|].
  destruct (js answer) as [|y c] eqn:Hc.
  { cbn [nonempty negb orb]. change (normalize []) with (@nil ascii).
    by destruct (normalize _). }
  cbn [nonempty negb orb].
  destruct (normalize (x :: g)) as [|x' g'] eqn:Hng; [done|].
  destruct (normalize (y :: c)) as [|y' c'] eqn:Hnc; [done|].
  cbn [nonempty negb orb]. by apply checkNormalized_ladder.
Qed.

End Ladder.

(** ** The contract of the matching engine *)

(** Two float constants differ. *)
Ltac float_discr H :=
  apply (f_equal Prim2SF) in H; vm_compute in H; discriminate H.

Section Contract.
Implicit Types g c s : jsstring.

Lemma ladder_values guarded g c : In (ladder guarded g c) qualities.
Proof.
  unfold ladder. cbv zeta.
  repeat match goal with
         | |- context [if ?b then _ else _] => destruct b
         end; vm_compute; tauto.
Qed.

Lemma qualities_range q :
  In q qualities → (0 <=? q)%float = true ∧ (q <=? 1)%float = true.
Proof.
  unfold qualities. simpl.
  intros H; repeat (destruct H as [<-|H]; [by vm_compute|]); done.
Qed.

Lemma matchQuality_spec_values guarded guess answer :
  In (matchQuality_spec guarded guess answer) qualities.
Proof.
  unfold matchQuality_spec.
  destruct (normalize (js guess)); [by left|].
  destruct (normalize (js answer)); [by left|].
  apply ladder_values.
Qed.

Lemma not_space_neq (ch : ascii) : is_space ch = false → Ascii.eqb ch " " = false.
Proof.
  intros H. destruct (Ascii.eqb_spec ch " ") as [->|]; [|done].
  by vm_compute in H.
Qed.

Lemma collapse_from_alphabet (l : list ascii) : ∀ in_run,
  Forall (λ ch, is_lower ch || is_digit ch || is_space ch = true) l →
  Forall (λ ch, in_alphabet ch = true) (collapse_from in_run l).
Proof.
  induction l as [|ch l IH]; intros in_run H; simpl; [done|].
  inversion H as [|? ? Hc Hl]; subst.
  destruct (is_space ch) eqn:Hs.
  - destruct in_run; [by apply IH|]. constructor; [done|by apply IH].
  - constructor; [|by apply IH].
    unfold in_alphabet. rewrite orb_false_r in Hc. by rewrite Hc.
Qed.

Lemma normalize_alphabet s :
  Forall (λ ch, in_alphabet ch = true) (normalize s).
Proof.
  unfold normalize, collapse_spaces. apply collapse_from_alphabet.
  unfold strip_other. apply Forall_forall. intros ch Hin.
  apply list_elem_of_In, filter_In in Hin. tauto.
Qed.

Lemma single_spaced_cons (ch d : ascii) (r : list ascii) :
  single_spaced (ch :: d :: r)
  = negb (Ascii.eqb ch " " && Ascii.eqb d " ") && single_spaced (d :: r).
Proof. reflexivity. Qed.

Lemma collapse_from_single (l : list ascii) : ∀ in_run,
  single_spaced (collapse_from in_run l) = true
  ∧ (in_run = true → ∀ r, collapse_from in_run l ≠ " "%char :: r).
Proof.
  induction l as [|ch l IH]; intros in_run; simpl; [by split|].
  destruct (is_space ch) eqn:Hs.
  - destruct in_run.
    + apply IH.
    + split; [|done]. destruct (IH true) as [H1 H2].
      destruct (collapse_from true l) as [|d r] eqn:Hr; [done|].
      rewrite single_spaced_cons, H1, andb_true_r.
      destruct (Ascii.eqb_spec d " ") as [->|]; [|done].
      by destruct (H2 eq_refl r).
  - pose proof (not_space_neq ch Hs) as Hne. split.
    + destruct (IH false) as [H1 _].
      destruct (collapse_from false l) as [|d r] eqn:Hr; [done|].
      by rewrite single_spaced_cons, Hne, H1.
    + intros _ r [= -> _]. by vm_compute in Hs.
Qed.

Lemma normalize_single_spaced s : single_spaced (normalize s) = true.
Proof. apply collapse_from_single. Qed.

Lemma levenshtein_exact (a b : list ascii) :
  levenshtein a b = lev a b
  ∧ edit a b (levenshtein a b)
  ∧ ∀ n, edit a b n → (levenshtein a b ≤ n)%nat.
Proof.
  rewrite levenshtein_lev. split; [done|]. split; [apply lev_edit|].
  intros n. apply lev_least.
Qed.

(** Claim C1, as amended.  For all texts [guess] and [answer],
    [checkAnswer] is a function whose value lies in [0,1]; it is the value
    of the first matching rule of the ladder of section 4.1 over the
    normalised texts, where the stop-word rule 5 applies only when both
    stripped texts are non-empty; it is 0 when the normalised guess or
    answer is empty; normalising lower-cases, trims, removes what is not
    in [a-z0-9] or white space and replaces each run of white space by one
    space, so that only [a-z0-9] and single spaces remain; and the edit
    distance [levenshtein] computes is the one of the Levenshtein
    recurrence, which is the least cost of an edit script of unit-cost
    insertions, deletions and substitutions. *)
Theorem checkAnswer_contract (guess answer : string) :
  let q := checkAnswer guess answer in
  ((0 <=? q)%float = true ∧ (q <=? 1)%float = true)
  ∧ q = matchQuality_spec true guess answer
  ∧ (normalize (js guess) = [] ∨ normalize (js answer) = [] → q = 0%float)
  ∧ (∀ s : list ascii,
        normalize s = collapse_spaces (strip_other (trim (toLowerCase s)))
        ∧ Forall (λ ch, in_alphabet ch = true) (normalize s)
        ∧ single_spaced (normalize s) = true)
  ∧ (∀ a b : list ascii,
        levenshtein a b = lev a b
        ∧ edit a b (levenshtein a b)
        ∧ ∀ n, edit a b n → (levenshtein a b ≤ n)%nat).
Proof.
  intros q. subst q. rewrite checkAnswer_ladder. repeat split.
  - apply qualities_range, matchQuality_spec_values.
  - apply qualities_range, matchQuality_spec_values.
  - unfold matchQuality_spec. intros [-> | ->]; [done|].
    by destruct (normalize (js guess)).
  - apply normalize_alphabet.
  - apply normalize_single_spaced.
  - apply levenshtein_exact.
  - apply levenshtein_exact.
  - apply levenshtein_exact.
Qed.

(** Claim C1 fails as stated: for the guess "the" and the answer "of" no
    rule of the code fires and [checkAnswer] is 0, while the stop-word
    rule of section 4.1 (both texts are empty once stripped, hence equal)
    gives 0.95. *)
Lemma checkAnswer_not_the_ladder :
  checkAnswer "the" "of" = 0%float
  ∧ matchQuality_spec false "the" "of" = 0.95%float
  ∧ checkAnswer "the" "of" ≠ matchQuality_spec false "the" "of".
Proof.
  split; [by vm_compute|]. split; [by vm_compute|].
  intros H. float_discr H.
Qed.

(** Claim C8, as amended: the guess "Eifel Toer" for "Eiffel Tower" has
    quality 0.8.  The normalised texts are 10 and 12 characters long and 2
    edits apart; the ratio 2/12 is above 0.15 and within 0.25, the second
    tier of rule 4. *)
Theorem eifel_toer_quality :
  let g := normalize (js "Eifel Toer") in
  let c := normalize (js "Eiffel Tower") in
  checkAnswer "Eifel Toer" "Eiffel Tower" = 0.8%float
  ∧ g = js "eifel toer" ∧ c = js "eiffel tower"
  ∧ includes g c = false ∧ includes c g = false
  ∧ levenshtein g c = 2%nat
  ∧ Nat.max (length g) (length c) = 12%nat
  ∧ (ratio_spec g c <=? 0.15)%float = false
  ∧ (ratio_spec g c <=? 0.25)%float = true.
Proof. by vm_compute. Qed.

(** Claim C8 fails as stated: the quality is not 0.9. *)
Lemma eifel_toer_not_09 :
  checkAnswer "Eifel Toer" "Eiffel Tower" ≠ 0.9%float.
Proof. intros H. float_discr H. Qed.

End Contract.

(** ** Numbers that are not NaN *)

Section Numbers.
































End Numbers.

(** ** The handlers of [host-join] and [submit-guess] *)

(** A decidable closed proposition holds by evaluation. *)
Ltac by_compute :=
  match goal with
  | |- ?P => apply (@bool_decide_unpack P _); vm_compute; exact I
  end.

Section Handlers.

Implicit Types srv : server.
Implicit Types sid rid roomId : string.
Implicit Types room : room.

Lemma rooms_get_Some srv rid room :
  rooms_get srv rid = Some room → rid ∈ rooms srv ∧ store srv !! rid = Some room.
Proof. unfold rooms_get. by case_decide. Qed.

Lemma rooms_get_put_room srv rid room room' :
  rooms_get srv rid = Some room →
  rooms_get (put_room rid room' srv) rid = Some room'.
Proof.
  intros [Hin _]%rooms_get_Some. unfold rooms_get, put_room. simpl.
  rewrite decide_True by done. by rewrite lookup_insert_eq.
Qed.

Lemma Map_get_set_eq {V} k (v : V) m : Map_get k (Map_set k v m) = Some v.
Proof.
  unfold Map_get. induction m as [|[k' v'] m IH]; simpl.
  - by rewrite String.eqb_refl.
  - destruct (String.eqb k k') eqn:E; simpl.
    + by rewrite String.eqb_refl.
    + by rewrite E.
Qed.

Lemma Map_get_set_ne {V} k k' (v : V) m :
  k ≠ k' → Map_get k' (Map_set k v m) = Map_get k' m.
Proof.
  intros Hne. unfold Map_get. induction m as [|[k0 v0] m IH]; simpl.
  - by rewrite (proj2 (String.eqb_neq k' k)).
  - destruct (String.eqb k k0) eqn:E; simpl.
    + apply String.eqb_eq in E as <-.
      by rewrite (proj2 (String.eqb_neq k' k)).
    + destruct (String.eqb k' k0); [done|]. apply IH.
Qed.

(** Claim C10.  A [host-join] whose room exists and whose host identifier
    matches leaves the room registered with state [lobby], whatever the
    state was (playing, roundResult and finished included), and with the
    joining socket as [hostSocketId]; every other field of the room is as
    before. *)
Theorem host_join_sets_lobby srv sid roomId hostId' room :
  rooms_get srv roomId = Some room →
  hostId room = hostId' →
  ∃ room',
    rooms_get (fst (on_host_join sid roomId hostId' srv)) roomId = Some room'
    ∧ state room' = lobby
    ∧ hostSocketId room' = Some sid
    ∧ room_id room' = room_id room
    ∧ hostId room' = hostId room
    ∧ images room' = images room
    ∧ players room' = players room
    ∧ settings room' = settings room
    ∧ currentRound room' = currentRound room
    ∧ roundStartTime room' = roundStartTime room
    ∧ roundTimer room' = roundTimer room
    ∧ roundAnswered room' = roundAnswered room
    ∧ createdAt room' = createdAt room.
Proof.
  intros Hroom Hhost. unfold on_host_join.
  rewrite Hroom, Hhost, String.eqb_refl. simpl.
  pose proof (rooms_get_put_room srv roomId room
                (with_state lobby (with_hostSocketId (Some sid) room)) Hroom)
    as H.
  eexists. split; [exact H|]. by repeat split.
Qed.

(** The host of a room that is playing joins again: the room is back in
    the lobby. *)
Lemma host_join_sets_lobby_witness :
  let srv := after answered_trace in
  let room := room_at srv "r1" in
  rooms_get srv "r1" = Some room
  ∧ hostId room = "h1"
  ∧ state room = playing
  ∧ ∃ room',
      rooms_get (fst (on_host_join "H" "r1" "h1" srv)) "r1" = Some room'
      ∧ state room' = lobby
      ∧ hostSocketId room' = Some "H"%string
      ∧ players room' = players room.
Proof.
  intros srv room.
  assert (H1 : rooms_get srv "r1" = Some room) by (vm_compute; reflexivity).
  assert (H2 : hostId room = "h1") by (vm_compute; reflexivity).
  assert (H3 : state room = playing) by (vm_compute; reflexivity).
  refine (conj H1 (conj H2 (conj H3 _))).
  destruct (host_join_sets_lobby srv "H" "r1" "h1" room H1 H2)
    as (room' & Hr & Hst & Hh & _ & _ & _ & Hp & _).
  exact (ex_intro _ room' (conj Hr (conj Hst (conj Hh Hp)))).
Defined.


(** The state of the server after an accepted guess. *)
Lemma submit_guess_accepted srv sid roomId guess now room player img :
  rooms_get srv roomId = Some room →
  state room = playing →
  Map_get sid (players room) = Some player →
  sid ∉ roundAnswered room →
  image_at (images room) (currentRound room - 1) = Some img →
  num_gt (checkAnswer guess (answer img)) 0 = true →
  let q := checkAnswer guess (answer img) in
  let elapsed := elapsed_of room now in
  let pts := points_of q elapsed
               (num_of_Z (roundTime (settings room)) * 1000)%float
               (streak player) (size (roundAnswered room)) in
  let player' :=
    {| player_id := player_id player; player_name := player_name player;
       score := (score player + pts)%float;
       answers := answers player
                  ++ [{| round := currentRound room; correct := true;
                         points := pts; time := Some elapsed;
                         matchQuality := Some q |}];
       streak := streak_after q (streak player) |} in
  let room' :=
    with_roundAnswered ({[sid]} ∪ roundAnswered room)
      (with_players (Map_set sid player' (players room)) room) in
  on_submit_guess sid roomId guess now srv
  = Some (put_room roomId room' srv,
          [to_socket sid
             (guess_result_correct pts (score player')
                (size (roundAnswered room) + 1)%nat (streak player') elapsed
                (matchType_of q) (Math_round (q * 100)));
           to_room roomId
             (leaderboard_update (getPlayerList room')
                (size (roundAnswered room')) (length (players room')))]).
Proof.
  intros Hroom Hst Hp Hna Himg Hq. cbv zeta. unfold on_submit_guess.
  rewrite Hroom, Hst, bool_decide_eq_true_2 by done. cbn [negb].
  rewrite Hp, bool_decide_eq_false_2 by done. rewrite Himg. cbv zeta.
  by rewrite Hq.
Qed.

Lemma submit_guess_duplicate srv sid roomId guess now room player :
  rooms_get srv roomId = Some room →
  state room = playing →
  Map_get sid (players room) = Some player →
  sid ∈ roundAnswered room →
  on_submit_guess sid roomId guess now srv
  = Some (srv, [to_socket sid guess_result_alreadyAnswered]).
Proof.
  intros Hroom Hst Hp Hin. unfold on_submit_guess.
  rewrite Hroom, Hst, bool_decide_eq_true_2 by done. cbn [negb].
  by rewrite Hp, bool_decide_eq_true_2.
Qed.

(** Claim C2.  In a playing room, a [submit-guess] of a registered player
    whose identifier is in [roundAnswered] is answered by the
    [alreadyAnswered] acknowledgment, sent to that player alone, and
    leaves the server as it is: scores, streaks, answer histories,
    [roundAnswered] and hence the leaderboard are unchanged and no
    leaderboard is broadcast.  So of the guesses of one player in a round
    only the first of quality > 0 is scored: it puts the player in
    [roundAnswered], and every later guess is such a duplicate. *)
Theorem duplicate_guess_changes_nothing srv sid roomId room player :
  rooms_get srv roomId = Some room →
  state room = playing →
  Map_get sid (players room) = Some player →
  (sid ∈ roundAnswered room →
   ∀ guess now,
     on_submit_guess sid roomId guess now srv
     = Some (srv, [to_socket sid guess_result_alreadyAnswered]))
  ∧ (sid ∉ roundAnswered room →
     ∀ guess1 now1 img,
       image_at (images room) (currentRound room - 1) = Some img →
       num_gt (checkAnswer guess1 (answer img)) 0 = true →
       ∃ srv1 out1 room1,
         on_submit_guess sid roomId guess1 now1 srv = Some (srv1, out1)
         ∧ rooms_get srv1 roomId = Some room1
         ∧ sid ∈ roundAnswered room1
         ∧ ∀ guess2 now2,
             on_submit_guess sid roomId guess2 now2 srv1
             = Some (srv1, [to_socket sid guess_result_alreadyAnswered])).
Proof.
  intros Hroom Hst Hp. split.
  - intros Hin guess now. by eapply submit_guess_duplicate.
  - intros Hna guess1 now1 img Himg Hq.
    eexists _, _, _. split; [by eapply submit_guess_accepted|].
    split; [by eapply rooms_get_put_room|].
    split; [simpl; set_solver|].
    intros guess2 now2. eapply submit_guess_duplicate.
    + by eapply rooms_get_put_room.
    + done.
    + simpl. apply Map_get_set_eq.
    + simpl. set_solver.
Qed.



(** P has answered in round 1 and guesses again. *)
Lemma duplicate_guess_witness :
  let srv := after answered_trace in
  let room := room_at srv "r1" in
  rooms_get srv "r1" = Some room
  ∧ state room = playing
  ∧ Map_get "P" (players room) = Some (player_at room "P")
  ∧ "P" ∈ roundAnswered room
  ∧ on_submit_guess "P" "r1" "Eiffel Tower" 9000 srv
    = Some (srv, [to_socket "P" guess_result_alreadyAnswered]).
Proof.
  intros srv room.
  assert (H1 : rooms_get srv "r1" = Some room) by (vm_compute; reflexivity).
  assert (H2 : state room = playing) by (vm_compute; reflexivity).
  assert (H3 : Map_get "P" (players room) = Some (player_at room "P"))
    by (vm_compute; reflexivity).
  assert (H4 : "P" ∈ roundAnswered room) by by_compute.
  refine (conj H1 (conj H2 (conj H3 (conj H4 _)))).
  exact (proj1 (duplicate_guess_changes_nothing srv "P" "r1" room
                  (player_at room "P") H1 H2 H3) H4 "Eiffel Tower" 9000).
Defined.

End Handlers.

(** ** The end of a round *)

Section EndRound.

Implicit Types srv : server.
Implicit Types sid rid : string.
Implicit Types room : room.

Lemma mark_unanswered_eq room k p :
  mark_unanswered room (k, p)
  = (k, if decide (k ∈ roundAnswered room) then p else unanswered room p).
Proof. unfold mark_unanswered. by case_decide. Qed.

Lemma Map_get_mark room sid (m : list (string * player)) :
  Map_get sid (map (mark_unanswered room) m)
  = (λ p, if decide (sid ∈ roundAnswered room) then p else unanswered room p)
      <$> Map_get sid m.
Proof.
  unfold Map_get. induction m as [|[k p] m IH]; [done|].
  cbn [map find]. rewrite mark_unanswered_eq. cbn [fst].
  by destruct (String.eqb_spec sid k) as [->|].
Qed.

Lemma endRound_result srv rid now room img :
  store srv !! rid = Some room →
  image_at (images room) (currentRound room - 1) = Some img →
  ∃ srv' out room',
    endRound rid now srv = Some (srv', out)
    ∧ store srv' !! rid = Some room'
    ∧ state room' = roundResult
    ∧ roundAnswered room' = roundAnswered room
    ∧ players room'
      = map (mark_unanswered (with_state roundResult room)) (players room).
Proof.
  intros Hroom Himg. unfold endRound. rewrite Hroom. cbv zeta.
  cbn [images with_players with_state currentRound]. rewrite Himg.
  cbn [set_timer]. eexists _, _, _. split; [reflexivity|].
  split; [apply lookup_insert_eq|]. done.
Qed.

(** Claim C6, as amended.  When a round ends, every player who is not in
    [roundAnswered] (no guess of quality > 0 was accepted from them in the
    round) has the streak reset to 0 and receives an answer-history entry
    [{correct: false, points: 0}] for the round, and every player who is in
    [roundAnswered] is left as they are.  A guess accepted with
    [0 < quality < 0.7] puts its player in [roundAnswered] and leaves the
    streak as it was: that player's streak is not reset at the end of the
    round and they receive no such entry. *)
Theorem round_end_settlement srv rid room :
  store srv !! rid = Some room →
  (∀ now img,
     image_at (images room) (currentRound room - 1) = Some img →
     ∃ srv' out room',
       endRound rid now srv = Some (srv', out)
       ∧ store srv' !! rid = Some room'
       ∧ state room' = roundResult
       ∧ ∀ sid p,
           Map_get sid (players room) = Some p →
           (sid ∉ roundAnswered room →
            Map_get sid (players room')
            = Some {| player_id := player_id p;
                      player_name := player_name p;
                      score := score p;
                      answers := answers p
                                 ++ [{| round := currentRound room;
                                        correct := false; points := 0;
                                        time := None;
                                        matchQuality := None |}];
                      streak := 0 |})
           ∧ (sid ∈ roundAnswered room →
              Map_get sid (players room') = Some p))
  ∧ (∀ sid guess now player img,
       rooms_get srv rid = Some room →
       state room = playing →
       Map_get sid (players room) = Some player →
       sid ∉ roundAnswered room →
       image_at (images room) (currentRound room - 1) = Some img →
       num_gt (checkAnswer guess (answer img)) 0 = true →
       num_ge (checkAnswer guess (answer img)) 0.7 = false →
       ∃ srv' out room' player',
         on_submit_guess sid rid guess now srv = Some (srv', out)
         ∧ store srv' !! rid = Some room'
         ∧ sid ∈ roundAnswered room'
         ∧ Map_get sid (players room') = Some player'
         ∧ streak player' = streak player).
Proof.
  intros Hroom. split.
  - intros now img Himg.
    destruct (endRound_result srv rid now room img Hroom Himg)
      as (srv' & out & room' & Hend & Hstore & Hstate & Hans & Hplayers).
    exists srv', out, room'. repeat (split; [done|]).
    intros sid p Hp. rewrite Hplayers, Map_get_mark, Hp. cbn.
    split; intros H; [by rewrite decide_False|by rewrite decide_True].
  - intros sid guess now player img Hget Hst Hp Hna Himg Hq Hlow.
    eexists _, _, _, _.
    split; [by eapply submit_guess_accepted|].
    split; [apply lookup_insert_eq|].
    split; [simpl; set_solver|].
    split; [simpl; apply Map_get_set_eq|].
    simpl. unfold streak_after. by rewrite Hlow.
Qed.

(** The end of round 1 for a player who has not answered: the streak of Q
    goes back to 0. *)
Lemma round_end_settlement_witness :
  let srv := after answered_trace in
  let room := room_at srv "r1" in
  store srv !! "r1" = Some room
  ∧ ∃ srv' out room',
      endRound "r1" 32010 srv = Some (srv', out)
      ∧ store srv' !! "r1" = Some room'
      ∧ streak (player_at room' "Q") = 0%nat.
Proof.
  intros srv room.
  assert (H1 : store srv !! "r1" = Some room) by (vm_compute; reflexivity).
  refine (conj H1 _).
  destruct (proj1 (round_end_settlement srv "r1" room H1) 32010
              {| data := "data:1"; img_name := "eiffel.jpg";
                 answer := "Eiffel Tower" |})
    as (srv' & out & room' & Hend & Hstore & _ & Hplayers);
    [vm_compute; reflexivity|].
  exists srv', out, room'. refine (conj Hend (conj Hstore _)).
  destruct (Hplayers "Q" (player_at room "Q")) as [Hq _];
    [vm_compute; reflexivity|].
  unfold player_at at 1. rewrite Hq by by_compute. reflexivity.
Defined.

(** Claim C6 fails as stated.  In round 2 the only accepted guess of P
    has quality 0.4, below 0.7; when the round ends, the streak of P is
    still 1 and the history of P has no [correct: false] entry for
    round 2. *)
Lemma partial_answer_keeps_streak :
  let before := room_at (after partial_trace) "r1" in
  let ended := room_at (after round2_ended_trace) "r1" in
  let p := player_at ended "P" in
  currentRound before = 2 ∧ state before = playing
  ∧ checkAnswer "taj" "Taj Mahal" = 0.4%float
  ∧ ("P" ∈ roundAnswered before)
  ∧ state ended = roundResult ∧ currentRound ended = 2
  ∧ streak p = 1%nat
  ∧ existsb (λ e, (round e =? 2) && negb (correct e)) (answers p) = false.
Proof.
  cbv zeta. split; [by vm_compute|]. split; [by vm_compute|].
  split; [by vm_compute|]. split; [by_compute|]. by vm_compute.
Qed.

End EndRound.

(** ** Tactics for the handlers *)

(** Unfolds a handler down to the updates of the store. *)
Ltac crunch :=
  repeat (simplify_eq/=;
          match goal with
          | H : context [match ?x with _ => _ end] |- _ =>
              destruct x eqn:?
          | |- context [match ?x with _ => _ end] => destruct x eqn:?
          end); simplify_eq/=.

Ltac split_lookup :=
  repeat match goal with
         | H : context [<[?k := _]> _ !! ?k] |- _ =>
             rewrite lookup_insert_eq in H
         | |- context [<[?k := _]> _ !! ?k] => rewrite lookup_insert_eq
         | H : context [<[?k := _]> _ !! ?k'] |- _ =>
             destruct (decide (k' = k)) as [->|];
             [rewrite lookup_insert_eq in H
             |rewrite lookup_insert_ne in H by done]
         | |- context [<[?k := _]> _ !! ?k'] =>
             destruct (decide (k' = k)) as [->|];
             [rewrite lookup_insert_eq|rewrite lookup_insert_ne by done]
         end.

Ltac kept :=
  let rid0 := fresh "rid0" in
  let room0 := fresh "room0" in
  let H0 := fresh "H0" in
  intros rid0 room0 H0; simpl in *; split_lookup; simplify_eq/=; eauto.

(** ** Who changes the settings *)

Section Settings.

Implicit Types srv : server.
Implicit Types sid rid : string.

Lemma settings_kept_refl srv : settings_kept srv srv.
Proof. kept. Qed.

Lemma endGame_settings rid srv srv' out :
  endGame rid srv = Some (srv', out) → settings_kept srv srv'.
Proof. unfold endGame, clear_timer, put_room. intros H. crunch; kept. Qed.

Lemma startRound_settings rid now srv srv' out :
  startRound rid now srv = Some (srv', out) → settings_kept srv srv'.
Proof.
  unfold startRound, endGame, clear_timer, put_room, set_timer.
  intros H. crunch; kept.
Qed.

Lemma endRound_settings rid now srv srv' out :
  endRound rid now srv = Some (srv', out) → settings_kept srv srv'.
Proof.
  unfold endRound, put_room, set_timer. intros H. crunch; kept.
Qed.

Lemma hint_tick_settings h rid fl wc now srv srv' out :
  hint_tick h rid fl wc now srv = Some (srv', out) → settings_kept srv srv'.
Proof. unfold hint_tick, clear_timer. intros H. crunch; kept. Qed.

Lemma fire_settings h now srv srv' out :
  fire h now srv = Some (srv', out) → settings_kept srv srv'.
Proof.
  unfold fire. intros H. destruct (find _ _) as [t|]; [|simplify_eq; apply settings_kept_refl].
  destruct (action t).
  - by apply startRound_settings in H.
  - by apply endRound_settings in H.
  - by apply hint_tick_settings in H.
Qed.

Lemma on_host_join_settings sid rid h srv :
  settings_kept srv (fst (on_host_join sid rid h srv)).
Proof.
  unfold on_host_join, rooms_get, set_socket, put_room. crunch; kept.
Qed.

Lemma on_player_join_settings sid rid name now srv srv' out :
  on_player_join sid rid name now srv = Some (srv', out) →
  settings_kept srv srv'.
Proof.
  unfold on_player_join, rooms_get, set_socket, put_room.
  intros H. crunch; kept.
Qed.

Lemma on_submit_guess_settings sid rid guess now srv srv' out :
  on_submit_guess sid rid guess now srv = Some (srv', out) →
  settings_kept srv srv'.
Proof.
  unfold on_submit_guess, rooms_get, put_room. intros H. crunch; kept.
Qed.

Lemma on_disconnect_settings sid srv :
  settings_kept srv (fst (on_disconnect sid srv)).
Proof. unfold on_disconnect, rooms_get, put_room. crunch; kept. Qed.

Lemma api_upload_settings rid files srv :
  settings_kept srv (api_upload rid files srv).
Proof. unfold api_upload, rooms_get, put_room. crunch; kept. Qed.

Lemma api_delete_image_settings rid index srv :
  settings_kept srv (api_delete_image rid index srv).
Proof. unfold api_delete_image, rooms_get, put_room. crunch; kept. Qed.

Lemma clear_timer_store h srv : store (clear_timer h srv) = store srv.
Proof. reflexivity. Qed.

Lemma sweep_store now srv : store (sweep now srv) = store srv.
Proof.
  unfold sweep. cbn [store with_rooms].
  induction (List.filter _ _) as [|rid l IH]; [done|]. cbn [foldr].
  destruct (store srv !! rid) as [room|]; [|done].
  by destruct (roundTimer room).
Qed.

Lemma sweep_settings now srv : settings_kept srv (sweep now srv).
Proof. intros rid room H. rewrite sweep_store. eauto. Qed.

Lemma createRoom_settings rid h now srv :
  store srv !! rid = None → settings_kept srv (createRoom rid h now srv).
Proof. unfold createRoom, put_room. intros H. kept. Qed.

Lemma on_start_game_settings sid rid now srv rid0 room :
  store srv !! rid0 = Some room →
  ∃ room',
    store (fst (on_start_game sid rid now srv)) !! rid0 = Some room'
    ∧ roundTime (settings room') = roundTime (settings room)
    ∧ (totalRounds (settings room') = totalRounds (settings room)
       ∨ rid0 = rid
         ∧ totalRounds (settings room')
           = Z.min (totalRounds (settings room))
                   (Z.of_nat (length (images room)))).
Proof.
  unfold on_start_game, rooms_get, put_room, set_timer. intros H.
  crunch; split_lookup; simplify_eq/=; eauto 10.
Qed.

Lemma api_settings_sets srv rid rt tr room :
  rooms_get srv rid = Some room →
  rooms_get (api_settings rid rt tr srv) rid
  = Some (with_settings
            {| roundTime := default (roundTime (settings room)) rt;
               totalRounds := default (totalRounds (settings room)) tr |}
            room).
Proof.
  intros H. unfold api_settings. rewrite H.
  erewrite rooms_get_put_room by done.
  destruct rt, tr; simpl; try done; by destruct (settings room).
Qed.

(** Claim C9, as amended.  The settings endpoint sets the round duration
    and the number of rounds of a room in whatever state the room is,
    playing included.  No other input changes the settings of any room,
    but [start-game], which lowers [totalRounds] of the room it starts
    to the number of its images and leaves the round duration alone. *)
Theorem settings_changed_only_by :
  (∀ srv rid rt tr room,
     rooms_get srv rid = Some room →
     rooms_get (api_settings rid rt tr srv) rid
     = Some (with_settings
               {| roundTime := default (roundTime (settings room)) rt;
                  totalRounds := default (totalRounds (settings room)) tr |}
               room))
  ∧ (∀ now i srv srv' out,
       admissible now i srv = true →
       step now i srv = Some (srv', out) →
       (∀ r rt tr, i ≠ Settings r rt tr) →
       ∀ rid room,
         store srv !! rid = Some room →
         ∃ room',
           store srv' !! rid = Some room'
           ∧ roundTime (settings room') = roundTime (settings room)
           ∧ (totalRounds (settings room') = totalRounds (settings room)
              ∨ (∃ sid, i = StartGame sid rid)
                ∧ totalRounds (settings room')
                  = Z.min (totalRounds (settings room))
                          (Z.of_nat (length (images room))))).
Proof.
  split; [apply api_settings_sets|].
  intros now i srv srv' out Hadm Hstep Hi rid room Hroom.
  assert (Hkept : settings_kept (with_clock now srv) srv' →
                  ∃ room', store srv' !! rid = Some room'
                    ∧ roundTime (settings room') = roundTime (settings room)
                    ∧ (totalRounds (settings room')
                       = totalRounds (settings room)
                       ∨ (∃ sid, i = StartGame sid rid)
                         ∧ totalRounds (settings room')
                           = Z.min (totalRounds (settings room))
                                   (Z.of_nat (length (images room))))).
  { intros Hk. destruct (Hk rid room Hroom) as (room' & H1 & H2).
    exists room'. rewrite H2. auto. }
  destruct i; simpl in Hstep; simplify_eq.
  - apply Hkept. kept.
  - apply Hkept, createRoom_settings. simpl.
    apply andb_true_iff in Hadm as [_ Hf]. by apply bool_decide_eq_true in Hf.
  - apply Hkept, api_upload_settings.
  - by destruct (Hi rid0 rt tr).
  - apply Hkept, api_delete_image_settings.
  - destruct (on_host_join _ _ _ _) as [s o] eqn:E. simplify_eq.
    apply Hkept. by rewrite (surjective_pairing (on_host_join _ _ _ _)) in E;
      simplify_eq; apply on_host_join_settings.
  - by eapply Hkept, on_player_join_settings.
  - destruct (on_start_game_settings sid roomId now (with_clock now srv)
                rid room Hroom) as (room' & H1 & H2 & H3).
    destruct (on_start_game _ _ _ _) as [s o] eqn:E. simplify_eq.
    exists room'. split; [done|]. split; [done|].
    destruct H3 as [H3|[-> H3]]; eauto.
  - by eapply Hkept, on_submit_guess_settings.
  - destruct (on_disconnect _ _) as [s o] eqn:E. simplify_eq.
    apply Hkept. by rewrite (surjective_pairing (on_disconnect _ _)) in E;
      simplify_eq; apply on_disconnect_settings.
  - by eapply Hkept, fire_settings.
  - apply Hkept, sweep_settings.
Qed.

(** Claim C9 fails as stated: while the room is playing round 1, the
    settings endpoint changes both settings. *)
Lemma settings_changed_while_playing :
  let before := room_at (after round1_trace) "r1" in
  let changed := room_at (after settings_trace) "r1" in
  state before = playing
  ∧ settings before = {| roundTime := 30; totalRounds := 2 |}
  ∧ state changed = playing
  ∧ settings changed = {| roundTime := 10; totalRounds := 1 |}.
Proof. by vm_compute. Qed.

End Settings.

(** ** A finished room *)

Section Finished.

Implicit Types srv : server.
Implicit Types sid rid : string.

Lemma Map_get_map_values {V} (f : V → V) k (m : list (string * V)) :
  Map_get k (map (λ kv, (kv.1, f kv.2)) m) = f <$> Map_get k m.
Proof.
  unfold Map_get. induction m as [|[k' v] m IH]; [done|].
  cbn [map find fst snd]. by destruct (String.eqb k k').
Qed.

Lemma sweep_rooms now srv rid :
  rid ∈ rooms (sweep now srv) ↔ rid ∈ rooms srv ∧ expired now srv rid = false.
Proof.
  unfold sweep. cbn [rooms with_rooms].
  rewrite elem_of_difference, elem_of_list_to_set, list_elem_of_In, filter_In.
  rewrite <- list_elem_of_In, elem_of_elements.
  destruct (expired now srv rid); intuition congruence.
Qed.

Lemma foldr_clear_rooms (l : list string) (f : string → option nat) srv :
  rooms (foldr (λ rid s, match f rid with
                         | Some h => clear_timer h s
                         | None => s
                         end) srv l) = rooms srv.
Proof. induction l as [|x l IH]; [done|]. simpl. by destruct (f x). Qed.

(** Only the clean-up removes a room from the registry. *)
Lemma step_rooms now i srv srv' out :
  step now i srv = Some (srv', out) → i ≠ Sweep → rooms srv ⊆ rooms srv'.
Proof.
  intros Hstep Hi. destruct i; simpl in Hstep; try done.
  - simplify_eq. done.
  - simplify_eq. simpl. set_solver.
  - unfold api_upload, rooms_get in Hstep. crunch; done.
  - unfold api_settings, rooms_get in Hstep. crunch; done.
  - unfold api_delete_image, rooms_get in Hstep. crunch; done.
  - unfold on_host_join, rooms_get in Hstep. crunch; done.
  - unfold on_player_join, rooms_get in Hstep. crunch; done.
  - unfold on_start_game, rooms_get in Hstep. crunch; done.
  - unfold on_submit_guess, rooms_get in Hstep. crunch; done.
  - unfold on_disconnect, rooms_get in Hstep. crunch; done.
  - unfold fire, startRound, endRound, endGame, hint_tick in Hstep.
    crunch; done.
Qed.

(** Claim C5, as amended.  For a finished room of the registry:
    [submit-guess] is ignored and [player-join] is refused with an error,
    and both leave the server as it is; a run of a hint interval does
    nothing but clear that interval; and no input but the time-based
    clean-up removes the room from the registry, which drops exactly the
    rooms older than the retention window.  But [finished] is not
    terminal: a [host-join] with the host identifier of the room sets it
    to [lobby], and a [start-game] from a host socket, when the room has
    an image, sets it to [playing] with round 0 and all scores, histories
    and streaks reset. *)
Theorem finished_room srv rid room :
  rooms_get srv rid = Some room →
  state room = finished →
  (∀ sid guess now, on_submit_guess sid rid guess now srv = Some (srv, []))
  ∧ (∀ sid name now,
       on_player_join sid rid name now srv
       = Some (srv, [to_socket sid
                       (error_msg "This game has already ended")]))
  ∧ (∀ h fl wc now,
       hint_tick h rid fl wc now srv = Some (clear_timer h srv, []))
  ∧ (∀ now i srv' out,
       step now i srv = Some (srv', out) → i ≠ Sweep → rid ∈ rooms srv')
  ∧ (∀ now, rid ∈ rooms (sweep now srv) ↔ expired now srv rid = false)
  ∧ (∀ sid,
       rooms_get (fst (on_host_join sid rid (hostId room) srv)) rid
       = Some (with_state lobby (with_hostSocketId (Some sid) room)))
  ∧ (∀ sid now,
       socket_isHost srv sid = true →
       images room ≠ [] →
       ∃ room',
         rooms_get (fst (on_start_game sid rid now srv)) rid = Some room'
         ∧ state room' = playing
         ∧ currentRound room' = 0
         ∧ ∀ k p, Map_get k (players room') = Some p →
                  score p = 0%float ∧ answers p = [] ∧ streak p = 0%nat).
Proof.
  intros Hroom Hfin. pose proof (rooms_get_Some _ _ _ Hroom) as [Hin Hst].
  split; [|split; [|split; [|split; [|split; [|split]]]]].
  - intros sid guess now. unfold on_submit_guess.
    by rewrite Hroom, Hfin.
  - intros sid name now. unfold on_player_join. by rewrite Hroom, Hfin.
  - intros h fl wc now. unfold hint_tick. by rewrite Hst, Hfin.
  - intros now i srv' out Hstep Hi. by eapply step_rooms.
  - intros now. rewrite sweep_rooms. tauto.
  - intros sid. unfold on_host_join.
    rewrite Hroom, String.eqb_refl. simpl.
    pose proof (rooms_get_put_room srv rid room
                  (with_state lobby (with_hostSocketId (Some sid) room))
                  Hroom).
    done.
  - intros sid now Hhost Himg. unfold on_start_game.
    rewrite Hroom, Hhost. cbn [negb].
    destruct (images room) as [|img imgs] eqn:Hi; [done|]. cbn [length Nat.eqb].
    eexists. split.
    { cbn [fst set_timer]. unfold rooms_get. cbn.
      rewrite decide_True by done. apply lookup_insert_eq. }
    split; [done|]. split; [done|].
    intros k p. unfold with_players. cbn [players].
    rewrite Map_get_map_values.
    destruct (Map_get k (players room)); intros [= <-]. done.
Qed.

(** The room of the scenario once its two rounds are over. *)
Lemma finished_room_witness :
  let srv := after finished_trace in
  let room := room_at srv "r1" in
  rooms_get srv "r1" = Some room
  ∧ state room = finished
  ∧ on_submit_guess "P" "r1" "Taj Mahal" 73000 srv = Some (srv, []).
Proof.
  intros srv room.
  assert (H1 : rooms_get srv "r1" = Some room) by (vm_compute; reflexivity).
  assert (H2 : state room = finished) by (vm_compute; reflexivity).
  refine (conj H1 (conj H2 _)).
  exact (proj1 (finished_room srv "r1" room H1 H2) "P" "Taj Mahal" 73000).
Defined.

(** Claim C5 fails as stated: from the finished room of the scenario, a
    [host-join] of the host leads to [lobby], and a [start-game] of the
    host leads to [playing], back at round 0 with the score of P reset. *)
Lemma finished_is_not_terminal :
  let over := room_at (after finished_trace) "r1" in
  let rejoined :=
    room_at (after (finished_trace ++ [(80000, HostJoin "H" "r1" "h1")]))
            "r1" in
  let restarted :=
    room_at (after (finished_trace ++ [(80000, StartGame "H" "r1")])) "r1" in
  state over = finished ∧ currentRound over = 3
  ∧ score (player_at over "P") = 1688%float
  ∧ state rejoined = lobby
  ∧ state restarted = playing ∧ currentRound restarted = 0
  ∧ score (player_at restarted "P") = 0%float.
Proof. by vm_compute. Qed.

End Finished.

(** ** The cycle of a game of one round *)

Section Cycle.

Implicit Types srv : server.
Implicit Types sid rid : string.

Lemma find_fresh (l rest : list timer) (t : timer) h :
  Forall (λ t, (handle t < h)%nat) l → handle t = h →
  find (λ t, (handle t =? h)%nat) (l ++ t :: rest) = Some t.
Proof.
  intros Hl Ht. induction Hl as [|x l Hx Hl IH]; simpl.
  - by rewrite (proj2 (Nat.eqb_eq _ _) Ht).
  - rewrite (proj2 (Nat.eqb_neq (handle x) h)) by lia. exact IH.
Qed.

Lemma filter_fresh (l : list timer) h h' :
  Forall (λ t, (handle t < h)%nat) l → (h ≤ h')%nat →
  List.filter (λ t, negb (handle t =? h')%nat) l = l.
Proof.
  intros Hl Hh. induction Hl as [|x l Hx Hl IH]; simpl; [done|].
  rewrite (proj2 (Nat.eqb_neq (handle x) h')) by lia. simpl. by rewrite IH.
Qed.

Lemma fire_pending (l rest : list timer) (t : timer) h now srv :
  timers srv = l ++ t :: rest →
  Forall (λ t, (handle t < h)%nat) l → handle t = h →
  fire h now srv
  = match action t with
    | cb_startRound rid => startRound rid now (clear_timer h srv)
    | cb_endRound rid hintInterval =>
        endRound rid now (clear_timer hintInterval (clear_timer h srv))
    | cb_hint rid firstLetter wordCount =>
        hint_tick h rid firstLetter wordCount now srv
    end.
Proof.
  intros Ht Hl Hh. unfold fire. by rewrite Ht, (find_fresh l rest t h).
Qed.

(** [start-game] in a room with images, from a host socket. *)
Lemma on_start_game_effect sid rid now srv room :
  rooms_get srv rid = Some room →
  socket_isHost srv sid = true →
  images room ≠ [] →
  ∃ srv' room',
    on_start_game sid rid now srv
    = (srv', [to_room rid
                (game_started (Z.min (totalRounds (settings room))
                                     (Z.of_nat (length (images room))))
                              (roundTime (settings room))
                              (length (players room)))])
    ∧ store srv' !! rid = Some room'
    ∧ rooms srv' = rooms srv
    ∧ timers srv'
      = timers srv ++ [{| handle := next_handle srv; due := now + 2000;
                          action := cb_startRound rid |}]
    ∧ next_handle srv' = S (next_handle srv)
    ∧ state room' = playing
    ∧ currentRound room' = 0
    ∧ images room' = images room
    ∧ roundTime (settings room') = roundTime (settings room)
    ∧ totalRounds (settings room')
      = Z.min (totalRounds (settings room)) (Z.of_nat (length (images room))).
Proof.
  intros Hroom Hhost Himg. unfold on_start_game. rewrite Hroom, Hhost.
  destruct (images room) as [|img imgs] eqn:Hi; [done|].
  cbn [negb length Nat.eqb]. eexists _, _. split.
  { cbn [fst set_timer]. f_equal. f_equal. f_equal.
    unfold with_players. cbn [players]. by rewrite length_map. }
  split; [cbn; apply lookup_insert_eq|].
  cbn. rewrite Hi. done.
Qed.

(** [startRound] when another round is to be played. *)
Lemma startRound_next rid now srv room img :
  store srv !! rid = Some room →
  currentRound room + 1 ≤ totalRounds (settings room) →
  image_at (images room) (currentRound room) = Some img →
  ∃ srv' room',
    startRound rid now srv
    = Some (srv', [to_room (room_id room)
                     (round_start (currentRound room + 1)
                        (totalRounds (settings room))
                        (totalTime_of room) (totalTime_of room))])
    ∧ store srv' !! rid = Some room'
    ∧ timers srv'
      = timers srv
        ++ [{| handle := next_handle srv; due := now + 1000;
               action := cb_hint rid false false |};
            {| handle := S (next_handle srv);
               due := now + timer_delay (totalTime_of room);
               action := cb_endRound rid (next_handle srv) |}]
    ∧ next_handle srv' = S (S (next_handle srv))
    ∧ state room' = playing
    ∧ currentRound room' = currentRound room + 1
    ∧ images room' = images room
    ∧ settings room' = settings room
    ∧ roundTimer room' = Some (S (next_handle srv)).
Proof.
  intros Hroom Hle Himg. unfold startRound. rewrite Hroom. cbv zeta.
  cbn [settings with_currentRound currentRound].
  rewrite (proj2 (Z.ltb_ge _ _)) by lia.
  cbn [images with_roundAnswered with_roundStartTime with_state
       with_currentRound currentRound].
  replace (currentRound room + 1 - 1) with (currentRound room) by lia.
  rewrite Himg. cbn. rewrite <- app_assoc. eexists _, _.
  split; [reflexivity|]. split; [apply lookup_insert_eq|]. done.
Qed.

(** [startRound] after the last round: the game ends. *)
Lemma startRound_last rid now srv room :
  store srv !! rid = Some room →
  totalRounds (settings room) < currentRound room + 1 →
  ∃ srv' room' ps,
    startRound rid now srv
    = Some (srv', [to_room (room_id room)
                     (game_over ps (head ps) (totalRounds (settings room)))])
    ∧ store srv' !! rid = Some room'
    ∧ state room' = finished
    ∧ currentRound room' = currentRound room + 1.
Proof.
  intros Hroom Hlt. unfold startRound. rewrite Hroom. cbv zeta.
  cbn [settings with_currentRound currentRound].
  rewrite (proj2 (Z.ltb_lt _ _)) by lia.
  unfold endGame. cbn [store put_room with_store].
  rewrite lookup_insert_eq. cbv zeta. eexists _, _, _.
  split; [reflexivity|].
  cbn [roundTimer with_state with_currentRound].
  split; [destruct (roundTimer room); cbn; apply lookup_insert_eq|]. done.
Qed.

(** [endRound]: the room waits in [roundResult] for the timer of the
    next [startRound]. *)
Lemma endRound_schedules rid now srv room img :
  store srv !! rid = Some room →
  image_at (images room) (currentRound room - 1) = Some img →
  ∃ srv' room' ps n,
    endRound rid now srv
    = Some (srv', [to_room (room_id room)
                     (round_end (currentRound room)
                        (totalRounds (settings room)) (answer img)
                        ps (size (roundAnswered room)) n)])
    ∧ store srv' !! rid = Some room'
    ∧ timers srv'
      = timers srv ++ [{| handle := next_handle srv; due := now + 5000;
                          action := cb_startRound rid |}]
    ∧ next_handle srv' = S (next_handle srv)
    ∧ state room' = roundResult
    ∧ currentRound room' = currentRound room
    ∧ images room' = images room
    ∧ settings room' = settings room.
Proof.
  intros Hroom Himg. unfold endRound. rewrite Hroom. cbv zeta.
  cbn [images with_players with_state currentRound]. rewrite Himg.
  cbn. eexists _, _, _, _. split; [reflexivity|].
  split; [apply lookup_insert_eq|]. done.
Qed.

Lemma clear_timer_fresh h h' (l new : list timer) srv :
  timers srv = l ++ new →
  Forall (λ t, (handle t < h)%nat) l → (h ≤ h')%nat →
  timers (clear_timer h' srv)
  = l ++ List.filter (λ t, negb (handle t =? h')%nat) new.
Proof.
  intros Ht Hl Hh. unfold clear_timer. cbn [timers with_timers].
  by rewrite Ht, List.filter_app, (filter_fresh l h h').
Qed.

Ltac nat_tests :=
  cbn [List.filter handle negb];
  repeat first
    [ rewrite Nat.eqb_refl
    | rewrite (proj2 (Nat.eqb_neq _ _)) by lia ];
  cbn [List.filter handle negb].

(** Claim C7, as amended.  [start-game] in a room with exactly one image
    and [totalRounds] of at least 1 (5, say) sets [totalRounds] to 1 and
    schedules the first round.  When the timer of that single round
    fires, the room goes to [roundResult], not to [finished], and the
    next [startRound] is scheduled 5 seconds later as after any other
    round; no [game-over] has been emitted so far.  When that timer
    fires, the room becomes [finished] and exactly one [game-over] is
    emitted. *)
Theorem single_round_cycle srv sid rid room img t0 t1 t2 t3 :
  timers_fresh srv →
  rooms_get srv rid = Some room →
  socket_isHost srv sid = true →
  images room = [img] →
  1 ≤ totalRounds (settings room) →
  let h := next_handle srv in
  ∃ srv1 out1 srv2 out2 srv3 out3 srv4 out4 room1 room2 room3 room4,
    on_start_game sid rid t0 srv = (srv1, out1)
    ∧ store srv1 !! rid = Some room1
    ∧ totalRounds (settings room1) = 1
    ∧ state room1 = playing ∧ currentRound room1 = 0
    ∧ fire h t1 srv1 = Some (srv2, out2)
    ∧ store srv2 !! rid = Some room2
    ∧ state room2 = playing ∧ currentRound room2 = 1
    ∧ fire (S (S h)) t2 srv2 = Some (srv3, out3)
    ∧ store srv3 !! rid = Some room3
    ∧ state room3 = roundResult
    ∧ timers srv3
      = timers srv ++ [{| handle := S (S (S h)); due := t2 + 5000;
                          action := cb_startRound rid |}]
    ∧ List.filter is_game_over (out1 ++ out2 ++ out3) = []
    ∧ fire (S (S (S h))) t3 srv3 = Some (srv4, out4)
    ∧ store srv4 !! rid = Some room4
    ∧ state room4 = finished
    ∧ length (List.filter is_game_over out4) = 1%nat.
Proof.
  intros Hfresh Hroom Hhost Himg Htotal h. unfold timers_fresh in Hfresh.
  fold h in Hfresh.
  (* start-game *)
  destruct (on_start_game_effect sid rid t0 srv room Hroom Hhost)
    as (srv1 & room1 & Hstart & Hst1 & _ & Htm1 & Hnh1 & Hstate1 & Hcr1
        & Himg1 & _ & Htot1); [by rewrite Himg|].
  rewrite Himg in Htot1, Himg1. cbn [length] in Htot1.
  replace (totalRounds (settings room) `min` Z.of_nat 1) with 1 in Htot1
    by lia.
  fold h in Htm1, Hnh1.
  (* the first round starts *)
  assert (Hc1 : timers (clear_timer h srv1) = timers srv).
  { rewrite (clear_timer_fresh h h (timers srv) _ srv1 Htm1) by done.
    nat_tests. by rewrite app_nil_r. }
  destruct (startRound_next rid t1 (clear_timer h srv1) room1 img)
    as (srv2 & room2 & Hround & Hst2 & Htm2 & Hnh2 & Hstate2 & Hcr2 & Himg2
        & Hset2 & _); [done|lia|by rewrite Himg1, Hcr1|].
  rewrite Hc1 in Htm2. cbn [next_handle clear_timer with_timers] in Htm2, Hnh2.
  rewrite Hnh1 in Htm2, Hnh2. rewrite Hcr1 in Hcr2. cbn in Hcr2.
  (* the round ends *)
  assert (Hc2a : timers (clear_timer (S (S h)) srv2)
                 = timers srv ++ [{| handle := S h; due := t1 + 1000;
                                     action := cb_hint rid false false |}]).
  { rewrite (clear_timer_fresh h (S (S h)) (timers srv) _ srv2 Htm2)
      by (done || lia).
    by nat_tests. }
  assert (Hc2 : timers (clear_timer (S h) (clear_timer (S (S h)) srv2))
                = timers srv).
  { rewrite (clear_timer_fresh h (S h) (timers srv) _ _ Hc2a)
      by (done || lia).
    nat_tests. by rewrite app_nil_r. }
  destruct (endRound_schedules rid t2
              (clear_timer (S h) (clear_timer (S (S h)) srv2)) room2 img)
    as (srv3 & room3 & ps & n & Hend & Hst3 & Htm3 & Hnh3 & Hstate3 & Hcr3
        & Himg3 & Hset3); [done|by rewrite Himg2, Himg1, Hcr2|].
  rewrite Hc2 in Htm3. cbn [next_handle clear_timer with_timers] in Htm3, Hnh3.
  rewrite Hnh2 in Htm3, Hnh3.
  (* the timer of the next round fires: the game is over *)
  assert (Hc3 : store (clear_timer (S (S (S h))) srv3) !! rid = Some room3)
    by done.
  destruct (startRound_last rid t3 (clear_timer (S (S (S h))) srv3) room3 Hc3)
    as (srv4 & room4 & ps4 & Hlast & Hst4 & Hstate4 & _).
  { rewrite Hset3, Hset2, Htot1, Hcr3, Hcr2. lia. }
  eexists srv1, _, srv2, _, srv3, _, srv4, _, room1, room2, room3, room4.
  split; [exact Hstart|]. split; [done|]. split; [done|]. split; [done|].
  split; [done|]. split.
  { erewrite (fire_pending _ _ _ h t1 srv1 Htm1) by done.
    exact Hround. }
  split; [done|]. split; [done|]. split; [done|]. split.
  { rewrite (app_assoc _ [_] [_] : _ ++ [_; _] = _) in Htm2.
    erewrite (fire_pending _ _ _ (S (S h)) t2 srv2 Htm2).
    - exact Hend.
    - apply Forall_app. split.
      + eapply Forall_impl; [exact Hfresh|]. simpl. lia.
      + repeat constructor.
    - done. }
  split; [done|]. split; [done|]. split; [exact Htm3|]. split; [done|].
  split.
  { erewrite (fire_pending _ _ _ (S (S (S h))) t3 srv3 Htm3).
    - exact Hlast.
    - eapply Forall_impl; [exact Hfresh|]. simpl. lia.
    - done. }
  done.
Qed.

Lemma single_round_cycle_witness :
  let srv := after single_lobby_trace in
  let room := room_at srv "r1" in
  let img := {| data := "data:1"; img_name := "eiffel.jpg";
                answer := "Eiffel Tower" |} in
  timers_fresh srv
  ∧ rooms_get srv "r1" = Some room
  ∧ socket_isHost srv "H" = true
  ∧ images room = [img]
  ∧ totalRounds (settings room) = 5
  ∧ ∃ srv1 out1 srv2 out2 srv3 out3 room3,
      on_start_game "H" "r1" 10 srv = (srv1, out1)
      ∧ fire 0 2010 srv1 = Some (srv2, out2)
      ∧ fire 2 32010 srv2 = Some (srv3, out3)
      ∧ store srv3 !! "r1" = Some room3
      ∧ state room3 = roundResult.
Proof.
  intros srv room img.
  assert (H1 : timers_fresh srv) by by_compute.
  assert (H2 : rooms_get srv "r1" = Some room) by (vm_compute; reflexivity).
  assert (H3 : socket_isHost srv "H" = true) by (vm_compute; reflexivity).
  assert (H4 : images room = [img]) by (vm_compute; reflexivity).
  assert (H5 : totalRounds (settings room) = 5) by (vm_compute; reflexivity).
  assert (H6 : 1 ≤ totalRounds (settings room)) by (rewrite H5; lia).
  refine (conj H1 (conj H2 (conj H3 (conj H4 (conj H5 _))))).
  destruct (single_round_cycle srv "H" "r1" room img 10 2010 32010 37010
              H1 H2 H3 H4 H6)
    as (srv1 & out1 & srv2 & out2 & srv3 & out3 & srv4 & out4 & room1
        & room2 & room3 & room4 & Ha & _ & _ & _ & _ & Hb & _ & _ & _ & Hc
        & Hd & He & _).
  exists srv1, out1, srv2, out2, srv3, out3, room3.
  assert (Hh : next_handle srv = 0%nat) by (vm_compute; reflexivity).
  rewrite Hh in Hb, Hc. done.
Defined.

(** Claim C7 fails as stated.  In the game of one image, when the timer
    of the single round has fired, the room is in [roundResult] and not
    in [finished], no [game-over] has been emitted, and the one pending
    timer is the [startRound] due 5 seconds later, which cannot fire
    before; once it has fired the room is [finished] and one [game-over]
    has been emitted. *)
Lemma last_round_waits_five_seconds :
  let closed := after single_round_closed_trace in
  totalRounds (settings (room_at closed "r1")) = 1
  ∧ state (room_at closed "r1") = roundResult
  ∧ state (room_at closed "r1") ≠ finished
  ∧ List.filter is_game_over (emitted single_round_closed_trace) = []
  ∧ timers closed = [{| handle := 3; due := 32010 + 5000;
                        action := cb_startRound "r1" |}]
  ∧ admissible (32010 + 4999) (Fire 3) closed = false
  ∧ state (room_at (after single_game_trace) "r1") = finished
  ∧ length (List.filter is_game_over (emitted single_game_trace)) = 1%nat.
Proof.
  cbv zeta. split; [by vm_compute|]. split; [by vm_compute|].
  split; [by vm_compute|]. by vm_compute.
Qed.

End Cycle.

(** ** Invariants of the reachable states *)

Section MapFacts.

Context {V : Type}.
Implicit Types m : list (string * V).

Lemma Map_get_elem k v m : Map_get k m = Some v → (k, v) ∈ m.
Proof.
  unfold Map_get. induction m as [|[k' v'] m IH]; [done|]. simpl.
  destruct (String.eqb_spec k k') as [->|]; simpl.
  - intros [= ->]. left.
  - intros H. right. by apply IH.
Qed.

Lemma elem_Map_keys k v m : (k, v) ∈ m → k ∈ Map_keys m.
Proof.
  intros H. unfold Map_keys. apply list_elem_of_In, in_map_iff.
  exists (k, v). split; [done|]. by apply list_elem_of_In.
Qed.

Lemma elem_Map_set k v k' v' m :
  (k', v') ∈ Map_set k v m → (k', v') = (k, v) ∨ (k', v') ∈ m.
Proof.
  induction m as [|[k0 v0] m IH]; simpl.
  - intros ->%list_elem_of_singleton. by left.
  - destruct (String.eqb k k0).
    + intros [->|H]%elem_of_cons; [by left|]. right. by right.
    + intros [->|H]%elem_of_cons; [right; left|].
      destruct (IH H); [by left|]. right. by right.
Qed.

Lemma keys_Map_set k v k' m :
  k' ∈ Map_keys m → k' ∈ Map_keys (Map_set k v m).
Proof.
  unfold Map_keys. induction m as [|[k0 v0] m IH]; simpl.
  - by intros ?%elem_of_nil.
  - destruct (String.eqb_spec k k0) as [->|]; simpl; [done|].
    intros [->|H]%elem_of_cons; [left|]. right. by apply IH.
Qed.

Lemma elem_Map_delete k k' v' m : (k', v') ∈ Map_delete k m → (k', v') ∈ m.
Proof.
  unfold Map_delete. intros H%list_elem_of_In%filter_In.
  apply list_elem_of_In. tauto.
Qed.

Lemma keys_Map_delete k k' m :
  k' ∈ Map_keys m → k' ≠ k → k' ∈ Map_keys (Map_delete k m).
Proof.
  unfold Map_keys, Map_delete.
  intros ([k0 v0] & <- & H)%list_elem_of_In%in_map_iff Hne.
  apply list_elem_of_In, in_map_iff. exists (k0, v0). split; [done|].
  apply filter_In. split; [done|]. simpl in *.
  by rewrite (proj2 (String.eqb_neq k k0)).
Qed.

Lemma Map_keys_map (f : string * V → string * V) m :
  (∀ kv, (f kv).1 = kv.1) → Map_keys (map f m) = Map_keys m.
Proof.
  intros Hf. unfold Map_keys. rewrite map_map. apply map_ext. exact Hf.
Qed.

Lemma keys_Map_set_inv k v k' m :
  k' ∈ Map_keys (Map_set k v m) → k' = k ∨ k' ∈ Map_keys m.
Proof.
  unfold Map_keys. induction m as [|[k0 v0] m IH]; simpl.
  - intros ->%list_elem_of_singleton. by left.
  - destruct (String.eqb_spec k k0) as [->|]; simpl.
    + intros [->|H]%elem_of_cons; [by left|]. right. by right.
    + intros [->|H]%elem_of_cons; [right; left|].
      destruct (IH H); [by left|]. right. by right.
Qed.

Lemma NoDup_Map_set k v m :
  NoDup (Map_keys m) → NoDup (Map_keys (Map_set k v m)).
Proof.
  induction m as [|[k0 v0] m IH]; simpl.
  - intros _. apply NoDup_singleton.
  - intros [Hk0 Hm]%NoDup_cons.
    destruct (String.eqb_spec k k0) as [->|Hne]; simpl.
    + by apply NoDup_cons.
    + apply NoDup_cons. split; [|by apply IH].
      intros [->|H]%keys_Map_set_inv; [done|]. by apply Hk0.
Qed.

Lemma NoDup_Map_delete k m :
  NoDup (Map_keys m) → NoDup (Map_keys (Map_delete k m)).
Proof.
  unfold Map_delete. induction m as [|[k0 v0] m IH]; simpl; [done|].
  intros [Hk0 Hm]%NoDup_cons.
  destruct (String.eqb k k0); simpl; [by apply IH|].
  apply NoDup_cons. split; [|by apply IH].
  intros ([k1 v1] & Heq & Hin%filter_In)%list_elem_of_In%in_map_iff.
  simpl in Heq. subst k1. apply Hk0, list_elem_of_In, in_map_iff.
  exists (k0, v1). split; [done|]. tauto.
Qed.

End MapFacts.

Section GameOk.

Implicit Types closed : string → Prop.
Implicit Types answered : gset string.
Implicit Types ps : list (string * player).

Lemma game_ok_mono closed closed' answered ps cr :
  (∀ s, closed s → closed' s) →
  game_ok closed answered ps cr → game_ok closed' answered ps cr.
Proof.
  intros Hc [H1 H2]. split; [|done]. intros sid Hs.
  destruct (H1 sid Hs); [by left|right; auto].
Qed.

Lemma game_ok_join closed answered ps cr sid name :
  game_ok closed answered ps cr →
  game_ok closed answered (Map_set sid (new_player sid name) ps) cr.
Proof.
  intros [H1 H2]. split.
  - intros s Hs. destruct (H1 s Hs); [left|by right].
    by apply keys_Map_set.
  - intros s p [[= -> ->]|Hin]%elem_Map_set; [|by apply H2].
    simpl. split; [by intros e ?%elem_of_nil|].
    split; [by intros e ?%elem_of_nil|]. constructor.
Qed.

Lemma game_ok_start_game closed answered ps cr :
  game_ok closed answered ps cr →
  game_ok closed answered (map (λ kv, (kv.1, reset_player kv.2)) ps) 0.
Proof.
  intros [H1 H2]. split.
  - intros s Hs. rewrite Map_keys_map by done. by apply H1.
  - intros s p ([k p0] & [= <- <-] & _)%list_elem_of_In%in_map_iff.
    simpl. split; [by intros e ?%elem_of_nil|].
    split; [by intros e ?%elem_of_nil|]. constructor.
Qed.

Lemma game_ok_next closed answered ps cr :
  game_ok closed answered ps cr → game_ok closed ∅ ps (cr + 1).
Proof.
  intros [H1 H2]. split; [by intros s Hs%elem_of_empty|].
  intros s p Hin. destruct (H2 s p Hin) as (Ha & Hb & Hc).
  split; [|split; [|done]].
  - intros e He. specialize (Ha e He). lia.
  - intros e He _ Hr. specialize (Ha e He). lia.
Qed.

Lemma game_ok_last closed answered ps cr :
  game_ok closed answered ps cr → game_ok closed answered ps (cr + 1).
Proof.
  intros [H1 H2]. split; [done|].
  intros s p Hin. destruct (H2 s p Hin) as (Ha & Hb & Hc).
  split; [|split; [|done]].
  - intros e He. specialize (Ha e He). lia.
  - intros e He _ Hr. specialize (Ha e He). lia.
Qed.

Lemma game_ok_disconnect closed closed' answered ps cr sid :
  (∀ s, closed s → closed' s) → closed' sid →
  game_ok closed answered ps cr →
  game_ok closed' answered (Map_delete sid ps) cr.
Proof.
  intros Hc Hsid [H1 H2]. split.
  - intros s Hs. destruct (decide (s = sid)) as [->|Hne]; [by right|].
    destruct (H1 s Hs); [left|right; auto]. by apply keys_Map_delete.
  - intros s p Hin%elem_Map_delete. by apply H2.
Qed.

Lemma scored_rounds_app_false (p : player) e :
  correct e = false →
  map round (List.filter correct (answers p ++ [e])) = scored_rounds p.
Proof.
  intros He. unfold scored_rounds.
  rewrite List.filter_app. simpl. rewrite He. by rewrite app_nil_r.
Qed.

Lemma game_ok_endRound closed (r : room) :
  game_ok closed (roundAnswered r) (players r) (currentRound r) →
  game_ok closed (roundAnswered r) (map (mark_unanswered r) (players r))
          (currentRound r).
Proof.
  intros [H1 H2]. split.
  - intros s Hs. rewrite Map_keys_map; [by apply H1|].
    intros [k p]. rewrite mark_unanswered_eq. done.
  - intros s p ([k p0] & Heq & Hin)%list_elem_of_In%in_map_iff.
    rewrite mark_unanswered_eq in Heq. simplify_eq.
    apply list_elem_of_In in Hin. destruct (H2 _ p0 Hin) as (Ha & Hb & Hc).
    case_decide; [done|]. unfold unanswered, scored_rounds. cbn [answers].
    split; [|split].
    + intros e [He| ->%list_elem_of_singleton]%elem_of_app; [by apply Ha|].
      simpl. lia.
    + intros e [He| ->%list_elem_of_singleton]%elem_of_app; [by apply Hb|].
      done.
    + by rewrite (scored_rounds_app_false p0).
Qed.

Lemma game_ok_submit closed answered ps cr sid (p : player) pts t q stk :
  game_ok closed answered ps cr →
  Map_get sid ps = Some p →
  sid ∉ answered →
  game_ok closed ({[sid]} ∪ answered)
    (Map_set sid
       {| player_id := player_id p; player_name := player_name p;
          score := (score p + pts)%float;
          answers := answers p
                     ++ [{| round := cr; correct := true; points := pts;
                            time := t; matchQuality := q |}];
          streak := stk |} ps) cr.
Proof.
  intros [H1 H2] Hp Hna. apply Map_get_elem in Hp as Hin. split.
  - intros s [->%elem_of_singleton|Hs]%elem_of_union.
    + left. apply keys_Map_set. by eapply elem_Map_keys.
    + destruct (H1 s Hs); [left|by right]. by apply keys_Map_set.
  - intros s p' [[= -> ->]|Hin']%elem_Map_set.
    + destruct (H2 sid p Hin) as (Ha & Hb & Hc). cbn [answers].
      split; [|split].
      * intros e [He| ->%list_elem_of_singleton]%elem_of_app;
          [by apply Ha|]. simpl. lia.
      * intros _ _ _ _. apply elem_of_union. left. by apply elem_of_singleton.
      * unfold scored_rounds. cbn [answers].
        rewrite List.filter_app, map_app. simpl.
        apply NoDup_app. split; [done|]. split; [|apply NoDup_singleton].
        intros z Hz ->%list_elem_of_singleton. apply Hna.
        apply list_elem_of_In, in_map_iff in Hz as (e & Hr & He).
        apply filter_In in He as [He Hcor].
        apply (Hb e); [by apply list_elem_of_In|done..].
    + destruct (H2 s p' Hin') as (Ha & Hb & Hc).
      split; [done|]. split; [|done]. intros e He Hcor Hr.
      apply elem_of_union. right. by apply (Hb e).
Qed.

End GameOk.

Section Reachable.

Implicit Types srv : server.
Implicit Types sid rid : string.

Lemma closed_insert_connected srv sid s0 s :
  socket_connected srv sid = true ∨ sockets srv !! sid = None →
  socket_closed srv s →
  ∃ x, <[sid := s0]> (sockets srv) !! s = Some x ∧ connected x = false.
Proof.
  intros Hsid (x & Hx & Hc). exists x. split; [|done].
  rewrite lookup_insert_ne; [done|]. intros ->.
  unfold socket_connected in Hsid. rewrite Hx in Hsid.
  destruct Hsid; congruence.
Qed.

(** A closed connection stays closed. *)
Lemma step_closed_mono now i srv srv' out :
  admissible now i srv = true →
  step now i srv = Some (srv', out) →
  ∀ s, socket_closed srv s → socket_closed srv' s.
Proof.
  intros Hadm Hstep s Hs. apply andb_true_iff in Hadm as [_ Hadm].
  destruct i; simpl in Hstep, Hadm.
  - simplify_eq. apply bool_decide_eq_true in Hadm.
    apply closed_insert_connected; auto.
  - simplify_eq. exact Hs.
  - unfold api_upload, rooms_get in Hstep. crunch; exact Hs.
  - unfold api_settings, rooms_get in Hstep. crunch; exact Hs.
  - unfold api_delete_image, rooms_get in Hstep. crunch; exact Hs.
  - unfold on_host_join, rooms_get in Hstep. crunch; try exact Hs;
      apply closed_insert_connected; auto.
  - unfold on_player_join, rooms_get in Hstep. crunch; try exact Hs;
      apply closed_insert_connected; auto.
  - unfold on_start_game, rooms_get in Hstep. crunch; exact Hs.
  - unfold on_submit_guess, rooms_get in Hstep. crunch; exact Hs.
  - unfold on_disconnect, rooms_get in Hstep.
    assert (H : ∀ ro ho,
              ∃ x, <[sid := {| sock_roomId := ro; isHost := ho;
                               connected := false |}]>
                     (sockets srv) !! s = Some x ∧ connected x = false).
    { intros ro ho. destruct (decide (s = sid)) as [->|].
      - eexists. by rewrite lookup_insert_eq.
      - rewrite lookup_insert_ne by done. exact Hs. }
    crunch; first [exact Hs|apply H].
  - unfold fire, startRound, endRound, endGame, hint_tick in Hstep.
    crunch; exact Hs.
  - simplify_eq. unfold socket_closed, sweep. cbn [sockets with_rooms].
    destruct Hs as (x & Hx & Hc). exists x. split; [|done].
    induction (List.filter _ _) as [|rid l IH]; [done|]. cbn [foldr].
    destruct (store _ !! rid) as [room|]; [|done].
    by destruct (roundTimer room).
Qed.

(** A room that the step has not touched. *)
Lemma room_ok_mono srv srv' r :
  (∀ s, socket_closed srv s → socket_closed srv' s) →
  room_ok srv r → room_ok srv' r.
Proof. intros Hm. by apply game_ok_mono. Qed.

Ltac ok_rooms Hok Hmono :=
  let rid0 := fresh "rid0" in
  let r0 := fresh "r0" in
  let H0 := fresh "H0" in
  intros rid0 r0 H0; cbn in H0; split_lookup; simplify_eq;
  unfold room_ok; (eapply game_ok_mono; [exact Hmono|]); cbn;
  try (by eapply Hok).

Lemma step_ok now i srv srv' out :
  server_ok srv →
  admissible now i srv = true →
  step now i srv = Some (srv', out) →
  server_ok srv'.
Proof.
  intros Hok Hadm Hstep.
  pose proof (step_closed_mono now i srv srv' out Hadm Hstep) as Hmono.
  unfold server_ok, room_ok in Hok.
  destruct i; simpl in Hstep.
  - simplify_eq. ok_rooms Hok Hmono.
  - simplify_eq. ok_rooms Hok Hmono.
    split; [by intros s Hs%elem_of_empty|]. by intros s p Hin%elem_of_nil.
  - unfold api_upload, rooms_get in Hstep. crunch; ok_rooms Hok Hmono.
  - unfold api_settings, rooms_get in Hstep. crunch; ok_rooms Hok Hmono.
  - unfold api_delete_image, rooms_get in Hstep. crunch; ok_rooms Hok Hmono.
  - unfold on_host_join, rooms_get in Hstep. crunch; ok_rooms Hok Hmono.
  - unfold on_player_join, rooms_get in Hstep.
    crunch; ok_rooms Hok Hmono; apply game_ok_join; by eapply Hok.
  - unfold on_start_game, rooms_get in Hstep. crunch; ok_rooms Hok Hmono.
    eapply game_ok_start_game. by eapply Hok.
  - unfold on_submit_guess, rooms_get in Hstep. crunch; ok_rooms Hok Hmono.
    apply game_ok_submit; [by eapply Hok|done|].
    match goal with
    | H : bool_decide (_ ∈ _) = false |- _ =>
        by apply bool_decide_eq_false_1 in H
    end.
  - unfold on_disconnect, rooms_get in Hstep. crunch;
      intros rid0 r0 H0; cbn in H0; split_lookup; simplify_eq;
      unfold room_ok;
      try (eapply game_ok_mono; [exact Hmono|]; by eapply Hok).
    cbn. eapply game_ok_disconnect; [exact Hmono| |by eapply Hok].
    eexists. split; [cbn; apply lookup_insert_eq|done].
  - unfold fire in Hstep. destruct (find _ _) as [t|]; [|by ok_rooms Hok Hmono].
    destruct (action t) as [rid|rid hintInterval|rid fl wc].
    + unfold startRound, endGame in Hstep. crunch; ok_rooms Hok Hmono;
        first [ apply game_ok_last; by eapply Hok
              | eapply game_ok_next; by eapply Hok ].
    + unfold endRound in Hstep. crunch; ok_rooms Hok Hmono.
      match goal with
      | H : store _ !! _ = Some ?r |- _ =>
          apply (game_ok_endRound _ (with_state roundResult r)); cbn;
          by eapply Hok
      end.
    + unfold hint_tick in Hstep. crunch; ok_rooms Hok Hmono.
  - simplify_eq. intros rid r Hr. rewrite sweep_store in Hr.
    eapply game_ok_mono; [exact Hmono|]. by eapply Hok.
Qed.

Ltac keys_rooms Hok :=
  let rid0 := fresh "rid0" in
  let r0 := fresh "r0" in
  let H0 := fresh "H0" in
  intros rid0 r0 H0; cbn in H0; split_lookup; simplify_eq;
  cbn -[Map_keys]; try (by eapply Hok).

Lemma step_keys_ok now i srv srv' out :
  keys_ok srv → step now i srv = Some (srv', out) → keys_ok srv'.
Proof.
  intros Hok Hstep. unfold keys_ok in Hok.
  destruct i; simpl in Hstep.
  - simplify_eq. keys_rooms Hok.
  - simplify_eq. keys_rooms Hok. constructor.
  - unfold api_upload, rooms_get in Hstep. crunch; keys_rooms Hok.
  - unfold api_settings, rooms_get in Hstep. crunch; keys_rooms Hok.
  - unfold api_delete_image, rooms_get in Hstep. crunch; keys_rooms Hok.
  - unfold on_host_join, rooms_get in Hstep. crunch; keys_rooms Hok.
  - unfold on_player_join, rooms_get in Hstep.
    crunch; keys_rooms Hok; apply NoDup_Map_set; by eapply Hok.
  - unfold on_start_game, rooms_get in Hstep. crunch; keys_rooms Hok.
    rewrite Map_keys_map by done. by eapply Hok.
  - unfold on_submit_guess, rooms_get in Hstep. crunch; keys_rooms Hok.
    apply NoDup_Map_set. by eapply Hok.
  - unfold on_disconnect, rooms_get in Hstep. crunch; keys_rooms Hok.
    apply NoDup_Map_delete. by eapply Hok.
  - unfold fire, startRound, endRound, endGame, hint_tick in Hstep.
    crunch; keys_rooms Hok.
    rewrite Map_keys_map; [by eapply Hok|].
    intros [k p]. by rewrite mark_unanswered_eq.
  - simplify_eq. intros rid r Hr. rewrite sweep_store in Hr. by eapply Hok.
Qed.

Lemma reachable_keys_ok srv : reachable srv → keys_ok srv.
Proof.
  induction 1 as [|srv now i srv' out _ IH Hadm Hstep].
  - by intros rid r Hr.
  - by eapply step_keys_ok.
Qed.

Lemma reachable_ok srv : reachable srv → server_ok srv.
Proof.
  induction 1 as [|srv now i srv' out _ IH Hadm Hstep].
  - by intros rid r Hr.
  - by eapply step_ok.
Qed.

Lemma run_reachable trace srv srv' out :
  reachable srv → run trace srv = Some (srv', out) → reachable srv'.
Proof.
  revert srv out. induction trace as [|[now i] trace IH]; intros srv out Hr.
  - by intros [= <- _].
  - simpl. destruct (admissible now i srv) eqn:Hadm; [|done].
    destruct (step now i srv) as [[srv1 out1]|] eqn:Hstep; [|done].
    destruct (run trace srv1) as [[srv2 out2]|] eqn:Hrun; [|done].
    intros [= <- _]. eapply IH; [|exact Hrun].
    by eapply reachable_step.
Qed.

Lemma after_reachable trace : reachable (after trace).
Proof.
  unfold after.
  destruct (run trace init_server) as [[srv out]|] eqn:Hrun.
  - eapply run_reachable; [apply reachable_init|exact Hrun].
  - apply reachable_init.
Qed.

Lemma closed_not_connected srv sid :
  socket_closed srv sid → socket_connected srv sid = false.
Proof. intros (s & Hs & Hc). unfold socket_connected. by rewrite Hs. Qed.

Lemma size_list_to_set_le (l : list string) :
  (size (list_to_set l : gset string) ≤ length l)%nat.
Proof.
  induction l as [|x l IH].
  - by rewrite list_to_set_nil, size_empty.
  - rewrite list_to_set_cons, size_union_alt, size_singleton.
    assert (Hle : (size (list_to_set l ∖ {[x]} : gset string)
                   ≤ size (list_to_set l : gset string))%nat)
      by (apply subseteq_size, subseteq_difference_l; reflexivity).
    cbn [length]. lia.
Qed.

Lemma size_keys_le (X : gset string) (ps : list (string * player)) :
  (∀ sid, sid ∈ X → sid ∈ Map_keys ps) → (size X ≤ length ps)%nat.
Proof.
  intros HX.
  transitivity (size (list_to_set (Map_keys ps) : gset string)).
  - apply subseteq_size. intros sid Hsid. apply elem_of_list_to_set. auto.
  - etransitivity; [apply size_list_to_set_le|].
    unfold Map_keys. by rewrite length_map.
Qed.

(** Claim C4, as amended.  In every reachable state and for every room:
    the keys of [players] are distinct; an identifier in [roundAnswered]
    is the key of a registered player or the identifier of a connection
    that has closed, so the size of [roundAnswered] is at most the number
    of registered players as long as every connection in it is open; and
    no player has two scored ([correct: true]) entries of [answers] for
    the same round. *)
Theorem answered_and_histories srv rid room :
  reachable srv →
  store srv !! rid = Some room →
  NoDup (Map_keys (players room))
  ∧ (∀ sid, sid ∈ roundAnswered room →
            sid ∈ Map_keys (players room) ∨ socket_closed srv sid)
  ∧ ((∀ sid, sid ∈ roundAnswered room → socket_connected srv sid = true) →
     (size (roundAnswered room) ≤ length (players room))%nat)
  ∧ (∀ sid p, Map_get sid (players room) = Some p →
              NoDup (scored_rounds p)).
Proof.
  intros Hreach Hroom.
  destruct (reachable_ok srv Hreach rid room Hroom) as [Hans Hps].
  split; [by eapply reachable_keys_ok|].
  split; [exact Hans|split].
  - intros Hopen. apply size_keys_le. intros sid Hsid.
    destruct (Hans sid Hsid) as [Hin|Hcl]; [done|].
    apply closed_not_connected in Hcl. rewrite (Hopen sid Hsid) in Hcl.
    done.
  - intros sid p Hp%Map_get_elem. by apply (Hps sid p Hp).
Qed.

Lemma answered_and_histories_witness :
  let srv := after answered_trace in
  let room := room_at srv "r1" in
  reachable srv
  ∧ store srv !! "r1"%string = Some room
  ∧ roundAnswered room = {[ "P"%string ]}
  ∧ (size (roundAnswered room) ≤ length (players room))%nat
  ∧ NoDup (scored_rounds (player_at room "P")).
Proof.
  intros srv room.
  pose proof (after_reachable answered_trace) as H1.
  assert (H2 : store srv !! "r1"%string = Some room)
    by (vm_compute; reflexivity).
  assert (H3 : roundAnswered room = {[ "P"%string ]})
    by (vm_compute; reflexivity).
  assert (H4 : socket_connected srv "P" = true) by (vm_compute; reflexivity).
  assert (H5 : Map_get "P" (players room) = Some (player_at room "P"))
    by (vm_compute; reflexivity).
  destruct (answered_and_histories srv "r1" room H1 H2)
    as (_ & _ & Hsize & Hnd).
  refine (conj H1 (conj H2 (conj H3 (conj _ _)))).
  - apply Hsize. intros sid Hsid. rewrite H3 in Hsid.
    apply elem_of_singleton in Hsid. by rewrite Hsid.
  - exact (Hnd "P"%string _ H5).
Defined.

(** Claim C4 as stated fails on both counts.  A player who has answered
    and then disconnects is deleted from [players] but stays in
    [roundAnswered]: the set has one element and the room no player.
    And after two [start-game] in a row, the two [endRound] timers both
    run in round 2 and each appends an entry for round 2 to the history
    of every player who has not answered. *)
Lemma answered_outlives_player :
  let srv := after left_trace in
  let room := room_at srv "r1" in
  let srv2 := after double_start_trace in
  let room2 := room_at srv2 "r1" in
  (reachable srv
   ∧ store srv !! "r1"%string = Some room
   ∧ size (roundAnswered room) = 1%nat
   ∧ length (players room) = 0%nat)
  ∧ (reachable srv2
     ∧ store srv2 !! "r1"%string = Some room2
     ∧ Map_get "P" (players room2) = Some (player_at room2 "P")
     ∧ map round (answers (player_at room2 "P")) = [2; 2]).
Proof.
  intros srv room srv2 room2.
  pose proof (after_reachable left_trace) as H1.
  assert (H2 : store srv !! "r1"%string = Some room)
    by (vm_compute; reflexivity).
  assert (H3 : size (roundAnswered room) = 1%nat)
    by (vm_compute; reflexivity).
  assert (H4 : length (players room) = 0%nat) by (vm_compute; reflexivity).
  pose proof (after_reachable double_start_trace) as H5.
  assert (H6 : store srv2 !! "r1"%string = Some room2)
    by (vm_compute; reflexivity).
  assert (H7 : Map_get "P" (players room2) = Some (player_at room2 "P"))
    by (vm_compute; reflexivity).
  assert (H8 : map round (answers (player_at room2 "P")) = [2; 2])
    by (vm_compute; reflexivity).
  exact (conj (conj H1 (conj H2 (conj H3 H4)))
              (conj H5 (conj H6 (conj H7 H8)))).
Qed.

End Reachable.

(** ** [levenshtein] is a metric on strings *)

Section Metric.

Implicit Types a b c : jsstring.

Lemma edit_sym a b n : edit a b n → edit b a n.
Proof. induction 1; by constructor. Qed.

Lemma edit_refl a : edit a a 0.
Proof. induction a; by constructor. Qed.

Lemma edit_zero a b n : edit a b n → n = 0%nat → a = b.
Proof.
  induction 1 as [|x a b n _ IH| | |]; intros Hn; try done.
  by rewrite IH.
Qed.

Lemma edit_length a b n :
  edit a b n → (length a ≤ length b + n ∧ length b ≤ length a + n)%nat.
Proof. induction 1; simpl; lia. Qed.

(** Substitute along the shorter text, then insert or delete the rest. *)
Lemma edit_max a : ∀ b, edit a b (Nat.max (length a) (length b)).
Proof.
  induction a as [|x a IH]; intros b.
  - induction b as [|y b IHb]; [constructor|]. by apply edit_insert.
  - destruct b as [|y b].
    + specialize (IH []). rewrite Nat.max_0_r in IH.
      by apply edit_delete.
    + apply edit_subst, IH.
Qed.

(** Two scripts in a row are done by one that costs no more. *)
Lemma edit_trans a b n :
  edit a b n →
  ∀ c m, edit b c m → ∃ k, (k ≤ n + m)%nat ∧ edit a c k.
Proof.
  induction 1 as [|x a b n _ IH|x y a b n _ IH|x a b n _ IH|y a b n _ IH];
    intros c m Hbc.
  - eauto.
  - remember (x :: b) as b' eqn:Eb.
    induction Hbc as [|z b0 c m Hbc _|z z' b0 c m Hbc _|z b0 c m Hbc _
                     |z b0 c m Hbc IHin]; simplify_eq.
    + destruct (IH _ _ Hbc) as (k & Hk & He).
      exists k. split; [lia|by constructor].
    + destruct (IH _ _ Hbc) as (k & Hk & He).
      exists (S k). split; [lia|by constructor].
    + destruct (IH _ _ Hbc) as (k & Hk & He).
      exists (S k). split; [lia|by constructor].
    + destruct (IHin eq_refl) as (k & Hk & He).
      exists (S k). split; [lia|by constructor].
  - remember (y :: b) as b' eqn:Eb.
    induction Hbc as [|z b0 c m Hbc _|z z' b0 c m Hbc _|z b0 c m Hbc _
                     |z b0 c m Hbc IHin]; simplify_eq.
    + destruct (IH _ _ Hbc) as (k & Hk & He).
      exists (S k). split; [lia|by constructor].
    + destruct (IH _ _ Hbc) as (k & Hk & He).
      exists (S k). split; [lia|by constructor].
    + destruct (IH _ _ Hbc) as (k & Hk & He).
      exists (S k). split; [lia|by constructor].
    + destruct (IHin eq_refl) as (k & Hk & He).
      exists (S k). split; [lia|by constructor].
  - destruct (IH _ _ Hbc) as (k & Hk & He).
    exists (S k). split; [lia|by constructor].
  - remember (y :: b) as b' eqn:Eb.
    induction Hbc as [|z b0 c m Hbc _|z z' b0 c m Hbc _|z b0 c m Hbc _
                     |z b0 c m Hbc IHin]; simplify_eq.
    + destruct (IH _ _ Hbc) as (k & Hk & He).
      exists (S k). split; [lia|by constructor].
    + destruct (IH _ _ Hbc) as (k & Hk & He).
      exists (S k). split; [lia|by constructor].
    + destruct (IH _ _ Hbc) as (k & Hk & He).
      exists k. split; [lia|done].
    + destruct (IHin eq_refl) as (k & Hk & He).
      exists (S k). split; [lia|by constructor].
Qed.

(** Property X1.  The distance does not depend on the order of its
    arguments: [levenshtein a b] is [levenshtein b a]. *)
Theorem levenshtein_symmetric a b : levenshtein a b = levenshtein b a.
Proof.
  rewrite !levenshtein_lev.
  apply Nat.le_antisymm; apply lev_least, edit_sym, lev_edit.
Qed.

(** Property X2.  The distance is 0 exactly when the two strings are the
    same. *)
Theorem levenshtein_zero_iff a b : levenshtein a b = 0%nat ↔ a = b.
Proof.
  rewrite levenshtein_lev. split.
  - intros H. pose proof (lev_edit a b) as He. by eapply edit_zero.
  - intros ->. pose proof (lev_least b b 0 (edit_refl b)). lia.
Qed.

(** Property X3.  The distance lies between the difference of the two
    lengths and the greater of them; against the empty string it is the
    length of the other string. *)
Theorem levenshtein_bounds a b :
  (Nat.max (length a) (length b) - Nat.min (length a) (length b)
   ≤ levenshtein a b ≤ Nat.max (length a) (length b))%nat
  ∧ levenshtein [] b = length b
  ∧ levenshtein a [] = length a.
Proof.
  rewrite !levenshtein_lev. split; [split|].
  - pose proof (edit_length _ _ _ (lev_edit a b)). lia.
  - apply lev_least, edit_max.
  - by rewrite lev_nil_l, lev_nil_r.
Qed.

(** Property X4.  The triangle inequality: going through a third string
    is never shorter. *)
Theorem levenshtein_triangle a b c :
  (levenshtein a c ≤ levenshtein a b + levenshtein b c)%nat.
Proof.
  rewrite !levenshtein_lev.
  destruct (edit_trans _ _ _ (lev_edit a b) _ _ (lev_edit b c))
    as (k & Hk & He).
  pose proof (lev_least _ _ _ He). lia.
Qed.

End Metric.

(** ** More on [checkAnswer] *)

Section Matching.

Implicit Types g c s : jsstring.

Lemma startsWith_refl s : startsWith s s = true.
Proof. induction s as [|x s IH]; simpl; [done|]. by rewrite Ascii.eqb_refl. Qed.

Lemma includes_refl s : includes s s = true.
Proof.
  destruct s; simpl; [done|]. by rewrite Ascii.eqb_refl, startsWith_refl.
Qed.

Lemma includes_nil_l c : includes [] c = true → c = [].
Proof. by destruct c. Qed.

Lemma nonempty_map {A B} (f : A → B) (l : list A) :
  nonempty (map f l) = nonempty l.
Proof. by destruct l. Qed.

(** Property X5.  Letter case does not count: two guesses, or two
    answers, that have the same lower-case form get the same quality. *)
Theorem checkAnswer_ignores_case (guess guess' answer answer' : string) :
  toLowerCase (js guess) = toLowerCase (js guess') →
  toLowerCase (js answer) = toLowerCase (js answer') →
  checkAnswer guess answer = checkAnswer guess' answer'.
Proof.
  intros Hg Hc. unfold checkAnswer, normalize.
  rewrite <- (nonempty_map lower_char (js guess)).
  rewrite <- (nonempty_map lower_char (js answer)).
  rewrite <- (nonempty_map lower_char (js guess')).
  rewrite <- (nonempty_map lower_char (js answer')).
  fold (toLowerCase (js guess)) (toLowerCase (js answer))
       (toLowerCase (js guess')) (toLowerCase (js answer')).
  by rewrite Hg, Hc.
Qed.

Lemma checkAnswer_ignores_case_witness :
  toLowerCase (js "EIFFEL tower") = toLowerCase (js "eiffel TOWER")
  ∧ toLowerCase (js "Taj Mahal") = toLowerCase (js "TAJ MAHAL")
  ∧ checkAnswer "EIFFEL tower" "Taj Mahal"
    = checkAnswer "eiffel TOWER" "TAJ MAHAL".
Proof.
  assert (H1 : toLowerCase (js "EIFFEL tower")
               = toLowerCase (js "eiffel TOWER")) by reflexivity.
  assert (H2 : toLowerCase (js "Taj Mahal") = toLowerCase (js "TAJ MAHAL"))
    by reflexivity.
  exact (conj H1 (conj H2 (checkAnswer_ignores_case _ _ _ _ H1 H2))).
Defined.

(** Property X6.  The quality is 1 exactly when the normalised answer is
    not empty and the normalised guess contains it (being equal to it
    included): no other rule of [checkAnswer] gives 1. *)
Theorem checkAnswer_one_iff_contains (guess answer : string) :
  checkAnswer guess answer = 1%float
  ↔ normalize (js answer) ≠ []
    ∧ includes (normalize (js guess)) (normalize (js answer)) = true.
Proof.
  unfold checkAnswer.
  set (g := normalize (js guess)). set (c := normalize (js answer)).
  split.
  - destruct (negb (nonempty (js guess)) || negb (nonempty (js answer)));
      [intros H; float_discr H|].
    destruct (nonempty g) eqn:Hg; [|intros H; float_discr H].
    destruct (nonempty c) eqn:Hc; [|intros H; float_discr H].
    cbn [negb orb]. intros H. split; [by apply nonempty_true|].
    unfold checkNormalized in H. cbv zeta in H.
    destruct (str_eqb g c) eqn:He.
    { apply bool_decide_eq_true in He. rewrite He. apply includes_refl. }
    destruct (includes g c); [done|].
    repeat match type of H with
           | context [if ?b then _ else _] => destruct b
           end; float_discr H.
  - intros [Hc Hin].
    assert (Hg : g ≠ []).
    { intros Hg. rewrite Hg in Hin. by apply includes_nil_l in Hin. }
    assert (Hjg : nonempty (js guess) = true).
    { destruct (js guess) eqn:E; [|done]. exfalso. apply Hg.
      subst g. by rewrite ?E. }
    assert (Hjc : nonempty (js answer) = true).
    { destruct (js answer) eqn:E; [|done]. exfalso. apply Hc.
      subst c. by rewrite ?E. }
    rewrite Hjg, Hjc. cbn [negb orb].
    destruct g as [|x g'] eqn:Eg; [done|].
    destruct c as [|y c'] eqn:Ec; [done|]. cbn [nonempty negb orb].
    unfold checkNormalized. rewrite Hin.
    by destruct (str_eqb _ _).
Qed.

(** Property X7.  A piece of the answer is accepted: when the normalised
    guess is not empty, occurs in the normalised answer and has at least
    0.4 times its length, the quality is above 0. *)
Theorem checkAnswer_substring_accepted (guess answer : string) :
  let g := normalize (js guess) in
  let c := normalize (js answer) in
  g ≠ [] →
  includes c g = true →
  num_ge (num_of_nat (length g)) (num_of_nat (length c) * 0.4) = true →
  num_gt (checkAnswer guess answer) 0 = true.
Proof.
  intros g c Hg Hin Hlen. unfold checkAnswer. fold g c.
  assert (Hc : c ≠ []).
  { intros Hc. rewrite Hc in Hin. destruct g; [done|]. done. }
  assert (Hjg : nonempty (js guess) = true).
  { destruct (js guess) eqn:E; [|done]. exfalso. apply Hg.
      subst g. by rewrite ?E. }
  assert (Hjc : nonempty (js answer) = true).
  { destruct (js answer) eqn:E; [|done]. exfalso. apply Hc.
      subst c. by rewrite ?E. }
  rewrite Hjg, Hjc. cbn [negb orb].
  destruct (nonempty g) eqn:Eg; [|by destruct g].
  destruct (nonempty c) eqn:Ec; [|by destruct c].
  cbn [negb orb]. unfold checkNormalized. cbv zeta.
  rewrite Hin, Hlen. cbn [andb].
  repeat match goal with
         | |- context [if ?b then _ else _] => destruct b
         end; reflexivity.
Qed.

Lemma checkAnswer_substring_accepted_witness :
  let g := normalize (js "Tower") in
  let c := normalize (js "Eiffel Tower") in
  g ≠ []
  ∧ includes c g = true
  ∧ num_ge (num_of_nat (length g)) (num_of_nat (length c) * 0.4) = true
  ∧ num_gt (checkAnswer "Tower" "Eiffel Tower") 0 = true.
Proof.
  intros g c.
  assert (H1 : g ≠ []) by (vm_compute; discriminate).
  assert (H2 : includes c g = true) by (vm_compute; reflexivity).
  assert (H3 : num_ge (num_of_nat (length g)) (num_of_nat (length c) * 0.4)
               = true) by (vm_compute; reflexivity).
  exact (conj H1 (conj H2 (conj H3
           (checkAnswer_substring_accepted "Tower" "Eiffel Tower" H1 H2 H3)))).
Defined.

End Matching.

(** ** The REST endpoints and the registry *)

Section Registry.

Lemma put_room_same srv rid room :
  store srv !! rid = Some room → put_room rid room srv = srv.
Proof.
  intros H. unfold put_room, with_store. rewrite insert_id by done.
  by destruct srv.
Qed.

Lemma put_room_twice srv rid room room' :
  put_room rid room (put_room rid room' srv) = put_room rid room srv.
Proof. unfold put_room, with_store. simpl. by rewrite insert_insert_eq. Qed.

Lemma rooms_get_put_room_ne srv rid rid' room :
  rid' ≠ rid → rooms_get (put_room rid room srv) rid' = rooms_get srv rid'.
Proof.
  intros Hne. unfold rooms_get, put_room. simpl.
  by rewrite lookup_insert_ne.
Qed.

Lemma with_images_same room : with_images (images room) room = room.
Proof. by destruct room. Qed.

Lemma image_at_lookup (imgs : list image) i :
  0 ≤ i → image_at imgs i = imgs !! Z.to_nat i.
Proof. intros Hi. unfold image_at. by rewrite (proj2 (Z.ltb_ge i 0)). Qed.

(** Property X8.  An upload followed by the deletion of the image it
    added gives the server back as it was. *)
Theorem upload_then_delete srv rid room (f : string * string * string) :
  rooms_get srv rid = Some room →
  api_delete_image rid (Z.of_nat (length (images room)))
                   (api_upload rid [f] srv) = srv.
Proof.
  intros Hroom. pose proof (rooms_get_Some _ _ _ Hroom) as [_ Hst].
  unfold api_upload. rewrite Hroom. unfold api_delete_image.
  erewrite rooms_get_put_room by done. cbn [images with_images map].
  rewrite length_app. cbn [length].
  rewrite (proj2 (Z.leb_le 0 _)) by lia.
  rewrite (proj2 (Z.ltb_lt _ _)) by lia. cbn [andb].
  rewrite Nat2Z.id, put_room_twice.
  replace (delete (length (images room)) (images room ++ _))
    with (images room).
  - unfold with_images at 1. cbn. fold (with_images (images room) room).
    rewrite with_images_same. by apply put_room_same.
  - rewrite delete_middle. by rewrite app_nil_r.
Qed.

Lemma upload_then_delete_witness :
  let srv := after lobby_trace in
  let room := room_at srv "r1" in
  rooms_get srv "r1" = Some room
  ∧ length (images room) = 2%nat
  ∧ api_delete_image "r1" 2
      (api_upload "r1" [("data:3", "big-ben.jpg", "Big Ben")]%string srv)
    = srv.
Proof.
  intros srv room.
  assert (H1 : rooms_get srv "r1" = Some room) by (vm_compute; reflexivity).
  assert (H2 : length (images room) = 2%nat) by (vm_compute; reflexivity).
  pose proof (upload_then_delete srv "r1" room
                ("data:3", "big-ben.jpg", "Big Ben")%string H1) as H3.
  rewrite H2 in H3. exact (conj H1 (conj H2 H3)).
Defined.

(** Property X9.  [DELETE /api/image]: an index below 0 or not below the
    number of images changes nothing; an index in range removes that one
    image, the images before it keep their index and the ones after it
    move down by one. *)
Theorem delete_image_bounds srv rid room index :
  rooms_get srv rid = Some room →
  let n := Z.of_nat (length (images room)) in
  let srv' := api_delete_image rid index srv in
  (index < 0 ∨ n ≤ index → srv' = srv)
  ∧ (0 ≤ index < n →
     ∃ room',
       rooms_get srv' rid = Some room'
       ∧ Z.of_nat (length (images room')) = n - 1
       ∧ (∀ i, i < index → image_at (images room') i = image_at (images room) i)
       ∧ (∀ i, index ≤ i →
               image_at (images room') i = image_at (images room) (i + 1))).
Proof.
  intros Hroom n srv'. subst srv'. unfold api_delete_image. rewrite Hroom.
  split.
  - intros [Hlo|Hhi].
    + by rewrite (proj2 (Z.leb_gt 0 index)).
    + fold n. rewrite (proj2 (Z.ltb_ge index n)) by done.
      by rewrite andb_false_r.
  - intros [Hlo Hhi]. fold n.
    rewrite (proj2 (Z.leb_le 0 index)), (proj2 (Z.ltb_lt index n)) by done.
    cbn [andb]. eexists. split; [by eapply rooms_get_put_room|].
    cbn [images with_images]. split; [|split].
    + rewrite length_delete; [subst n; lia|].
      apply lookup_lt_is_Some_2. subst n. lia.
    + intros i Hi. destruct (Z.ltb_spec i 0) as [Hneg|Hpos].
      * unfold image_at. by rewrite (proj2 (Z.ltb_lt i 0)).
      * rewrite !image_at_lookup by done.
        apply list_lookup_delete_lt. lia.
    + intros i Hi. rewrite !image_at_lookup by lia.
      rewrite list_lookup_delete_ge by lia. f_equal. lia.
Qed.

Lemma delete_image_bounds_witness :
  let srv := after lobby_trace in
  let room := room_at srv "r1" in
  rooms_get srv "r1" = Some room
  ∧ api_delete_image "r1" 2 srv = srv
  ∧ ∃ room',
      rooms_get (api_delete_image "r1" 0 srv) "r1" = Some room'
      ∧ image_at (images room') 0 = image_at (images room) 1.
Proof.
  intros srv room.
  assert (H1 : rooms_get srv "r1" = Some room) by (vm_compute; reflexivity).
  assert (H2 : length (images room) = 2%nat) by (vm_compute; reflexivity).
  destruct (delete_image_bounds srv "r1" room 2 H1) as [Hout _].
  destruct (delete_image_bounds srv "r1" room 0 H1) as [_ Hin].
  refine (conj H1 (conj (Hout _) _)).
  - right. rewrite H2. reflexivity.
  - destruct Hin as (room' & Hr & _ & _ & Hup).
    + rewrite H2. split; [reflexivity|reflexivity].
    + exists room'. split; [exact Hr|]. apply (Hup 0). reflexivity.
Defined.

Lemma with_rooms_same srv : with_rooms (rooms srv) srv = srv.
Proof. by destruct srv. Qed.

Lemma expired_sweep now t srv rid :
  expired now (sweep t srv) rid = expired now srv rid.
Proof. unfold expired. by rewrite sweep_store. Qed.

Lemma filter_none {A} (f : A → bool) (l : list A) :
  (∀ x, In x l → f x = false) → List.filter f l = [].
Proof.
  induction l as [|x l IH]; intros H; simpl; [done|].
  rewrite (H x) by (by left). apply IH. intros y Hy. apply H. by right.
Qed.

Lemma sweep_nothing now srv :
  (∀ rid, rid ∈ rooms srv → expired now srv rid = false) →
  sweep now srv = srv.
Proof.
  intros H. unfold sweep. rewrite filter_none.
  - cbn [foldr list_to_set]. rewrite difference_empty_L.
    apply with_rooms_same.
  - intros rid Hin. apply H. by apply elem_of_elements, list_elem_of_In.
Qed.

(** Property X10.  The clean-up keeps the rooms that are not older than
    three hours, and a second clean-up at the same time changes nothing;
    it changes nothing at all when no room is older. *)
Theorem sweep_idempotent now srv :
  sweep now (sweep now srv) = sweep now srv
  ∧ ((∀ rid, rid ∈ rooms srv → expired now srv rid = false) →
     sweep now srv = srv).
Proof.
  split; [|apply sweep_nothing].
  apply sweep_nothing. intros rid [_ Hrid]%sweep_rooms.
  by rewrite expired_sweep.
Qed.

Lemma sweep_idempotent_witness :
  let srv := after lobby_trace in
  (∀ rid, rid ∈ rooms srv → expired 10800000 srv rid = false)
  ∧ sweep 10800000 srv = srv.
Proof.
  intros srv.
  assert (H1 : rooms srv = {[ "r1"%string ]}) by (vm_compute; reflexivity).
  assert (H2 : expired 10800000 srv "r1" = false) by (vm_compute; reflexivity).
  assert (H : ∀ rid, rid ∈ rooms srv → expired 10800000 srv rid = false).
  { intros rid Hrid. rewrite H1 in Hrid.
    apply elem_of_singleton in Hrid. by rewrite Hrid. }
  exact (conj H (proj2 (sweep_idempotent 10800000 srv) H)).
Defined.

Lemma elem_clear_timer (t : timer) h srv :
  t ∈ timers (clear_timer h srv) ↔ t ∈ timers srv ∧ handle t ≠ h.
Proof.
  unfold clear_timer. cbn [timers with_timers].
  rewrite !list_elem_of_In, filter_In, negb_true_iff, Nat.eqb_neq. tauto.
Qed.

(** Property X11.  The clean-up touches neither the room objects nor the
    sockets, and of the pending timers it cancels exactly those whose
    handle is the [roundTimer] of a room it evicts: the hint interval of
    an evicted room, and any other timer of it, stay armed. *)
Theorem sweep_cancels_round_timers now srv :
  store (sweep now srv) = store srv
  ∧ sockets (sweep now srv) = sockets srv
  ∧ ∀ t : timer,
      t ∈ timers (sweep now srv)
      ↔ t ∈ timers srv
        ∧ ∀ rid room,
            rid ∈ rooms srv → expired now srv rid = true →
            store srv !! rid = Some room →
            roundTimer room ≠ Some (handle t).
Proof.
  split; [apply sweep_store|]. unfold sweep.
  set (old := List.filter _ _).
  assert (Hold : ∀ rid, In rid old
                        ↔ rid ∈ rooms srv ∧ expired now srv rid = true).
  { intros rid. subst old. rewrite filter_In, <- list_elem_of_In.
    by rewrite elem_of_elements. }
  cbn [sockets timers with_rooms].
  assert (Hfold : ∀ l,
    sockets (foldr (λ rid s, match store srv !! rid with
                             | Some room => match roundTimer room with
                                            | Some h => clear_timer h s
                                            | None => s
                                            end
                             | None => s
                             end) srv l) = sockets srv
    ∧ ∀ t : timer,
        t ∈ timers (foldr (λ rid s, match store srv !! rid with
                                    | Some room => match roundTimer room with
                                                   | Some h => clear_timer h s
                                                   | None => s
                                                   end
                                    | None => s
                                    end) srv l)
        ↔ t ∈ timers srv
          ∧ ∀ rid room, In rid l → store srv !! rid = Some room →
                        roundTimer room ≠ Some (handle t)).
  { induction l as [|rid l [IHs IHt]]; cbn [foldr].
    - split; [done|]. intros t. split; [by intros ?|tauto].
    - destruct (store srv !! rid) as [room|] eqn:Hst.
      + destruct (roundTimer room) as [h|] eqn:Hh.
        * split; [exact IHs|]. intros t.
          rewrite elem_clear_timer, IHt. split.
          -- intros [[Ht Hl] Hne]. split; [done|].
             intros rid' room' [<-|Hin] Hst'.
             ++ rewrite Hst in Hst'. injection Hst' as <-.
                rewrite Hh. congruence.
             ++ by eapply Hl.
          -- intros [Ht Hl]. split; [split; [done|]|].
             ++ intros rid' room' Hin. apply Hl. by right.
             ++ intros Heq. apply (Hl rid room); [by left|done|].
                by rewrite Hh, Heq.
        * split; [exact IHs|]. intros t. rewrite IHt. split.
          -- intros [Ht Hl]. split; [done|].
             intros rid' room' [<-|Hin] Hst'.
             ++ rewrite Hst in Hst'. injection Hst' as <-. by rewrite Hh.
             ++ by eapply Hl.
          -- intros [Ht Hl]. split; [done|].
             intros rid' room' Hin. apply Hl. by right.
      + split; [exact IHs|]. intros t. rewrite IHt. split.
        * intros [Ht Hl]. split; [done|].
          intros rid' room' [<-|Hin] Hst'; [congruence|by eapply Hl].
        * intros [Ht Hl]. split; [done|].
          intros rid' room' Hin. apply Hl. by right. }
  destruct (Hfold old) as [Hs Ht]. split; [exact Hs|].
  intros t. rewrite Ht. split.
  - intros [H1 H2]. split; [done|]. intros rid room Hin Hex.
    apply H2. apply Hold. by split.
  - intros [H1 H2]. split; [done|]. intros rid room [Hin Hex]%Hold.
    by apply H2.
Qed.

(** Property X12.  A room identifier that is not in the registry, one
    that the clean-up has evicted included: the REST endpoints and the
    socket handlers leave the server as it is, and answer with their
    error or with nothing. *)
Theorem unknown_room_untouched srv rid :
  rid ∉ rooms srv →
  (∀ files, api_upload rid files srv = srv)
  ∧ (∀ rt tr, api_settings rid rt tr srv = srv)
  ∧ (∀ index, api_delete_image rid index srv = srv)
  ∧ (∀ sid h,
       on_host_join sid rid h srv
       = (srv, [to_socket sid (error_msg "Invalid room or host ID")]))
  ∧ (∀ sid name now,
       on_player_join sid rid name now srv
       = Some (srv, [to_socket sid (error_msg "Room not found")]))
  ∧ (∀ sid now, on_start_game sid rid now srv = (srv, []))
  ∧ (∀ sid guess now, on_submit_guess sid rid guess now srv = Some (srv, [])).
Proof.
  intros Hrid.
  assert (Hget : rooms_get srv rid = None).
  { unfold rooms_get. by rewrite decide_False. }
  unfold api_upload, api_settings, api_delete_image, on_host_join,
    on_player_join, on_start_game, on_submit_guess.
  rewrite Hget. done.
Qed.

Lemma unknown_room_untouched_witness :
  let srv := after evicted_trace in
  ("r1" ∉ rooms srv)
  ∧ is_Some (store srv !! "r1"%string)
  ∧ on_player_join "P" "r1" "Alice" 10800002 srv
    = Some (srv, [to_socket "P" (error_msg "Room not found")]).
Proof.
  intros srv.
  assert (H1 : "r1" ∉ rooms srv) by by_compute.
  assert (H2 : is_Some (store srv !! "r1"%string))
    by (vm_compute; eexists; reflexivity).
  pose proof (unknown_room_untouched srv "r1" H1) as (_ & _ & _ & _ & H & _).
  exact (conj H1 (conj H2 (H "P" "Alice" 10800002)%string)).
Defined.

(** Property X13.  [createRoom] registers, under the identifier it
    returns, a room in state [setup] with no image, no player and the
    default settings, and leaves the other rooms as they are.  A
    registered room in state [setup], whatever its images and settings,
    admits no player: [player-join] is answered by the set-up error and
    changes nothing; a [host-join] with another host identifier is
    refused likewise.  Uploads, deletions of images and settings requests
    keep the room in [setup].  The room leaves [setup] by a [host-join]
    with its host identifier, for [lobby], and also, once it has an
    image, by a [start-game] from a socket that is the host of any room,
    for [playing]. *)
Theorem setup_room_admits_no_player srv rid hid now :
  let srv1 := createRoom rid hid now srv in
  rooms_get srv1 rid
  = Some {| room_id := rid; hostId := hid; hostSocketId := None;
            images := []; players := [];
            settings := {| roundTime := 30; totalRounds := 5 |};
            state := setup; currentRound := 0; roundStartTime := None;
            roundTimer := None; roundAnswered := ∅; createdAt := now |}
  ∧ (∀ rid', rid' ≠ rid → rooms_get srv1 rid' = rooms_get srv rid')
  ∧ ∀ srv2 room,
      rooms_get srv2 rid = Some room →
      state room = setup →
      (∀ sid name t,
         on_player_join sid rid name t srv2
         = Some (srv2,
                 [to_socket sid
                    (error_msg "Room is still being set up. Wait for the host to share the link.")]))
      ∧ (∀ sid h, h ≠ hostId room →
           on_host_join sid rid h srv2
           = (srv2, [to_socket sid (error_msg "Invalid room or host ID")]))
      ∧ (∀ files, ∃ room',
           rooms_get (api_upload rid files srv2) rid = Some room'
           ∧ state room' = setup ∧ hostId room' = hostId room)
      ∧ (∀ index, ∃ room',
           rooms_get (api_delete_image rid index srv2) rid = Some room'
           ∧ state room' = setup ∧ hostId room' = hostId room)
      ∧ (∀ rt tr, ∃ room',
           rooms_get (api_settings rid rt tr srv2) rid = Some room'
           ∧ state room' = setup ∧ hostId room' = hostId room)
      ∧ (∀ sid, ∃ room',
           rooms_get (fst (on_host_join sid rid (hostId room) srv2)) rid
           = Some room'
           ∧ state room' = lobby)
      ∧ (∀ sid t, socket_isHost srv2 sid = true → images room ≠ [] →
           ∃ room',
             rooms_get (fst (on_start_game sid rid t srv2)) rid = Some room'
             ∧ state room' = playing).
Proof.
  intros srv1.
  assert (Hget : rooms_get srv1 rid
                 = Some {| room_id := rid; hostId := hid; hostSocketId := None;
                           images := []; players := [];
                           settings := {| roundTime := 30; totalRounds := 5 |};
                           state := setup; currentRound := 0;
                           roundStartTime := None; roundTimer := None;
                           roundAnswered := ∅; createdAt := now |}).
  { subst srv1. unfold rooms_get, createRoom. cbn.
    rewrite decide_True by (by apply elem_of_union_l, elem_of_singleton).
    apply lookup_insert_eq. }
  split; [exact Hget|]. split.
  { intros rid' Hne. subst srv1. unfold rooms_get, createRoom. cbn.
    rewrite lookup_insert_ne by done.
    destruct (decide (rid' ∈ rooms srv)) as [Hin|Hout].
    + by rewrite decide_True by (by apply elem_of_union_r).
    + rewrite decide_False; [done|].
      by intros [?%elem_of_singleton|?]%elem_of_union. }
  clear Hget. intros srv2 room Hroom Hst.
  split.
  { intros sid name t. unfold on_player_join.
    rewrite Hroom, Hst. reflexivity. }
  split.
  { intros sid h Hne. unfold on_host_join. rewrite Hroom.
    by rewrite (proj2 (String.eqb_neq (hostId room) h)). }
  split.
  { intros files. unfold api_upload. rewrite Hroom. cbv zeta.
    eexists. split; [by eapply rooms_get_put_room|]. done. }
  split.
  { intros index. unfold api_delete_image. rewrite Hroom.
    destruct (_ && _).
    - eexists. split; [by eapply rooms_get_put_room|]. done.
    - by exists room. }
  split.
  { intros rt tr. unfold api_settings. rewrite Hroom. cbv zeta.
    eexists. split; [by eapply rooms_get_put_room|]. done. }
  split.
  { intros sid. unfold on_host_join.
    rewrite Hroom, String.eqb_refl. simpl.
    pose proof (rooms_get_put_room srv2 rid room
                  (with_state lobby (with_hostSocketId (Some sid) room))
                  Hroom) as H.
    eexists. split; [exact H|done]. }
  intros sid t Hhost Himg. unfold on_start_game.
  rewrite Hroom, Hhost. cbn [negb].
  destruct (images room) as [|img imgs] eqn:E; [done|].
  cbn [length Nat.eqb]. cbv zeta.
  eexists. split.
  - unfold set_timer. cbn [fst]. unfold rooms_get. cbn [rooms store with_timers].
    eapply rooms_get_put_room, Hroom.
  - done.
Qed.

(** A room that is being set up, with an image uploaded: a player is
    refused, and the host of another room starts its game. *)
Lemma setup_room_admits_no_player_witness :
  let srv := after second_room_trace in
  let room := room_at srv "r2" in
  rooms_get srv "r2" = Some room
  ∧ state room = setup
  ∧ length (images room) = 1%nat
  ∧ on_player_join "E" "r2" "Eve" 20 srv
    = Some (srv,
            [to_socket "E"
               (error_msg "Room is still being set up. Wait for the host to share the link.")])
  ∧ socket_isHost srv "H" = true
  ∧ sock_roomId <$> sockets srv !! "H"%string = Some (Some "r1"%string)
  ∧ ∃ room',
      rooms_get (fst (on_start_game "H" "r2" 21 srv)) "r2" = Some room'
      ∧ state room' = playing.
Proof.
  intros srv room.
  assert (H1 : rooms_get srv "r2" = Some room) by (vm_compute; reflexivity).
  assert (H2 : state room = setup) by (vm_compute; reflexivity).
  assert (H3 : length (images room) = 1%nat) by (vm_compute; reflexivity).
  assert (H4 : socket_isHost srv "H" = true) by (vm_compute; reflexivity).
  assert (H5 : sock_roomId <$> sockets srv !! "H"%string
               = Some (Some "r1"%string)) by (vm_compute; reflexivity).
  assert (H6 : images room ≠ []) by (by intros E; rewrite E in H3).
  destruct (setup_room_admits_no_player (after lobby_trace) "r2" "h2" 8)
    as (_ & _ & H).
  destruct (H srv room H1 H2) as (Hjoin & _ & _ & _ & _ & _ & Hstart).
  exact (conj H1 (conj H2 (conj H3 (conj (Hjoin "E"%string "Eve"%string 20)
           (conj H4 (conj H5 (Hstart "H"%string 21 H4 H6))))))).
Defined.

End Registry.

(** ** Joining, leaving and guessing *)

Section Players.

Lemma Map_get_delete_eq {V} k (m : list (string * V)) :
  Map_get k (Map_delete k m) = None.
Proof.
  unfold Map_get, Map_delete. induction m as [|[k0 v0] m IH]; [done|].
  simpl. destruct (String.eqb k k0) eqn:E; simpl; [done|]. by rewrite E.
Qed.

Lemma Map_get_delete_ne {V} k k' (m : list (string * V)) :
  k' ≠ k → Map_get k' (Map_delete k m) = Map_get k' m.
Proof.
  intros Hne. unfold Map_get, Map_delete.
  induction m as [|[k0 v0] m IH]; [done|]. simpl.
  destruct (String.eqb_spec k k0) as [<-|Hk]; simpl.
  - by rewrite (proj2 (String.eqb_neq k' k)).
  - destruct (String.eqb k' k0); [done|]. apply IH.
Qed.

Lemma Map_set_new {V} k (v : V) m :
  Map_get k m = None → Map_set k v m = m ++ [(k, v)].
Proof.
  unfold Map_get. induction m as [|[k0 v0] m IH]; [done|]. simpl.
  destruct (String.eqb k k0); [done|]. intros H. by rewrite IH.
Qed.

Lemma Map_delete_absent {V} k (m : list (string * V)) :
  Map_get k m = None → Map_delete k m = m.
Proof.
  unfold Map_get, Map_delete. induction m as [|[k0 v0] m IH]; [done|]. simpl.
  destruct (String.eqb k k0); [done|]. simpl. intros H. by rewrite IH.
Qed.

Lemma Map_delete_set_new {V} k (v : V) m :
  Map_get k m = None → Map_delete k (Map_set k v m) = m.
Proof.
  intros H. rewrite Map_set_new by done. unfold Map_delete.
  rewrite List.filter_app. simpl. rewrite String.eqb_refl. simpl.
  rewrite app_nil_r. by apply Map_delete_absent.
Qed.

Lemma length_string_of_list (l : list ascii) :
  String.length (string_of_list_ascii l) = length l.
Proof. induction l as [|c l IH]; simpl; [done|]. by rewrite IH. Qed.

Lemma with_players_same room : with_players (players room) room = room.
Proof. by destruct room. Qed.

Lemma on_disconnect_player srv sid s rid room :
  sockets srv !! sid = Some s →
  sock_roomId s = Some rid →
  isHost s = false →
  rooms_get srv rid = Some room →
  on_disconnect sid srv
  = (put_room rid (with_players (Map_delete sid (players room)) room)
       (with_sockets (<[sid := {| sock_roomId := Some rid; isHost := false;
                                  connected := false |}]> (sockets srv)) srv),
     match Map_get sid (players room) with
     | Some _ =>
         [to_room rid
            (player_update
               (getPlayerList
                  (with_players (Map_delete sid (players room)) room)))]
     | None => []
     end).
Proof.
  intros Hs Hrid Hhost Hroom. unfold on_disconnect.
  by rewrite Hs, Hrid, Hroom, Hhost.
Qed.

(** Property X14.  [player-join] into a room that is neither in [setup]
    nor [finished]: the socket is registered under its identifier with a
    new record (score 0, no answer, streak 0, its name trimmed and cut to
    20 characters), whatever record it had; the records of the other
    players and the rest of the room are left alone, and the socket
    remembers the room as a player. *)
Theorem player_join_registers srv sid rid name now room :
  rooms_get srv rid = Some room →
  state room ≠ setup →
  state room ≠ finished →
  (state room = playing →
   is_Some (image_at (images room) (currentRound room - 1))) →
  ∃ srv' out room',
    on_player_join sid rid name now srv = Some (srv', out)
    ∧ rooms_get srv' rid = Some room'
    ∧ room' = with_players (Map_set sid (new_player sid name) (players room))
                           room
    ∧ Map_get sid (players room')
      = Some {| player_id := sid;
                player_name := string_of_list_ascii
                                 (take 20 (trim (js name)));
                score := 0; answers := []; streak := 0 |}
    ∧ (String.length (player_name (new_player sid name)) ≤ 20)%nat
    ∧ (∀ k, k ≠ sid → Map_get k (players room') = Map_get k (players room))
    ∧ sockets srv' !! sid
      = Some {| sock_roomId := Some rid; isHost := false; connected := true |}.
Proof.
  intros Hroom Hsetup Hfin Himg.
  set (room' := with_players (Map_set sid (new_player sid name)
                                (players room)) room).
  assert (Hrest : rooms_get
                    (set_socket sid rid false (put_room rid room' srv)) rid
                  = Some room'
                  ∧ room' = room'
                  ∧ Map_get sid (players room') = Some (new_player sid name)
                  ∧ (String.length (player_name (new_player sid name)) ≤ 20)%nat
                  ∧ (∀ k, k ≠ sid →
                          Map_get k (players room') = Map_get k (players room))
                  ∧ sockets (set_socket sid rid false (put_room rid room' srv))
                    !! sid
                    = Some {| sock_roomId := Some rid; isHost := false;
                              connected := true |}).
  { split; [|split; [done|split; [|split; [|split]]]].
    - by apply (rooms_get_put_room srv rid room room').
    - apply Map_get_set_eq.
    - cbn [player_name new_player].
      rewrite length_string_of_list, length_take. lia.
    - intros k Hk. by apply Map_get_set_ne.
    - cbn. apply lookup_insert_eq. }
  unfold on_player_join. rewrite Hroom.
  rewrite (bool_decide_eq_false_2 (state room = finished)) by done.
  rewrite (bool_decide_eq_false_2 (state room = setup)) by done.
  cbn [state images currentRound with_players].
  destruct (bool_decide (state room = playing)) eqn:Hp.
  - apply bool_decide_eq_true in Hp. destruct (Himg Hp) as [img Hi].
    rewrite Hi.
    eexists _, _, room'. split; [reflexivity|exact Hrest].
  - eexists _, _, room'. split; [reflexivity|exact Hrest].
Qed.

Lemma player_join_registers_witness :
  let srv := after lobby_trace in
  let room := room_at srv "r1" in
  rooms_get srv "r1" = Some room
  ∧ state room = lobby
  ∧ score (player_at room "P") = 0%float
  ∧ ∃ srv' out room',
      on_player_join "P" "r1" "  Alice in Wonderland, the second  " 8 srv
      = Some (srv', out)
      ∧ rooms_get srv' "r1" = Some room'
      ∧ player_name (player_at room' "P") = "Alice in Wonderland,"%string.
Proof.
  intros srv room.
  assert (H1 : rooms_get srv "r1" = Some room) by (vm_compute; reflexivity).
  assert (H2 : state room = lobby) by (vm_compute; reflexivity).
  assert (H3 : score (player_at room "P") = 0%float)
    by (vm_compute; reflexivity).
  destruct (player_join_registers srv "P" "r1"
              "  Alice in Wonderland, the second  " 8 room H1)
    as (srv' & out & room' & Hj & Hr & _ & Hp & _).
  - rewrite H2. discriminate.
  - rewrite H2. discriminate.
  - rewrite H2. discriminate.
  - refine (conj H1 (conj H2 (conj H3 _))).
    exists srv', out, room'. split; [exact Hj|]. split; [exact Hr|].
    unfold player_at. rewrite Hp. reflexivity.
Defined.

(** Property X15.  A socket that was not a player of the room joins it
    and then disconnects: the room objects are as they were before it
    joined. *)
Theorem join_then_leave srv sid rid name now room srv1 out1 :
  rooms_get srv rid = Some room →
  state room ≠ setup →
  state room ≠ finished →
  Map_get sid (players room) = None →
  on_player_join sid rid name now srv = Some (srv1, out1) →
  store (fst (on_disconnect sid srv1)) = store srv.
Proof.
  intros Hroom Hsetup Hfin Hnew Hjoin.
  pose proof (rooms_get_Some _ _ _ Hroom) as [Hin Hst].
  set (room' := with_players (Map_set sid (new_player sid name)
                                (players room)) room).
  assert (Hsrv1 : srv1 = set_socket sid rid false (put_room rid room' srv)).
  { unfold on_player_join in Hjoin. rewrite Hroom in Hjoin.
    rewrite (bool_decide_eq_false_2 (state room = finished)) in Hjoin by done.
    rewrite (bool_decide_eq_false_2 (state room = setup)) in Hjoin by done.
    fold room' in Hjoin.
    destruct (bool_decide (state room' = playing)); [|by simplify_eq].
    destruct (image_at _ _); by simplify_eq. }
  subst srv1.
  erewrite (on_disconnect_player _ sid _ rid room');
    [|apply lookup_insert_eq|done|done
     |by apply (rooms_get_put_room srv rid room room')].
  cbn [fst store put_room with_store with_sockets set_socket].
  rewrite insert_insert_eq. unfold room'. cbn [players with_players].
  rewrite Map_delete_set_new by done.
  unfold with_players at 1. cbn. fold (with_players (players room) room).
  rewrite with_players_same. by apply insert_id.
Qed.

Lemma join_then_leave_witness :
  let srv := after newcomer_trace in
  let room := room_at srv "r1" in
  rooms_get srv "r1" = Some room
  ∧ Map_get "R" (players room) = None
  ∧ ∃ srv1 out1,
      on_player_join "R" "r1" "Rita" 9 srv = Some (srv1, out1)
      ∧ length (players (room_at srv1 "r1")) = 3%nat
      ∧ store (fst (on_disconnect "R" srv1)) = store srv.
Proof.
  intros srv room.
  assert (H1 : rooms_get srv "r1" = Some room) by (vm_compute; reflexivity).
  assert (H2 : state room = lobby) by (vm_compute; reflexivity).
  assert (H3 : Map_get "R" (players room) = None) by (vm_compute; reflexivity).
  destruct (on_player_join "R" "r1" "Rita" 9 srv) as [[srv1 out1]|] eqn:Hj;
    [|by vm_compute in Hj].
  assert (H4 : length (players (room_at srv1 "r1")) = 3%nat).
  { assert (H : (λ r, length (players (room_at r.1 "r1")))
                  <$> on_player_join "R" "r1" "Rita" 9 srv = Some 3%nat)
      by (vm_compute; reflexivity).
    rewrite Hj in H. by injection H. }
  refine (conj H1 (conj H3 _)). exists srv1, out1.
  refine (conj eq_refl (conj H4 _)).
  apply (join_then_leave srv "R" "r1" "Rita" 9 room srv1 out1 H1);
    [rewrite H2; discriminate|rewrite H2; discriminate|exact H3|exact Hj].
Defined.

(** Property X16.  [disconnect] of a socket that has joined a room of
    the registry.  The connection is closed.  When the socket is the
    host, no room changes.  When it is a player, its record is deleted
    from [players] of its room and nothing else of the room changes: the
    other records, and [roundAnswered] with the identifier of the socket
    in it, stay. *)
Theorem disconnect_removes_player srv sid s rid room :
  sockets srv !! sid = Some s →
  sock_roomId s = Some rid →
  rooms_get srv rid = Some room →
  let srv' := fst (on_disconnect sid srv) in
  socket_connected srv' sid = false
  ∧ rooms srv' = rooms srv
  ∧ timers srv' = timers srv
  ∧ (∀ rid', rid' ≠ rid → store srv' !! rid' = store srv !! rid')
  ∧ (isHost s = true → store srv' = store srv)
  ∧ (isHost s = false →
     store srv' !! rid
     = Some (with_players (Map_delete sid (players room)) room)
     ∧ Map_get sid (Map_delete sid (players room)) = None
     ∧ ∀ k, k ≠ sid →
            Map_get k (Map_delete sid (players room))
            = Map_get k (players room)).
Proof.
  intros Hs Hrid Hroom srv'. subst srv'.
  destruct (isHost s) eqn:Hhost.
  - unfold on_disconnect. rewrite Hs, Hrid, Hroom, Hhost.
    cbn [fst]. unfold socket_connected. cbn [sockets with_sockets].
    rewrite lookup_insert_eq. done.
  - rewrite (on_disconnect_player srv sid s rid room) by done.
    cbn [fst]. unfold socket_connected.
    cbn [sockets rooms timers store put_room with_store with_sockets].
    rewrite !lookup_insert_eq.
    split; [done|]. split; [done|]. split; [done|]. split.
    { intros rid' Hne. by rewrite lookup_insert_ne. }
    split; [done|]. intros _. split; [done|]. split.
    + apply Map_get_delete_eq.
    + intros k Hk. by apply Map_get_delete_ne.
Qed.

Lemma disconnect_removes_player_witness :
  let srv := after answered_trace in
  let room := room_at srv "r1" in
  let s := {| sock_roomId := Some "r1"%string; isHost := false;
              connected := true |} in
  sockets srv !! "P"%string = Some s
  ∧ rooms_get srv "r1" = Some room
  ∧ Map_get "P" (players room) = Some (player_at room "P")
  ∧ store (fst (on_disconnect "P" srv)) !! "r1"%string
    = Some (with_players (Map_delete "P" (players room)) room)
  ∧ Map_get "P" (Map_delete "P" (players room)) = None.
Proof.
  intros srv room s.
  assert (H1 : sockets srv !! "P"%string = Some s)
    by (vm_compute; reflexivity).
  assert (H2 : rooms_get srv "r1" = Some room) by (vm_compute; reflexivity).
  assert (H3 : Map_get "P" (players room) = Some (player_at room "P"))
    by (vm_compute; reflexivity).
  destruct (disconnect_removes_player srv "P" s "r1" room H1 eq_refl H2)
    as (_ & _ & _ & _ & _ & H).
  destruct (H eq_refl) as (H4 & H5 & _).
  exact (conj H1 (conj H2 (conj H3 (conj H4 H5)))).
Defined.

(** Property X17.  What [submit-guess] leaves alone.  It never touches
    the registry, the sockets, the timers or another room.  Either it
    changes nothing at all, or the sender was not in [roundAnswered] and
    is added to it, and of the room only [roundAnswered] and the record
    of the sender change: the images, the settings, the state, the round
    and the keys and the records of the other players are the same. *)
Theorem submit_guess_frame srv sid rid guess now srv' out :
  on_submit_guess sid rid guess now srv = Some (srv', out) →
  srv' = srv
  ∨ (rooms srv' = rooms srv
     ∧ sockets srv' = sockets srv
     ∧ timers srv' = timers srv
     ∧ (∀ rid', rid' ≠ rid → store srv' !! rid' = store srv !! rid')
     ∧ ∃ room room' p',
         rooms_get srv rid = Some room
         ∧ store srv' !! rid = Some room'
         ∧ (sid ∉ roundAnswered room)
         ∧ roundAnswered room' = {[sid]} ∪ roundAnswered room
         ∧ room' = with_roundAnswered ({[sid]} ∪ roundAnswered room)
                     (with_players (Map_set sid p' (players room)) room)
         ∧ Map_keys (players room') = Map_keys (players room)
         ∧ ∀ k, k ≠ sid →
                Map_get k (players room') = Map_get k (players room)).
Proof.
  unfold on_submit_guess. intros H.
  destruct (rooms_get srv rid) as [room|] eqn:Hroom; [|left; by simplify_eq].
  destruct (negb (bool_decide (state room = playing)));
    [left; by simplify_eq|].
  destruct (Map_get sid (players room)) as [p|] eqn:Hp;
    [|left; by simplify_eq].
  destruct (bool_decide (sid ∈ roundAnswered room)) eqn:Hans;
    [left; by simplify_eq|].
  apply bool_decide_eq_false in Hans.
  destruct (image_at _ _) as [img|]; [|done].
  destruct (num_gt _ 0); [|left; by simplify_eq].
  right. injection H as <- _.
  cbn [rooms sockets timers store put_room with_store].
  split; [done|]. split; [done|]. split; [done|]. split.
  { intros rid' Hne. by rewrite lookup_insert_ne. }
  eexists room, _, _. split; [done|]. split; [apply lookup_insert_eq|].
  split; [done|]. split; [done|]. split; [done|].
  cbn [players with_players with_roundAnswered]. split.
  - clear -Hp. unfold Map_get in Hp. unfold Map_keys.
    induction (players room) as [|[k0 v0] m IH]; [done|]. simpl in *.
    destruct (String.eqb_spec sid k0) as [->|]; simpl; [done|].
    f_equal. by apply IH.
  - intros k Hk. by apply Map_get_set_ne.
Qed.

Lemma submit_guess_frame_witness :
  let srv := after round1_trace in
  ∃ srv' out,
    on_submit_guess "P" "r1" "eiffel tower" 2010 srv = Some (srv', out)
    ∧ (srv' = srv
       ∨ (∀ rid', rid' ≠ "r1"%string → store srv' !! rid' = store srv !! rid')).
Proof.
  intros srv.
  destruct (on_submit_guess "P" "r1" "eiffel tower" 2010 srv)
    as [[srv' out]|] eqn:Hg; [|by vm_compute in Hg].
  exists srv', out. split; [reflexivity|].
  destruct (submit_guess_frame srv "P" "r1" "eiffel tower" 2010 srv' out Hg)
    as [H|(_ & _ & _ & H & _)]; [by left|by right].
Defined.

End Players.

(** ** The callbacks of the timers *)

Section Callbacks.

Lemma image_at_None (imgs : list image) i :
  image_at imgs i = None ↔ i < 0 ∨ Z.of_nat (length imgs) ≤ i.
Proof.
  unfold image_at. destruct (Z.ltb_spec i 0) as [Hneg|Hpos].
  - split; [by left|done].
  - rewrite lookup_ge_None. lia.
Qed.

Lemma startRound_throws srv rid room now :
  store srv !! rid = Some room →
  startRound rid now srv = None
  ↔ currentRound room + 1 ≤ totalRounds (settings room)
    ∧ image_at (images room) (currentRound room) = None.
Proof.
  intros Hroom. split.
  - intros Hnone.
    destruct (Z.lt_ge_cases (totalRounds (settings room))
                            (currentRound room + 1)) as [Hlast|Hnext].
    + destruct (startRound_last rid now srv room Hroom Hlast)
        as (srv' & room' & ps & Hs & _). congruence.
    + split; [lia|].
      destruct (image_at (images room) (currentRound room)) as [img|] eqn:Himg;
        [|done].
      destruct (startRound_next rid now srv room img Hroom Hnext Himg)
        as (srv' & room' & Hs & _). congruence.
  - intros [Hnext Himg]. unfold startRound. rewrite Hroom. cbv zeta.
    cbn [settings with_currentRound currentRound].
    rewrite (proj2 (Z.ltb_ge _ _)) by lia.
    cbn [images with_roundAnswered with_roundStartTime with_state
         with_currentRound currentRound].
    replace (currentRound room + 1 - 1) with (currentRound room) by lia.
    by rewrite Himg.
Qed.

Lemma endRound_throws srv rid room now :
  store srv !! rid = Some room →
  endRound rid now srv = None
  ↔ image_at (images room) (currentRound room - 1) = None.
Proof.
  intros Hroom. split.
  - intros Hnone.
    destruct (image_at (images room) (currentRound room - 1)) as [img|]
      eqn:Himg; [|done].
    destruct (endRound_result srv rid now room img Hroom Himg)
      as (srv' & out & room' & He & _). congruence.
  - intros Himg. unfold endRound. rewrite Hroom. cbv zeta.
    cbn [images currentRound with_players with_state].
    by rewrite Himg.
Qed.

Lemma hint_tick_returns srv rid room now h fl wc :
  store srv !! rid = Some room → hint_tick h rid fl wc now srv ≠ None.
Proof.
  intros Hroom. unfold hint_tick. rewrite Hroom. cbv zeta.
  destruct (negb _); [done|]. by destruct (_ && negb wc).
Qed.

(** Property X18.  When the callbacks of the timers throw, for a room
    whose settings hold integers, as the settings of the model do: they
    are the defaults or what the settings endpoint made of numerals.  (A
    [totalRounds] of NaN, which the endpoint stores for a field that is
    no numeral, is outside the model: no round exceeds it, and
    [startRound] goes on to read the image.)  For such a room with [n]
    images at round [r]: [startRound] throws exactly
    when round [r + 1] is within [totalRounds] and has no image ([r < 0]
    or [n <= r]); [endRound] throws exactly when round [r] has no image
    ([r < 1] or [n < r]); the callback of the hint interval never
    throws. *)
Theorem round_callbacks_throw_iff srv rid room now :
  store srv !! rid = Some room →
  let r := currentRound room in
  let n := Z.of_nat (length (images room)) in
  (startRound rid now srv = None
   ↔ r + 1 ≤ totalRounds (settings room) ∧ (r < 0 ∨ n ≤ r))
  ∧ (endRound rid now srv = None ↔ r < 1 ∨ n < r)
  ∧ (∀ h fl wc, hint_tick h rid fl wc now srv ≠ None).
Proof.
  intros Hroom r n.
  pose proof (image_at_None (images room) r) as Hat.
  pose proof (image_at_None (images room) (r - 1)) as Hat1.
  fold n in Hat, Hat1. split; [|split].
  - rewrite (startRound_throws srv rid room now Hroom). fold r. tauto.
  - rewrite (endRound_throws srv rid room now Hroom). fold r.
    rewrite Hat1. lia.
  - intros h fl wc. by eapply hint_tick_returns.
Qed.

Lemma round_callbacks_throw_iff_witness :
  let srv := after raised_rounds_trace in
  let room := room_at srv "r1" in
  store srv !! "r1"%string = Some room
  ∧ currentRound room = 1
  ∧ totalRounds (settings room) = 3
  ∧ length (images room) = 1%nat
  ∧ startRound "r1" 37010 srv = None.
Proof.
  intros srv room.
  assert (H1 : store srv !! "r1"%string = Some room)
    by (vm_compute; reflexivity).
  assert (H2 : currentRound room = 1) by (vm_compute; reflexivity).
  assert (H3 : totalRounds (settings room) = 3) by (vm_compute; reflexivity).
  assert (H4 : length (images room) = 1%nat) by (vm_compute; reflexivity).
  destruct (round_callbacks_throw_iff srv "r1" room 37010 H1) as [[_ H] _].
  refine (conj H1 (conj H2 (conj H3 (conj H4 (H _))))).
  rewrite H2, H3, H4. simpl. lia.
Defined.

Lemma insert_by_score_perm x l : insert_by_score x l ≡ₚ x :: l.
Proof.
  induction l as [|y l IH]; simpl; [done|].
  destruct (0 <? _)%float; [|done].
  rewrite IH. apply Permutation_swap.
Qed.

Lemma sort_by_score_perm l : sort_by_score l ≡ₚ l.
Proof.
  unfold sort_by_score. induction l as [|x l IH]; simpl; [done|].
  by rewrite insert_by_score_perm, IH.
Qed.

Lemma Map_get_values {V} k (v : V) (m : list (string * V)) :
  Map_get k m = Some v → v ∈ Map_values m.
Proof.
  intros H%Map_get_elem. unfold Map_values.
  apply list_elem_of_In, in_map_iff. exists (k, v).
  split; [done|]. by apply list_elem_of_In.
Qed.

(** Property X19.  The list [getPlayerList] returns is a rearrangement
    of the records of the registered players, each summarised once: it
    has as many entries as the room has players, and every player is in
    it with the identifier, name, score and streak of the record and the
    number of its [correct] answers. *)
Theorem getPlayerList_permutation room :
  getPlayerList room ≡ₚ map info_of (Map_values (players room))
  ∧ length (getPlayerList room) = length (players room)
  ∧ ∀ sid p,
      Map_get sid (players room) = Some p →
      {| info_id := player_id p; info_name := player_name p;
         info_score := score p; info_streak := streak p;
         correctAnswers := length (List.filter correct (answers p)) |}
      ∈ getPlayerList room.
Proof.
  assert (Hperm : getPlayerList room ≡ₚ map info_of (Map_values (players room)))
    by apply sort_by_score_perm.
  split; [exact Hperm|]. split.
  - rewrite Hperm. unfold Map_values. by rewrite !length_map.
  - intros sid p Hp. rewrite Hperm. apply list_elem_of_In, in_map_iff.
    exists p. split; [done|]. apply list_elem_of_In.
    by eapply Map_get_values.
Qed.

(** Property X20.  [endGame] sets the room to [finished], cancels its
    [roundTimer] and changes nothing else of it; the one [game-over]
    event lists every player once, and its winner is the first of that
    list, and is [null] exactly when the room has no player. *)
Theorem endGame_result srv rid room :
  store srv !! rid = Some room →
  ∃ srv' ps,
    endGame rid srv
    = Some (srv', [to_room (room_id room)
                     (game_over ps (head ps) (totalRounds (settings room)))])
    ∧ store srv' !! rid = Some (with_state finished room)
    ∧ (∀ rid', rid' ≠ rid → store srv' !! rid' = store srv !! rid')
    ∧ ps ≡ₚ map info_of (Map_values (players room))
    ∧ (head ps = None ↔ players room = [])
    ∧ ∀ t : timer,
        t ∈ timers srv'
        ↔ t ∈ timers srv ∧ roundTimer room ≠ Some (handle t).
Proof.
  intros Hroom. unfold endGame. rewrite Hroom. cbv zeta.
  cbn [roundTimer room_id settings with_state].
  remember (sort_by_score (getPlayerList (with_state finished room)))
    as ps eqn:Eps.
  assert (Hperm : ps ≡ₚ map info_of (Map_values (players room))).
  { rewrite Eps. etransitivity; [apply sort_by_score_perm|].
    apply sort_by_score_perm. }
  assert (Hhead : head ps = None ↔ players room = []).
  { split.
    - intros Hh. destruct ps as [|x ps']; [|done].
      apply Permutation_nil_l in Hperm.
      by destruct (players room).
    - intros Hnil. rewrite Hnil in Hperm. cbn in Hperm.
      apply Permutation_nil_r in Hperm. by rewrite Hperm. }
  clear Eps.
  eexists _, ps. split; [reflexivity|].
  destruct (roundTimer room) as [h|] eqn:Hh.
  - cbn [store clear_timer with_timers put_room with_store timers].
    split; [apply lookup_insert_eq|].
    split; [intros rid' Hne; by rewrite lookup_insert_ne|].
    split; [done|]. split; [done|]. intros t.
    rewrite !list_elem_of_In, filter_In, negb_true_iff, Nat.eqb_neq.
    split; intros [H1 H2]; (split; [done|]); congruence.
  - cbn [store put_room with_store timers].
    split; [apply lookup_insert_eq|].
    split; [intros rid' Hne; by rewrite lookup_insert_ne|].
    split; [done|]. split; [done|]. intros t. split; [by intros ?|tauto].
Qed.

Lemma endGame_result_witness :
  let srv := after round2_ended_trace in
  let room := room_at srv "r1" in
  store srv !! "r1"%string = Some room
  ∧ ∃ srv' ps,
      endGame "r1" srv
      = Some (srv', [to_room (room_id room)
                       (game_over ps (head ps)
                                  (totalRounds (settings room)))])
      ∧ store srv' !! "r1"%string = Some (with_state finished room).
Proof.
  intros srv room.
  assert (H1 : store srv !! "r1"%string = Some room)
    by (vm_compute; reflexivity).
  destruct (endGame_result srv "r1" room H1) as (srv' & ps & H2 & H3 & _).
  exact (conj H1 (ex_intro _ srv' (ex_intro _ ps (conj H2 H3)))).
Defined.

(** Property X21.  After a [start-game] that is accepted the room is
    [playing] at round 0, for which there is no image: until the first
    [startRound] runs, a [submit-guess] from a registered player who is
    not in [roundAnswered], and any [player-join], end in an uncaught
    [TypeError]. *)
Theorem guess_before_first_round_throws srv host rid now room sid p :
  rooms_get srv rid = Some room →
  socket_isHost srv host = true →
  images room ≠ [] →
  Map_get sid (players room) = Some p →
  sid ∉ roundAnswered room →
  let srv1 := fst (on_start_game host rid now srv) in
  (∃ room1, rooms_get srv1 rid = Some room1
            ∧ state room1 = playing ∧ currentRound room1 = 0)
  ∧ (∀ guess t, on_submit_guess sid rid guess t srv1 = None)
  ∧ (∀ sid' name t, on_player_join sid' rid name t srv1 = None).
Proof.
  intros Hroom Hhost Himg Hp Hans srv1.
  pose proof (rooms_get_Some _ _ _ Hroom) as [Hin Hst].
  set (room1 :=
         with_players (map (λ kv, (kv.1, reset_player kv.2)) (players room))
           (with_state playing
              (with_currentRound 0
                 (with_settings
                    {| roundTime := roundTime (settings room);
                       totalRounds :=
                         Z.min (totalRounds (settings room))
                               (Z.of_nat (length (images room))) |} room)))).
  assert (Hget : rooms_get srv1 rid = Some room1).
  { subst srv1. unfold on_start_game. rewrite Hroom, Hhost. cbn [negb].
    rewrite (proj2 (Nat.eqb_neq (length (images room)) 0))
      by (by destruct (images room)).
    cbn [fst set_timer]. unfold rooms_get. cbn.
    rewrite decide_True by done. by rewrite lookup_insert_eq. }
  assert (Hstate : state room1 = playing) by done.
  assert (Hround : currentRound room1 = 0) by done.
  assert (Hplayer : Map_get sid (players room1) = Some (reset_player p)).
  { subst room1. cbn [players with_players].
    by rewrite Map_get_map_values, Hp. }
  assert (Hanswered : roundAnswered room1 = roundAnswered room) by done.
  split; [by exists room1|]. split.
  - intros guess t. unfold on_submit_guess.
    rewrite Hget, Hstate, bool_decide_eq_true_2 by done. cbn [negb].
    rewrite Hplayer, Hanswered, (bool_decide_eq_false_2 _ Hans), Hround.
    done.
  - intros sid' name t. unfold on_player_join.
    rewrite Hget, Hstate. cbn [state with_players].
    rewrite Hstate. cbn [images currentRound with_players].
    by rewrite Hround.
Qed.

Lemma guess_before_first_round_throws_witness :
  let srv := after lobby_trace in
  let room := room_at srv "r1" in
  rooms_get srv "r1" = Some room
  ∧ socket_isHost srv "H" = true
  ∧ images room ≠ []
  ∧ Map_get "P" (players room) = Some (player_at room "P")
  ∧ ("P" ∉ roundAnswered room)
  ∧ on_submit_guess "P" "r1" "Eiffel Tower" 500
      (fst (on_start_game "H" "r1" 10 srv)) = None.
Proof.
  intros srv room.
  assert (H1 : rooms_get srv "r1" = Some room) by (vm_compute; reflexivity).
  assert (H2 : socket_isHost srv "H" = true) by (vm_compute; reflexivity).
  assert (H3 : images room ≠ []) by (vm_compute; discriminate).
  assert (H4 : Map_get "P" (players room) = Some (player_at room "P"))
    by (vm_compute; reflexivity).
  assert (H5 : "P" ∉ roundAnswered room) by by_compute.
  destruct (guess_before_first_round_throws srv "H" "r1" 10 room "P" _
              H1 H2 H3 H4 H5) as (_ & H & _).
  exact (conj H1 (conj H2 (conj H3 (conj H4 (conj H5
           (H "Eiffel Tower" 500)%string))))).
Defined.

End Callbacks.

(** ** What holds of the records of the players in every reachable state *)

(** The reachable states are those the server gets to by steps that
    return: a step that ends in an uncaught exception ([None]) ends the
    run, as it ends the Node process. *)

Section PlayerInvariant.

Variable P : string → player → Prop.

Hypothesis P_new : ∀ sid name, P sid (new_player sid name).

Hypothesis P_reset : ∀ sid p, P sid p → P sid (reset_player p).

Hypothesis P_scored : ∀ sid p r pts el q,
  1 ≤ r → P sid p →
  P sid {| player_id := player_id p; player_name := player_name p;
           score := (score p + pts)%float;
           answers := answers p
                      ++ [{| round := r; correct := true; points := pts;
                             time := Some el; matchQuality := Some q |}];
           streak := streak_after q (streak p) |}.

Hypothesis P_missed : ∀ sid p r,
  1 ≤ r → P sid p →
  P sid {| player_id := player_id p; player_name := player_name p;
           score := score p;
           answers := answers p
                      ++ [{| round := r; correct := false; points := 0;
                             time := None; matchQuality := None |}];
           streak := 0 |}.

Lemma image_at_Some_pos (imgs : list image) i img :
  image_at imgs i = Some img → 0 ≤ i.
Proof. unfold image_at. destruct (Z.ltb_spec i 0); [done|lia]. Qed.

Ltac ok_players Hok :=
  let rid0 := fresh "rid0" in
  let r0 := fresh "r0" in
  let sid0 := fresh "sid0" in
  let p0 := fresh "p0" in
  let H0 := fresh "H0" in
  let Hin := fresh "Hin" in
  intros rid0 r0 sid0 p0 H0 Hin; cbn in H0; split_lookup; simplify_eq;
  try (by eapply Hok); cbn -[Map_delete] in Hin.

Lemma step_all_players now i srv srv' out :
  all_players P srv →
  step now i srv = Some (srv', out) →
  all_players P srv'.
Proof.
  intros Hok Hstep. unfold all_players in Hok.
  destruct i; simpl in Hstep.
  - simplify_eq. ok_players Hok.
  - simplify_eq. ok_players Hok. by apply elem_of_nil in Hin.
  - unfold api_upload, rooms_get in Hstep. crunch; ok_players Hok.
  - unfold api_settings, rooms_get in Hstep. crunch; ok_players Hok.
  - unfold api_delete_image, rooms_get in Hstep. crunch; ok_players Hok.
  - unfold on_host_join, rooms_get in Hstep. crunch; ok_players Hok.
  - unfold on_player_join, rooms_get in Hstep.
    crunch; ok_players Hok;
      (apply elem_Map_set in Hin as [[= -> ->]|Hin];
       [apply P_new|by eapply Hok]).
  - unfold on_start_game, rooms_get in Hstep. crunch; ok_players Hok.
    apply list_elem_of_In, in_map_iff in Hin as ([k p1] & [= <- <-] & Hin).
    apply P_reset. eapply Hok; [done|]. by apply list_elem_of_In.
  - unfold on_submit_guess, rooms_get in Hstep. crunch; ok_players Hok.
    apply elem_Map_set in Hin as [[= -> ->]|Hin]; [|by eapply Hok].
    apply P_scored.
    + match goal with
      | H : image_at _ _ = Some _ |- _ => apply image_at_Some_pos in H; lia
      end.
    + eapply Hok; [done|]. by apply Map_get_elem.
  - unfold on_disconnect, rooms_get in Hstep. crunch; ok_players Hok.
    apply elem_Map_delete in Hin. by eapply Hok.
  - unfold fire, startRound, endRound, endGame, hint_tick in Hstep.
    crunch; ok_players Hok.
    apply list_elem_of_In, in_map_iff in Hin as ([k p1] & Heq & Hin).
    rewrite mark_unanswered_eq in Heq. cbn in Heq.
    apply list_elem_of_In in Hin.
    destruct (decide _); simplify_eq; [by eapply Hok|].
    unfold unanswered. cbn [currentRound with_state].
    apply P_missed; [|by eapply Hok].
    match goal with
    | H : image_at _ _ = Some _ |- _ => apply image_at_Some_pos in H; lia
    end.
  - simplify_eq. intros rid r sid p Hr. rewrite sweep_store in Hr.
    by eapply Hok.
Qed.

Lemma reachable_all_players srv : reachable srv → all_players P srv.
Proof.
  induction 1 as [|srv now i srv' out _ IH Hadm Hstep].
  - by intros rid r sid p Hr.
  - by eapply step_all_players.
Qed.

End PlayerInvariant.

(** The cases of [step], each handler unfolded. *)
Ltac step_cases i Hstep :=
  destruct i; simpl in Hstep;
  [ simplify_eq
  | simplify_eq
  | unfold api_upload, rooms_get in Hstep; crunch
  | unfold api_settings, rooms_get in Hstep; crunch
  | unfold api_delete_image, rooms_get in Hstep; crunch
  | unfold on_host_join, rooms_get in Hstep; crunch
  | unfold on_player_join, rooms_get in Hstep; crunch
  | unfold on_start_game, rooms_get in Hstep; crunch
  | unfold on_submit_guess, rooms_get in Hstep; crunch
  | unfold on_disconnect, rooms_get in Hstep; crunch
  | unfold fire, startRound, endRound, endGame, hint_tick in Hstep; crunch
  | simplify_eq ].

(** ** The shape of the server in every reachable state *)

Section WF.

Lemma is_Some_insert (m : gmap string room) k k' v :
  is_Some (m !! k') → is_Some (<[k := v]> m !! k').
Proof. intros H. apply lookup_insert_is_Some'. by right. Qed.

Lemma is_Some_insert_eq (m : gmap string room) k v :
  is_Some (<[k := v]> m !! k).
Proof. rewrite lookup_insert_eq. by eexists. Qed.

Lemma step_store_kept now i srv srv' out rid :
  step now i srv = Some (srv', out) →
  is_Some (store srv !! rid) → is_Some (store srv' !! rid).
Proof.
  intros Hstep Hs. step_cases i Hstep;
    rewrite ?sweep_store; cbn; repeat apply is_Some_insert; done.
Qed.

Lemma step_registered now i srv srv' out :
  (∀ rid, rid ∈ rooms srv → is_Some (store srv !! rid)) →
  step now i srv = Some (srv', out) →
  ∀ rid, rid ∈ rooms srv' → is_Some (store srv' !! rid).
Proof.
  intros Hreg Hstep rid Hin.
  destruct (decide (rid ∈ rooms srv)) as [Hold|Hnew].
  { eapply step_store_kept; [done|]. by apply Hreg. }
  revert Hin. step_cases i Hstep; cbn; try done.
  - intros [->%elem_of_singleton|Hin]%elem_of_union; [|done].
    apply is_Some_insert_eq.
  - by intros [Hin _]%elem_of_difference.
Qed.

Lemma step_room_fields now i srv srv' out :
  (∀ rid room, store srv !! rid = Some room →
               room_id room = rid ∧ 0 ≤ currentRound room) →
  step now i srv = Some (srv', out) →
  ∀ rid room, store srv' !! rid = Some room →
              room_id room = rid ∧ 0 ≤ currentRound room.
Proof.
  intros Hroom Hstep.
  step_cases i Hstep;
    (let rid0 := fresh "rid0" in
     let r0 := fresh "r0" in
     let H0 := fresh "H0" in
     intros rid0 r0 H0; rewrite ?sweep_store in H0; cbn in H0;
     split_lookup; simplify_eq; cbn; try (by eapply Hroom);
     try (split; [done|lia]);
     try match goal with
         | H : store srv !! _ = Some ?r |- _ =>
             destruct (Hroom _ _ H); split; [done|lia]
         end).
Qed.

Lemma elem_filter_timers (f : timer → bool) (l : list timer) t :
  t ∈ List.filter f l → t ∈ l.
Proof. rewrite !list_elem_of_In, filter_In. tauto. Qed.

Lemma sweep_timers_subset now srv (t : timer) :
  t ∈ timers (sweep now srv) → t ∈ timers srv.
Proof.
  unfold sweep. cbn [timers with_rooms].
  induction (List.filter _ _) as [|rid l IH]; cbn [foldr]; [done|].
  destruct (store srv !! rid) as [room|]; [|done].
  destruct (roundTimer room) as [h|]; [|done].
  intros Ht%elem_filter_timers. by apply IH.
Qed.

Ltac split_elem :=
  repeat match goal with
         | H : _ ∈ _ ++ _ |- _ => apply elem_of_app in H as [H|H]
         | H : _ ∈ [_] |- _ => apply list_elem_of_singleton in H; subst
         | H : _ ∈ _ :: _ |- _ => apply elem_of_cons in H as [H|H]; subst
         | H : _ ∈ List.filter _ _ |- _ => apply elem_filter_timers in H
         | H : _ ∈ map _ _ |- _ =>
             apply list_elem_of_In, in_map_iff in H as (? & ? & H);
             apply list_elem_of_In in H
         end.

Lemma step_timer_rooms now i srv srv' out :
  (∀ t, t ∈ timers srv → is_Some (store srv !! callback_room (action t))) →
  step now i srv = Some (srv', out) →
  ∀ t, t ∈ timers srv' → is_Some (store srv' !! callback_room (action t)).
Proof.
  intros Htm Hstep.
  step_cases i Hstep;
    (let t0 := fresh "t0" in
     let Ht0 := fresh "Ht0" in
     intros t0 Ht0; rewrite ?sweep_store;
     try apply sweep_timers_subset in Ht0;
     cbn in Ht0 |- *; repeat apply is_Some_insert;
     split_elem; try (by apply Htm); try (cbn; by eauto)).
  match goal with
  | H : (if ?b then _ else _) = _ |- _ => destruct b; subst
  end; [cbn; by eauto|by apply Htm].
Qed.

Lemma step_wf now i srv srv' out :
  server_wf srv → step now i srv = Some (srv', out) → server_wf srv'.
Proof.
  intros (Hreg & Hroom & Htm) Hstep. split; [|split].
  - by eapply step_registered.
  - by eapply step_room_fields.
  - by eapply step_timer_rooms.
Qed.

Lemma reachable_wf srv : reachable srv → server_wf srv.
Proof.
  induction 1 as [|srv now i srv' out _ IH Hadm Hstep].
  - split; [|split]; [by intros rid ?%elem_of_empty|done
                     |by intros t ?%elem_of_nil].
  - by eapply step_wf.
Qed.

End WF.

(** ** Scores, histories and identifiers in every reachable state *)

Section Records.

Lemma scored_total_snoc (p : player) e acc :
  fold_left (λ acc e, if correct e then (acc + points e)%float else acc)
            (answers p ++ [e]) acc
  = let t := fold_left (λ acc e, if correct e then (acc + points e)%float
                                 else acc) (answers p) acc in
    if correct e then (t + points e)%float else t.
Proof. by rewrite fold_left_app. Qed.

(** Property X22.  In every reachable state the score of a player is
    the sum of the points of the scored ([correct: true]) entries of its
    history, added in the order of the entries. *)
Theorem score_is_sum srv rid room sid p :
  reachable srv →
  store srv !! rid = Some room →
  Map_get sid (players room) = Some p →
  score p = scored_total p.
Proof.
  intros Hreach Hroom Hp%Map_get_elem.
  apply (reachable_all_players (λ _ p, score p = scored_total p))
    with (srv := srv) (rid := rid) (room := room) (sid := sid); try done.
  - intros s q r pts el qual _ Hq. unfold scored_total. cbn [answers score].
    rewrite scored_total_snoc. cbn. by rewrite Hq.
  - intros s q r _ Hq. unfold scored_total. cbn [answers score].
    rewrite scored_total_snoc. cbn. by rewrite Hq.
Qed.

Lemma score_is_sum_witness :
  let srv := after finished_trace in
  let room := room_at srv "r1" in
  let p := player_at room "P" in
  reachable srv
  ∧ store srv !! "r1"%string = Some room
  ∧ Map_get "P" (players room) = Some p
  ∧ map points (answers p) = [1300; 388]%float
  ∧ score p = scored_total p
  ∧ score p = 1688%float.
Proof.
  intros srv room p.
  pose proof (after_reachable finished_trace) as H1.
  assert (H2 : store srv !! "r1"%string = Some room)
    by (vm_compute; reflexivity).
  assert (H3 : Map_get "P" (players room) = Some p)
    by (vm_compute; reflexivity).
  assert (H4 : map points (answers p) = [1300; 388]%float)
    by (vm_compute; reflexivity).
  assert (H5 : score p = 1688%float) by (vm_compute; reflexivity).
  exact (conj H1 (conj H2 (conj H3 (conj H4
           (conj (score_is_sum srv "r1" room "P" p H1 H2 H3) H5))))).
Defined.

Lemma reachable_record_ok srv : reachable srv → all_players record_ok srv.
Proof.
  apply reachable_all_players.
  - intros sid name. split; [done|]. split; [|done].
    by intros e ?%elem_of_nil.
  - intros sid p (Hid & _ & _). split; [done|]. split; [|done].
    by intros e ?%elem_of_nil.
  - intros sid p r pts el q Hr (Hid & Hrounds & Hstreak).
    split; [done|]. cbn [answers streak]. split.
    + intros e [He| ->%list_elem_of_singleton]%elem_of_app;
        [by apply Hrounds|done].
    + rewrite List.filter_app, length_app. cbn.
      unfold streak_after. destruct (num_ge q 0.7); lia.
  - intros sid p r Hr (Hid & Hrounds & Hstreak).
    split; [done|]. cbn [answers streak]. split; [|lia].
    intros e [He| ->%list_elem_of_singleton]%elem_of_app;
      [by apply Hrounds|done].
Qed.

(** A list of distinct integers between 1 and [n] has at most [n]
    elements. *)
Lemma NoDup_range_length (l : list Z) n :
  0 ≤ n → NoDup l → (∀ x, x ∈ l → 1 ≤ x ≤ n) → Z.of_nat (length l) ≤ n.
Proof.
  intros Hn Hnd Hl.
  assert (Hsub : l ⊆+ seqZ 1 n).
  { apply NoDup_submseteq; [done|]. intros x Hx. apply elem_of_seqZ.
    specialize (Hl x Hx). lia. }
  apply submseteq_length in Hsub. rewrite length_seqZ in Hsub. lia.
Qed.

(** Property X23.  In every reachable state, for every registered
    player: the entries of the history are of rounds between 1 and the
    current round of the room; the streak is at most the number of
    [correct] entries, which is the [correctAnswers] of the leaderboard;
    and that number is at most the current round. *)
Theorem history_within_rounds srv rid room sid p :
  reachable srv →
  store srv !! rid = Some room →
  Map_get sid (players room) = Some p →
  (∀ e, e ∈ answers p → 1 ≤ round e ≤ currentRound room)
  ∧ (streak p ≤ correctAnswers (info_of p))%nat
  ∧ Z.of_nat (correctAnswers (info_of p)) ≤ currentRound room.
Proof.
  intros Hreach Hroom Hp%Map_get_elem.
  destruct (reachable_record_ok srv Hreach rid room sid p Hroom Hp)
    as (_ & Hlow & Hstreak).
  destruct (reachable_ok srv Hreach rid room Hroom) as [_ Hgame].
  destruct (Hgame sid p Hp) as (Hup & _ & Hnd).
  destruct (reachable_wf srv Hreach) as (_ & Hfields & _).
  destruct (Hfields rid room Hroom) as [_ Hcr].
  assert (Hrange : ∀ e, e ∈ answers p → 1 ≤ round e ≤ currentRound room).
  { intros e He. split; [by apply Hlow|by apply Hup]. }
  split; [exact Hrange|]. split; [exact Hstreak|].
  cbn [correctAnswers info_of].
  replace (length (List.filter (λ a, correct a) (answers p)))
    with (length (scored_rounds p))
    by (unfold scored_rounds; by rewrite length_map).
  apply NoDup_range_length; [done|done|].
  intros x (e & <- & He)%list_elem_of_In%in_map_iff.
  apply filter_In in He as [He _]. apply Hrange. by apply list_elem_of_In.
Qed.

Lemma history_within_rounds_witness :
  let srv := after round2_ended_trace in
  let room := room_at srv "r1" in
  let p := player_at room "Q" in
  reachable srv
  ∧ store srv !! "r1"%string = Some room
  ∧ Map_get "Q" (players room) = Some p
  ∧ currentRound room = 2
  ∧ map round (answers p) = [1; 2]
  ∧ (streak p ≤ correctAnswers (info_of p))%nat
  ∧ Z.of_nat (correctAnswers (info_of p)) ≤ currentRound room.
Proof.
  intros srv room p.
  pose proof (after_reachable round2_ended_trace) as H1.
  assert (H2 : store srv !! "r1"%string = Some room)
    by (vm_compute; reflexivity).
  assert (H3 : Map_get "Q" (players room) = Some p)
    by (vm_compute; reflexivity).
  assert (H4 : currentRound room = 2) by (vm_compute; reflexivity).
  assert (H5 : map round (answers p) = [1; 2]) by (vm_compute; reflexivity).
  destruct (history_within_rounds srv "r1" room "Q" p H1 H2 H3)
    as (_ & H6 & H7).
  exact (conj H1 (conj H2 (conj H3 (conj H4 (conj H5 (conj H6 H7)))))).
Defined.

(** Property X24.  In every reachable state a room of the registry is
    stored under its own identifier, its round is not negative, and
    every record of [players] is stored under the identifier it holds. *)
Theorem stored_under_own_id srv rid room :
  reachable srv →
  rooms_get srv rid = Some room →
  room_id room = rid
  ∧ 0 ≤ currentRound room
  ∧ ∀ sid p, Map_get sid (players room) = Some p → player_id p = sid.
Proof.
  intros Hreach [_ Hroom]%rooms_get_Some.
  destruct (reachable_wf srv Hreach) as (_ & Hfields & _).
  destruct (Hfields rid room Hroom) as [Hid Hcr].
  split; [done|]. split; [done|]. intros sid p Hp%Map_get_elem.
  by destruct (reachable_record_ok srv Hreach rid room sid p Hroom Hp).
Qed.

Lemma stored_under_own_id_witness :
  let srv := after answered_trace in
  let room := room_at srv "r1" in
  reachable srv
  ∧ rooms_get srv "r1" = Some room
  ∧ room_id room = "r1"%string
  ∧ Map_keys (players room) = ["P"; "Q"]%string
  ∧ map player_id (Map_values (players room)) = ["P"; "Q"]%string.
Proof.
  intros srv room.
  pose proof (after_reachable answered_trace) as H1.
  assert (H2 : rooms_get srv "r1" = Some room) by (vm_compute; reflexivity).
  assert (H3 : Map_keys (players room) = ["P"; "Q"]%string)
    by (vm_compute; reflexivity).
  assert (H4 : map player_id (Map_values (players room)) = ["P"; "Q"]%string)
    by (vm_compute; reflexivity).
  destruct (stored_under_own_id srv "r1" room H1 H2) as (H5 & _).
  exact (conj H1 (conj H2 (conj H5 (conj H3 H4)))).
Defined.

(** Property X25.  In every reachable state and on every input of
    [step] (payloads with their fields, all strings), a handler or a
    callback of a timer can end in an uncaught [TypeError] for one reason
    only, the image of a round that does not exist: [player-join] and
    [submit-guess] on a room that is [playing] a round without image,
    [endRound] at a round without image, and [startRound] when the next
    round is within [totalRounds] and has no image. *)
Theorem throws_only_on_missing_image srv now i :
  reachable srv →
  step now i srv = None →
  ∃ rid room,
    store srv !! rid = Some room
    ∧ (((∃ sid name, i = PlayerJoin sid rid name)
        ∧ state room = playing
        ∧ image_at (images room) (currentRound room - 1) = None)
       ∨ ((∃ sid guess, i = SubmitGuess sid rid guess)
          ∧ state room = playing
          ∧ image_at (images room) (currentRound room - 1) = None)
       ∨ ((∃ h, i = Fire h)
          ∧ (image_at (images room) (currentRound room - 1) = None
             ∨ currentRound room + 1 ≤ totalRounds (settings room)
               ∧ image_at (images room) (currentRound room) = None))).
Proof.
  intros Hreach Hstep.
  destruct (reachable_wf srv Hreach) as (_ & _ & Htm).
  destruct i; simpl in Hstep; try done.
  - unfold on_player_join in Hstep.
    destruct (rooms_get _ roomId) as [room|] eqn:Hroom; [|done].
    apply rooms_get_Some in Hroom as [_ Hroom]. cbn in Hroom.
    destruct (bool_decide (state room = finished)); [done|].
    destruct (bool_decide (state room = setup)); [done|].
    cbn [state with_players images currentRound] in Hstep.
    destruct (bool_decide (state room = playing)) eqn:Hp; [|done].
    apply bool_decide_eq_true in Hp.
    destruct (image_at _ _) eqn:Himg; [done|].
    exists roomId, room. split; [done|]. left. eauto.
  - unfold on_submit_guess in Hstep.
    destruct (rooms_get _ roomId) as [room|] eqn:Hroom; [|done].
    apply rooms_get_Some in Hroom as [_ Hroom]. cbn in Hroom.
    destruct (bool_decide (state room = playing)) eqn:Hp; [|done].
    apply bool_decide_eq_true in Hp. cbn [negb] in Hstep.
    destruct (Map_get sid (players room)); [|done].
    destruct (bool_decide (sid ∈ roundAnswered room)); [done|].
    destruct (image_at _ _) eqn:Himg; [by destruct (num_gt _ 0)|].
    exists roomId, room. split; [done|]. right. left. eauto.
  - unfold fire in Hstep. cbn [timers with_clock] in Hstep.
    destruct (find _ (timers srv)) as [t|] eqn:Hfind; [|done].
    apply find_some in Hfind as [Hin%list_elem_of_In _].
    destruct (Htm t Hin) as [room Hroom].
    destruct (action t) as [rid|rid hintInterval|rid fl wc];
      cbn [callback_room] in Hroom; exists rid, room; (split; [done|]);
      right; right; (split; [by eexists|]).
    + right. eapply startRound_throws; [|exact Hstep]. done.
    + left. eapply endRound_throws; [|exact Hstep]. done.
    + by eapply hint_tick_returns in Hstep.
Qed.

Lemma throws_only_on_missing_image_witness :
  let srv := after raised_rounds_trace in
  let room := room_at srv "r1" in
  reachable srv
  ∧ admissible 37010 (Fire 3) srv = true
  ∧ step 37010 (Fire 3) srv = None
  ∧ currentRound room = 1
  ∧ totalRounds (settings room) = 3
  ∧ image_at (images room) 1 = None
  ∧ ∃ rid room,
      store srv !! rid = Some room
      ∧ (((∃ sid name, Fire 3 = PlayerJoin sid rid name)
          ∧ state room = playing
          ∧ image_at (images room) (currentRound room - 1) = None)
         ∨ ((∃ sid guess, Fire 3 = SubmitGuess sid rid guess)
            ∧ state room = playing
            ∧ image_at (images room) (currentRound room - 1) = None)
         ∨ ((∃ h, Fire 3 = Fire h)
            ∧ (image_at (images room) (currentRound room - 1) = None
               ∨ currentRound room + 1 ≤ totalRounds (settings room)
                 ∧ image_at (images room) (currentRound room) = None))).
Proof.
  intros srv room.
  pose proof (after_reachable raised_rounds_trace) as H1.
  assert (H2 : admissible 37010 (Fire 3) srv = true)
    by (vm_compute; reflexivity).
  assert (H3 : step 37010 (Fire 3) srv = None) by (vm_compute; reflexivity).
  assert (H4 : currentRound room = 1) by (vm_compute; reflexivity).
  assert (H5 : totalRounds (settings room) = 3) by (vm_compute; reflexivity).
  assert (H6 : image_at (images room) 1 = None) by (vm_compute; reflexivity).
  exact (conj H1 (conj H2 (conj H3 (conj H4 (conj H5 (conj H6
           (throws_only_on_missing_image srv 37010 (Fire 3) H1 H3))))))).
Defined.

End Records.

(** ** Who changes the state, the round and the images of a room *)

Section Frames.

Ltac changed_room Hadm Hr Hr' :=
  rewrite ?sweep_store in Hr'; cbn in Hr';
  apply andb_true_iff in Hadm as [_ Hadm]; cbn in Hadm;
  split_lookup; simplify_eq; cbn.

(** Property X28.  How the state of a room changes in one step of the
    server: [host-join] sets it to [lobby], [start-game] to [playing],
    a callback of a timer to [playing], [roundResult] or [finished];
    nothing else changes it, and no room ever goes back to [setup].  The
    identifier of the room, the identifier of its host and its creation
    time never change. *)
Theorem state_changed_only_by now i srv srv' out rid room room' :
  admissible now i srv = true →
  step now i srv = Some (srv', out) →
  store srv !! rid = Some room →
  store srv' !! rid = Some room' →
  (state room' = state room
   ∨ (∃ sid h, i = HostJoin sid rid h) ∧ state room' = lobby
   ∨ (∃ sid, i = StartGame sid rid) ∧ state room' = playing
   ∨ (∃ h, i = Fire h)
     ∧ (state room' = playing ∨ state room' = roundResult
        ∨ state room' = finished))
  ∧ (state room' = setup → state room = setup)
  ∧ room_id room' = room_id room
  ∧ hostId room' = hostId room
  ∧ createdAt room' = createdAt room.
Proof.
  intros Hadm Hstep Hr Hr'.
  assert (H : (state room' = state room
               ∨ (∃ sid h, i = HostJoin sid rid h) ∧ state room' = lobby
               ∨ (∃ sid, i = StartGame sid rid) ∧ state room' = playing
               ∨ (∃ h, i = Fire h)
                 ∧ (state room' = playing ∨ state room' = roundResult
                    ∨ state room' = finished))
              ∧ room_id room' = room_id room
              ∧ hostId room' = hostId room
              ∧ createdAt room' = createdAt room).
  { revert Hr Hr'. step_cases i Hstep; intros Hr Hr';
      changed_room Hadm Hr Hr';
      try (split; [by left|done]);
      try (by apply bool_decide_eq_true in Hadm; congruence);
      try (split; [|done]; right; first
             [ left; split; [by eexists _, _|done]
             | right; left; split; [by eexists|done]
             | right; right; split; [by eexists|]; tauto ]). }
  destruct H as (Hst & Hid & Hhost & Hcr).
  split; [exact Hst|]. split; [|done].
  intros Hsetup. rewrite Hsetup in Hst.
  destruct Hst as [Hst|[[_ Hst]|[[_ Hst]|[_ [Hst|[Hst|Hst]]]]]];
    congruence.
Qed.

Lemma state_changed_only_by_witness :
  let srv := after lobby_trace in
  let srv' := after started_trace in
  let room := room_at srv "r1" in
  let room' := room_at srv' "r1" in
  admissible 10 (StartGame "H" "r1") srv = true
  ∧ step 10 (StartGame "H" "r1") srv
    = Some (srv', [to_room "r1" (game_started 2 30 2)])
  ∧ store srv !! "r1"%string = Some room
  ∧ store srv' !! "r1"%string = Some room'
  ∧ state room = lobby
  ∧ state room' = playing
  ∧ hostId room' = hostId room.
Proof.
  intros srv srv' room room'.
  assert (H1 : admissible 10 (StartGame "H" "r1") srv = true)
    by (vm_compute; reflexivity).
  assert (H2 : step 10 (StartGame "H" "r1") srv
               = Some (srv', [to_room "r1" (game_started 2 30 2)]))
    by (vm_compute; reflexivity).
  assert (H3 : store srv !! "r1"%string = Some room)
    by (vm_compute; reflexivity).
  assert (H4 : store srv' !! "r1"%string = Some room')
    by (vm_compute; reflexivity).
  assert (H5 : state room = lobby) by (vm_compute; reflexivity).
  assert (H6 : state room' = playing) by (vm_compute; reflexivity).
  destruct (state_changed_only_by 10 (StartGame "H" "r1") srv srv' _ "r1"
              room room' H1 H2 H3 H4) as (_ & _ & _ & H7 & _).
  exact (conj H1 (conj H2 (conj H3 (conj H4 (conj H5 (conj H6 H7)))))).
Defined.

(** Property X29.  How the round and the images of a room change in one
    step of the server: [start-game] sets the round to 0 and a callback
    of a timer may add 1 to it; an upload appends images and a deletion
    removes the one at its index; nothing else changes them. *)
Theorem round_and_images_changed_only_by
    now i srv srv' out rid room room' :
  admissible now i srv = true →
  step now i srv = Some (srv', out) →
  store srv !! rid = Some room →
  store srv' !! rid = Some room' →
  (currentRound room' = currentRound room
   ∨ (∃ sid, i = StartGame sid rid) ∧ currentRound room' = 0
   ∨ (∃ h, i = Fire h) ∧ currentRound room' = currentRound room + 1)
  ∧ (images room' = images room
     ∨ (∃ files, i = Upload rid files
                 ∧ ∃ new, images room' = images room ++ new
                          ∧ length new = length files)
     ∨ (∃ index, i = DeleteImage rid index
                 ∧ images room' = delete (Z.to_nat index) (images room))).
Proof.
  intros Hadm Hstep Hr Hr'.
  revert Hr Hr'. step_cases i Hstep; intros Hr Hr';
    (rewrite ?sweep_store in Hr'; cbn in Hr';
     apply andb_true_iff in Hadm as [_ Hadm]; cbn in Hadm;
     split_lookup; simplify_eq; cbn);
    try (split; by left);
    try (by apply bool_decide_eq_true in Hadm; congruence).
  - split; [by left|]. right. left. eexists. split; [done|].
    eexists. split; [done|]. by rewrite length_map.
  - split; [by left|]. right. right. by eexists.
  - split; [|by left]. right. left. split; [by eexists|done].
  - split; [|by left]. right. right. split; [by eexists|done].
  - split; [|by left]. right. right. split; [by eexists|done].
  - split; [|by left]. right. right. split; [by eexists|done].
Qed.

Lemma round_and_images_changed_only_by_witness :
  let srv := after lobby_trace in
  let srv' := after started_trace in
  let room := room_at srv "r1" in
  let room' := room_at srv' "r1" in
  admissible 10 (StartGame "H" "r1") srv = true
  ∧ step 10 (StartGame "H" "r1") srv
    = Some (srv', [to_room "r1" (game_started 2 30 2)])
  ∧ store srv !! "r1"%string = Some room
  ∧ store srv' !! "r1"%string = Some room'
  ∧ currentRound room' = 0
  ∧ (images room' = images room
     ∨ (∃ files, StartGame "H" "r1" = Upload "r1" files
                 ∧ ∃ new, images room' = images room ++ new
                          ∧ length new = length files)
     ∨ (∃ index, StartGame "H" "r1" = DeleteImage "r1" index
                 ∧ images room' = delete (Z.to_nat index) (images room))).
Proof.
  intros srv srv' room room'.
  assert (H1 : admissible 10 (StartGame "H" "r1") srv = true)
    by (vm_compute; reflexivity).
  assert (H2 : step 10 (StartGame "H" "r1") srv
               = Some (srv', [to_room "r1" (game_started 2 30 2)]))
    by (vm_compute; reflexivity).
  assert (H3 : store srv !! "r1"%string = Some room)
    by (vm_compute; reflexivity).
  assert (H4 : store srv' !! "r1"%string = Some room')
    by (vm_compute; reflexivity).
  assert (H5 : currentRound room' = 0) by (vm_compute; reflexivity).
  destruct (round_and_images_changed_only_by 10 (StartGame "H" "r1") srv srv'
              _ "r1" room room' H1 H2 H3 H4) as [_ H6].
  exact (conj H1 (conj H2 (conj H3 (conj H4 (conj H5 H6))))).
Defined.

End Frames.

(** ** The hint interval and the kinds of match *)

Section Hints.

Ltac in_list :=
  repeat match goal with
         | H : _ ∈ [] |- _ => apply elem_of_nil in H; destruct H
         | H : _ ∈ _ :: _ |- _ => apply elem_of_cons in H as [H|H]
         | H : to_room _ _ = to_room _ _ |- _ => discriminate H
         end;
  try match goal with
      | H : _ ∉ _ |- _ =>
          exfalso; apply H; clear;
          repeat first [ by apply list_elem_of_here
                       | apply list_elem_of_further ]
      end.

Lemma rearmed_in h cb (ts : list timer) t :
  t ∈ ts → handle t = h →
  ∃ t', t' ∈ map (rearmed h cb) ts
        ∧ handle t' = h ∧ due t' = due t + 1000 ∧ action t' = cb.
Proof.
  intros Hin Hh. exists (rearmed h cb t). split.
  - apply list_elem_of_In, in_map, list_elem_of_In, Hin.
  - unfold rearmed. by rewrite Hh, Nat.eqb_refl.
Qed.

(** Property X26.  One run of the callback of the hint interval of a
    round.  It changes no room, no socket and not the registry.  When
    the room is not [playing] it sends nothing and clears the interval.
    A hint whose flag is already set is not sent again; sending the
    word-count hint clears the interval.  Otherwise the interval stays
    armed: the timers are those of before, except that the timer of the
    interval is due a second later and carries the first-letter flag set
    once that hint has been sent; so a pending interval is still
    pending after the run. *)
Theorem hint_interval_once srv rid room h fl wc now :
  store srv !! rid = Some room →
  let first := to_room (room_id room) (hint first_letter) in
  let count := to_room (room_id room) (hint word_count) in
  ∃ srv' out,
    hint_tick h rid fl wc now srv = Some (srv', out)
    ∧ store srv' = store srv
    ∧ rooms srv' = rooms srv
    ∧ sockets srv' = sockets srv
    ∧ (state room ≠ playing → out = [])
    ∧ (fl = true → first ∉ out)
    ∧ (wc = true → count ∉ out)
    ∧ (state room ≠ playing ∨ count ∈ out →
       ∀ t : timer, t ∈ timers srv' ↔ t ∈ timers srv ∧ handle t ≠ h)
    ∧ (state room = playing → count ∉ out →
       (first ∈ out →
        timers srv' = map (rearmed h (cb_hint rid true wc)) (timers srv))
       ∧ (first ∉ out →
          timers srv' = map (rearmed h (cb_hint rid fl wc)) (timers srv))
       ∧ ∀ t : timer, t ∈ timers srv → handle t = h →
           ∃ t', t' ∈ timers srv' ∧ handle t' = h
                 ∧ due t' = due t + 1000
                 ∧ (action t' = cb_hint rid true wc
                    ∨ action t' = cb_hint rid fl wc)).
Proof.
  intros Hroom first count. subst first count.
  unfold hint_tick. rewrite Hroom. cbv zeta.
  assert (Hclear : ∀ t : timer,
            t ∈ timers (clear_timer h srv) ↔ t ∈ timers srv ∧ handle t ≠ h).
  { intros t. unfold clear_timer. cbn [timers with_timers].
    rewrite !list_elem_of_In, filter_In, negb_true_iff, Nat.eqb_neq. tauto. }
  destruct (bool_decide (state room = playing)) eqn:Hp; cbn [negb].
  - apply bool_decide_eq_true in Hp.
    set (e1 := num_ge _ (_ * 0.5)). set (e2 := num_ge _ (_ * 0.75)).
    destruct e1, e2, fl, wc; cbn [andb negb orb app];
      eexists _, _; (split; [reflexivity|]);
      (split; [done|]); (split; [done|]); (split; [done|]);
      (split; [done|]);
      (split; [solve [intros Hf Hin; try discriminate Hf; in_list]|]);
      (split; [solve [intros Hf Hin; try discriminate Hf; in_list]|]);
      (split; [solve [intros [?|Hin]; [done|]; try exact Hclear; in_list]|]);
      intros _ Hout; try (by in_list);
      cbn [timers with_timers];
      (split; [intros Hfirst; first [reflexivity | by in_list]|]);
      (split; [intros Hfirst; first [reflexivity | by in_list]|]);
      intros t Ht Hh;
      match goal with
      | |- ∃ t', t' ∈ map (λ t0, if _ then {| action := ?cb |} else _) _ ∧ _ =>
          destruct (rearmed_in h cb (timers srv) t Ht Hh)
            as (t' & Hin' & Hh' & Hd' & Ha')
      end;
      exists t'; (split; [exact Hin'|]); (split; [exact Hh'|]);
      (split; [exact Hd'|]); rewrite Ha'; auto.
  - apply bool_decide_eq_false in Hp.
    eexists _, _. split; [reflexivity|].
    split; [done|]. split; [done|]. split; [done|]. split; [done|].
    split; [by intros _ ?%elem_of_nil|].
    split; [by intros _ ?%elem_of_nil|].
    split; [intros _; exact Hclear|done].
Qed.

(** The run of the interval that sends the first hint of round 1, at
    17010: the interval is armed again for 18010, its first-letter flag
    set. *)
Lemma hint_interval_once_witness :
  let srv := after first_hint_trace in
  let room := room_at srv "r1" in
  let pending := {| handle := 1%nat; due := 17010;
                    action := cb_hint "r1" false false |} in
  store srv !! "r1"%string = Some room
  ∧ state room = playing
  ∧ pending ∈ timers srv
  ∧ ∃ srv' out,
      hint_tick 1 "r1" false false 17010 srv = Some (srv', out)
      ∧ out = [to_room "r1" (hint first_letter)]
      ∧ {| handle := 1%nat; due := 18010;
           action := cb_hint "r1" true false |} ∈ timers srv'.
Proof.
  intros srv room pending.
  assert (H1 : store srv !! "r1"%string = Some room)
    by (vm_compute; reflexivity).
  assert (H2 : state room = playing) by (vm_compute; reflexivity).
  assert (H3 : room_id room = "r1"%string) by (vm_compute; reflexivity).
  assert (H5 : ∃ rest, timers srv = pending :: rest)
    by (eexists; vm_compute; reflexivity).
  assert (H6 : pending ∈ timers srv).
  { destruct H5 as [rest ->]. apply list_elem_of_here. }
  destruct (hint_interval_once srv "r1" room 1 false false 17010 H1)
    as (srv' & out & Ht & _ & _ & _ & _ & _ & _ & _ & Harm).
  assert (H4 : snd <$> hint_tick 1 "r1" false false 17010 srv
               = Some [to_room "r1" (hint first_letter)])
    by (vm_compute; reflexivity).
  rewrite Ht in H4. injection H4 as H4.
  refine (conj H1 (conj H2 (conj H6 _))). exists srv', out.
  refine (conj Ht (conj H4 _)).
  rewrite H3, H4 in Harm.
  assert (Hc : to_room "r1" (hint word_count)
               ∉ [to_room "r1" (hint first_letter)]).
  { intros Hc. apply elem_of_cons in Hc as [Hc|Hc];
      [discriminate Hc|]. by apply elem_of_nil in Hc. }
  destruct (Harm H2 Hc) as (Hmap & _ & _).
  rewrite (Hmap (list_elem_of_here _ _)).
  destruct H5 as [rest ->]. apply list_elem_of_here.
Defined.

Lemma checkAnswer_values guess answer :
  In (checkAnswer guess answer) qualities.
Proof. rewrite checkAnswer_ladder. apply matchQuality_spec_values. Qed.

(** Property X27.  The kind of match that [submit-guess] reports, and
    the streak, by the quality [checkAnswer] gives: [exact] for 1 only,
    [close] for 0.7, 0.8, 0.85, 0.9 and 0.95, [partial] for 0.4, 0.6 and
    0.65 (and 0), and the streak grows by one unless the match is
    [partial]. *)
Theorem matchType_by_quality (guess answer : string) :
  let q := checkAnswer guess answer in
  (matchType_of q = exact ↔ q = 1%float)
  ∧ (matchType_of q = close ↔ In q [0.7; 0.8; 0.85; 0.9; 0.95]%float)
  ∧ (matchType_of q = partial ↔ In q [0; 0.4; 0.6; 0.65]%float)
  ∧ ∀ stk, streak_after q stk
           = match matchType_of q with partial => stk | _ => S stk end.
Proof.
  intros q. pose proof (checkAnswer_values guess answer) as Hq.
  fold q in Hq. clearbody q. unfold qualities in Hq. simpl in Hq.
  repeat (destruct Hq as [<-|Hq]); [..|done];
    repeat split;
    (let H := fresh "H" in
     intros H;
     first [ solve [vm_compute; reflexivity]
           | solve [vm_compute in H; discriminate H]
           | solve [float_discr H]
           | solve [simpl; repeat first [left; reflexivity | right]]
           | solve [simpl in H;
                    repeat (destruct H as [H|H]; [float_discr H|]); done] ]).
Qed.

End Hints.

(** ** Who arms and who cancels the timers *)

Section Timers.

(** Property X30.  The REST endpoints and the socket handlers never
    cancel a timer, and only [start-game] arms one: an accepted
    [start-game] adds one [startRound] timer, due 2000 ms later, and
    leaves the pending timers of a game that is already running armed. *)
Theorem handlers_never_cancel_timers now i srv srv' out :
  step now i srv = Some (srv', out) →
  (∀ h, i ≠ Fire h) →
  i ≠ Sweep →
  timers srv' = timers srv
  ∨ ∃ sid rid,
      i = StartGame sid rid
      ∧ timers srv'
        = timers srv ++ [{| handle := next_handle srv; due := now + 2000;
                            action := cb_startRound rid |}].
Proof.
  intros Hstep Hfire Hsweep.
  step_cases i Hstep; try (by left); try done;
    try (by destruct (Hfire h)).
  right. by eexists _, _.
Qed.

Lemma handlers_never_cancel_timers_witness :
  let srv := after round1_trace in
  let i := StartGame "H" "r1" in
  ∃ srv' out,
    step 3000 i srv = Some (srv', out)
    ∧ length (timers srv) = 2%nat
    ∧ (timers srv' = timers srv
       ∨ ∃ sid rid,
           i = StartGame sid rid
           ∧ timers srv'
             = timers srv ++ [{| handle := next_handle srv;
                                 due := 3000 + 2000;
                                 action := cb_startRound rid |}]).
Proof.
  intros srv i.
  destruct (step 3000 i srv) as [[srv' out]|] eqn:Hs; [|by vm_compute in Hs].
  assert (H1 : length (timers srv) = 2%nat) by (vm_compute; reflexivity).
  exists srv', out. refine (conj eq_refl (conj H1 _)).
  apply (handlers_never_cancel_timers 3000 i srv srv' out Hs);
    [intros h; discriminate|discriminate].
Defined.

End Timers.
